(** * nanny: deep-merge and drift-audit engine

    A shallow embedding of the merge, projection, version-synchronisation and
    audit functions of the [nanny] command line tool
    ([generate-package], [update-package], [merge-vscode-config]).

    Modelling conventions.
    - A parsed JSON/JSONC document is a tree [Json].  A JavaScript object is
      the list of its own enumerable properties in the order in which
      [Object.keys] lists them.
    - [filterPackageJson], [replaceVersions], [findDuplicateKeys] and
      [findChangedWireit] look a name up, with [o[k]] or [k in o], in an
      object that need not own it.  Module [Proto] gives them with the
      members that every object inherits from [Object.prototype] and with
      the place that [Object.keys] gives to an array index.  The first three
      are also given, in [GeneratePackage] and [UpdatePackage], on the
      properties that the objects own; the lemmas [filterPackageJson_own],
      [replaceVersions_own] and [findDuplicateKeys_own] say where the two
      agree.
    - A JavaScript number is represented by the text [JSON.stringify] prints
      for it, so that no floating point arithmetic is needed.
    - Functions that write into an argument are given twice where a claim
      depends on sharing: once on trees, in state-passing style, and once on
      an explicit store of objects. *)

From Stdlib Require Import String Ascii.
From stdpp Require Import gmap strings list fin_maps sorting.

#[local] Set Warnings "-clear-no-such-hyp".

Local Open Scope string_scope.
Local Open Scope nat_scope.

(** ** JSON-like values and JavaScript objects *)

Module JS.

Unset Elimination Schemes.
Inductive Json : Type :=
  | JNull
  | JBool (b : bool)
  | JNumber (repr : string)
  | JString (s : string)
  | JArray (elems : list Json)
  | JObject (props : list (string * Json)).
Set Elimination Schemes.

(** [Record<string, T>]: the properties that the object owns, in the order of
    [Object.keys]. *)
Abbreviation Obj T := (list (string * T)).
Abbreviation JsonObject := (list (string * Json)).

Section Json_induction.
Variable P : Json → Prop.
Hypothesis Hnull : P JNull.
Hypothesis Hbool : ∀ b, P (JBool b).
Hypothesis Hnumber : ∀ n, P (JNumber n).
Hypothesis Hstring : ∀ s, P (JString s).
Hypothesis Harray : ∀ l, Forall P l → P (JArray l).
Hypothesis Hobject : ∀ o, Forall (λ kv, P kv.2) o → P (JObject o).

Fixpoint Json_ind (j : Json) : P j :=
  match j with
  | JNull => Hnull
  | JBool b => Hbool b
  | JNumber n => Hnumber n
  | JString s => Hstring s
  | JArray l =>
      Harray l
        ((fix elems_ind (l : list Json) : Forall P l :=
            match l with
            | [] => Forall_nil_2 P
            | x :: l' => Forall_cons_2 P x l' (Json_ind x) (elems_ind l')
            end) l)
  | JObject o =>
      Hobject o
        ((fix props_ind (o : JsonObject) : Forall (λ kv, P kv.2) o :=
            match o with
            | [] => Forall_nil_2 _
            | kv :: o' =>
                Forall_cons_2 (λ kv, P kv.2) kv o' (Json_ind kv.2) (props_ind o')
            end) o)
  end.
End Json_induction.

(** [o[k]]: the value of the own property [k], [None] for [undefined]. *)
Fixpoint get {T} (o : Obj T) (k : string) : option T :=
  match o with
  | [] => None
  | (k', v) :: o' => if String.eqb k' k then Some v else get o' k
  end.

(** [o[k] = v]: an existing property keeps its place, a new one goes last. *)
Fixpoint set {T} (o : Obj T) (k : string) (v : T) : Obj T :=
  match o with
  | [] => [(k, v)]
  | (k', v') :: o' =>
      if String.eqb k' k then (k', v) :: o' else (k', v') :: set o' k v
  end.

(** [delete o[k]] *)
Fixpoint remove {T} (o : Obj T) (k : string) : Obj T :=
  match o with
  | [] => []
  | (k', v') :: o' =>
      if String.eqb k' k then o' else (k', v') :: remove o' k
  end.

(** [k in o] *)
Definition has {T} (o : Obj T) (k : string) : bool :=
  match get o k with Some _ => true | None => false end.

Definition Object_keys {T} (o : Obj T) : list string := o.*1.
Definition Object_entries {T} (o : Obj T) : list (string * T) := o.

(** [typeof v === "object" && v !== null && !Array.isArray(v)] *)
Definition isPlainObject (v : option Json) : bool :=
  match v with
  | Some (JObject _) => true
  | _ => false
  end.

(** Each name of a list once, at the place of its first occurrence. *)
Fixpoint firsts (l : list string) : list string :=
  match l with
  | [] => []
  | x :: l' => x :: filter (λ y, y ≠ x) (firsts l')
  end.

(** The characters of the text of a finite number: digits, sign, point and
    exponent mark. *)
Definition numberChar (c : ascii) : bool :=
  let n := N_of_ascii c in
  ((48 <=? n) && (n <=? 57) || (n =? 43) || (n =? 45) || (n =? 46)
   || (n =? 101))%N.

(** The text of a number starts with a digit or the minus sign. *)
Definition isNumberText (s : string) : bool :=
  match s with
  | EmptyString => false
  | String c _ =>
      let n := N_of_ascii c in
      ((48 <=? n) && (n <=? 57) || (n =? 45))%N
      && forallb numberChar (list_ascii_of_string s)
  end.

(** Values as the runtime builds them: in an object no name occurs twice, at
    any depth, and a number is the text of a finite number. *)
Fixpoint wf (j : Json) : bool :=
  match j with
  | JNumber repr => isNumberText repr
  | JArray l => forallb wf l
  | JObject o => bool_decide (NoDup (o.*1)) && forallb (λ kv, wf kv.2) o
  | _ => true
  end.

(** [sameUpToKeyOrder a b]: [b] is [a] with the properties of its objects,
    at any depth, in another order. *)
#[local] Unset Elimination Schemes.
Inductive sameUpToKeyOrder : Json → Json → Prop :=
  | same_null : sameUpToKeyOrder JNull JNull
  | same_bool b : sameUpToKeyOrder (JBool b) (JBool b)
  | same_number n : sameUpToKeyOrder (JNumber n) (JNumber n)
  | same_string s : sameUpToKeyOrder (JString s) (JString s)
  | same_array l l' :
      Forall2 sameUpToKeyOrder l l' →
      sameUpToKeyOrder (JArray l) (JArray l')
  | same_object o o' o'' :
      Forall2 (λ p q, p.1 = q.1 ∧ sameUpToKeyOrder p.2 q.2) o o'' →
      o'' ≡ₚ o' →
      sameUpToKeyOrder (JObject o) (JObject o').
#[local] Set Elimination Schemes.

Definition wfObj (o : JsonObject) : bool := wf (JObject o).

End JS.

(** ** [JSON.stringify] with an indentation of two spaces *)

Module JSON.
Import JS.

Definition nl : string := String "010"%char EmptyString.
Definition dquote : string := String "034"%char EmptyString.
Definition gap : string := "  ".

Definition hexDigit (n : N) : ascii :=
  match n with
  | 0 => "0" | 1 => "1" | 2 => "2" | 3 => "3" | 4 => "4" | 5 => "5"
  | 6 => "6" | 7 => "7" | 8 => "8" | 9 => "9" | 10 => "a" | 11 => "b"
  | 12 => "c" | 13 => "d" | 14 => "e" | _ => "f"
  end%N%char.

(** The escape of one code unit in [QuoteJSONString]: the two-character
    escapes, [\u00xx] for the other control characters, the character itself
    otherwise. *)
Definition escapeChar (c : ascii) : string :=
  let n := N_of_ascii c in
  if (n =? 8)%N then "\b"
  else if (n =? 9)%N then "\t"
  else if (n =? 10)%N then "\n"
  else if (n =? 12)%N then "\f"
  else if (n =? 13)%N then "\r"
  else if (n =? 34)%N then "\" +:+ dquote
  else if (n =? 92)%N then "\\"
  else if (n <? 32)%N then
    "\u00" +:+ String (hexDigit (n / 16)) (String (hexDigit (n mod 16)) "")
  else String c "".

Fixpoint escape (s : string) : string :=
  match s with
  | EmptyString => EmptyString
  | String c s' => escapeChar c +:+ escape s'
  end.

Definition QuoteJSONString (s : string) : string :=
  dquote +:+ escape s +:+ dquote.

(** The last step of [SerializeJSONObject] and [SerializeJSONArray]: the
    members between the brackets, one per line at the new indentation, or
    the two brackets alone when there is no member. *)
Definition wrap (opening closing : string) (stepback : string)
    (partial : list string) : string :=
  match partial with
  | [] => opening +:+ closing
  | _ =>
      let indent := stepback +:+ gap in
      let separator := "," +:+ nl +:+ indent in
      opening +:+ nl +:+ indent +:+ String.concat separator partial
      +:+ nl +:+ stepback +:+ closing
  end.

(** [SerializeJSONProperty] for a value that is present.  [plist] is the
    property list of an array replacer ([None] without one), [indent] the
    current indentation.  For an object every own property is serialised and
    the members are then taken in the order of [K]: the property list when
    there is one, the own keys otherwise; a name of [K] the object does not
    own yields [undefined] and no member. *)
Fixpoint serialize (plist : option (list string)) (indent : string)
    (value : Json) {struct value} : string :=
  match value with
  | JNull => "null"
  | JBool true => "true"
  | JBool false => "false"
  | JNumber repr => repr
  | JString s => QuoteJSONString s
  | JArray elems =>
      wrap "[" "]" indent (map (serialize plist (indent +:+ gap)) elems)
  | JObject props =>
      let strP :=
        map (λ kv, (kv.1, serialize plist (indent +:+ gap) kv.2)) props in
      let K := match plist with
               | Some K => K
               | None => Object_keys props
               end in
      wrap "{" "}" indent
        (omap (λ P, match get strP P with
                    | Some str => Some (QuoteJSONString P +:+ ": " +:+ str)
                    | None => None
                    end) K)
  end.

(** The property list of an array replacer: its strings, each once. *)
Definition PropertyList (replacer : list string) : list string :=
  foldl (λ acc item, if bool_decide (item ∈ acc) then acc else (acc ++ [item])%list)
        [] replacer.

(** [JSON.stringify(value, replacer, 2)], [replacer] being [null] or an array
    of strings. *)
Definition stringify (value : Json) (replacer : option (list string)) : string :=
  serialize (PropertyList <$> replacer) "" value.

End JSON.

(** ** Reading a serialisation back

    What is needed to tell two serialisations apart: the code unit an escape
    stands for, the kind of value a first character announces, and the
    members [JSON.stringify] prints for an object. *)

Module Decode.
Import JS JSON.

Definition hexValue (c : ascii) : N :=
  let n := N_of_ascii c in
  (if n <? 58 then n - 48 else n - 87)%N.

(** The code unit at the head of an escaped string, and what follows it;
    [None] at the closing quote. *)
Definition unescapeChar (s : string) : option (ascii * string) :=
  match s with
  | EmptyString => None
  | String c rest =>
      if (N_of_ascii c =? 34)%N then None
      else if (N_of_ascii c =? 92)%N then
        match rest with
        | String x rest' =>
            let n := N_of_ascii x in
            if (n =? 98)%N then Some ("008"%char, rest')
            else if (n =? 116)%N then Some ("009"%char, rest')
            else if (n =? 110)%N then Some ("010"%char, rest')
            else if (n =? 102)%N then Some ("012"%char, rest')
            else if (n =? 114)%N then Some ("013"%char, rest')
            else if (n =? 34)%N then Some ("034"%char, rest')
            else if (n =? 92)%N then Some ("092"%char, rest')
            else
              match rest' with
              | String _ (String _ (String h1 (String h2 rest''))) =>
                  Some (ascii_of_N (16 * hexValue h1 + hexValue h2), rest'')
              | _ => None
              end
        | EmptyString => None
        end
      else Some (c, rest)
  end.

Inductive Kind : Type :=
  | KNull | KTrue | KFalse | KNumber | KString | KArray | KObject | KOther.

Definition kind (v : Json) : Kind :=
  match v with
  | JNull => KNull
  | JBool true => KTrue
  | JBool false => KFalse
  | JNumber _ => KNumber
  | JString _ => KString
  | JArray _ => KArray
  | JObject _ => KObject
  end.

(** The kind of value whose serialisation starts with [c]. *)
Definition kindOfChar (c : ascii) : Kind :=
  let n := N_of_ascii c in
  if (n =? 110)%N then KNull
  else if (n =? 116)%N then KTrue
  else if (n =? 102)%N then KFalse
  else if (n =? 34)%N then KString
  else if (n =? 91)%N then KArray
  else if (n =? 123)%N then KObject
  else if ((48 <=? n) && (n <=? 57) || (n =? 45))%N then KNumber
  else KOther.

Definition kindOfHead (s : string) : Kind :=
  match s with
  | EmptyString => KOther
  | String c _ => kindOfChar c
  end.

(** What may follow a value: the end of the text, or a character that is
    not one of a number. *)
Definition endsValue (r : string) : bool :=
  match r with
  | EmptyString => true
  | String c _ => negb (numberChar c)
  end.

(** The members of the serialisation of an object with the property list
    [K]: the names of [K] the object has, with their values. *)
Definition members (K : list string) (o : JsonObject) : JsonObject :=
  omap (λ P, (λ v, (P, v)) <$> get o P) K.

End Decode.

(** ** generate-package: projection of the manifest and in-place deep merge *)

Module GeneratePackage.
Import JS.

(** [key === "__proto__" || key === "constructor" || key === "prototype"] *)
Definition isPollutionKey (key : string) : bool :=
  String.eqb key "__proto__" || String.eqb key "constructor"
  || String.eqb key "prototype".

(** [mergeDeep(target, source)] on trees; [target] is the object written to
    and the result is [target] afterwards.  The recursive call writes into the
    object [tv] that [target[key]] refers to, so afterwards [target[key]] is
    the merged object; every other case assigns [target[key] = sv].
    [mergeDeepJ] takes the source as a value so that the recursion is
    structural; [mergeDeep] below is the function of the source file. *)
Fixpoint mergeDeepJ (target : JsonObject) (source : Json) {struct source}
    : JsonObject :=
  match source with
  | JObject src =>
      (fix loop (target : JsonObject) (entries : JsonObject) {struct entries}
         : JsonObject :=
         match entries with
         | [] => target
         | (key, sv) :: rest =>
             loop
               (if isPollutionKey key then target
                else
                  match sv, get target key with
                  | JObject _, Some (JObject tv) =>
                      set target key (JObject (mergeDeepJ tv sv))
                  | _, _ => set target key sv
                  end)
               rest
         end) target src
  | _ => target
  end.

Definition mergeDeep (target source : JsonObject) : JsonObject :=
  mergeDeepJ target (JObject source).

(** [filterPackageJson(pkg, keys)] on the properties that [pkg] owns, for
    names that are no array index; [Proto.filterPackageJson] is the function
    on every key list. *)
Definition filterPackageJson (pkg : JsonObject) (keys : list string)
    : JsonObject :=
  foldl (λ filtered key,
           match get pkg key with
           | Some v => set filtered key v
           | None => filtered
           end) [] keys.

(** The body of [runGeneratePackage] between reading the inputs and printing:
    project the manifest, merge every fragment in turn, drop ["notes"]. *)
Definition assemble (pkg : JsonObject) (keysToPreserve : list string)
    (configs : list JsonObject) : JsonObject :=
  let filteredPkg := filterPackageJson pkg keysToPreserve in
  let merged := foldl mergeDeep filteredPkg configs in
  if has merged "notes" then remove merged "notes" else merged.

Definition defaultKeysToPreserve : list string :=
  ["name"; "description"; "version"; "author"; "bugs"; "engines"; "homepage";
   "license"; "private"; "repository"; "publishConfig"; "type"].

End GeneratePackage.

(** ** merge-vscode-config: non-destructive deep merge *)

Module MergeVscodeConfig.
Import JS.

(** [deepMerge(base, override)] on trees: [out] starts as a copy of the
    properties of [base]; the merged sub-object is a new object. *)
Fixpoint deepMergeJ (base : JsonObject) (override : Json) {struct override}
    : JsonObject :=
  match override with
  | JObject ov =>
      (fix loop (out : JsonObject) (entries : JsonObject) {struct entries}
         : JsonObject :=
         match entries with
         | [] => out
         | (k, v) :: rest =>
             loop
               (match get out k, v with
                | Some (JObject bv), JObject _ =>
                    set out k (JObject (deepMergeJ bv v))
                | _, _ => set out k v
                end)
               rest
         end) base ov
  | _ => base
  end.

Definition deepMerge (base override : JsonObject) : JsonObject :=
  deepMergeJ base (JObject override).

Record CliOptions : Type := mkCliOptions {
  base : string;
  local : string;
  out : string;
  verbose : bool;
  dryRun : bool;
  check : bool;
  help : bool;
}.

Record NannyError : Type := mkNannyError { message : string; exitCode : Z }.

(** What a run leaves behind: the error thrown, if any, the files (path to
    text) and what was written to the standard output. *)
Record Run : Type := mkRun {
  thrown : option NannyError;
  files : gmap string string;
  stdout : list string;
}.

Section Run.
(** The JSONC parser of the [jsonc-parser] package: the description of the
    errors it reports, or the value parsed ([None] for [undefined]). *)
Variable parseJsonc : string → string + option Json.

Definition readJsoncObject (fs : gmap string string) (filePath : string)
    : NannyError + JsonObject :=
  let raw := default "" (fs !! filePath) in
  match parseJsonc raw with
  | inl details =>
      inl (mkNannyError
             ("Invalid JSONC in " +:+ filePath +:+ ": " +:+ details) 1)
  | inr (Some (JObject parsed)) => inr parsed
  | inr _ =>
      inl (mkNannyError ("JSONC root must be an object in " +:+ filePath) 1)
  end.

(** [runMergeVscodeConfig], the paths of the options being resolved
    already.  [files] are the files with their text: the directory that the
    run creates for the output file when it is missing holds no file and
    does not show there.  [stdout] is what a run without [--verbose] prints
    when it does not stop for help: the lines that [console.log] adds under
    [--verbose] are left out, and so is the help text.  The [.env] files,
    which set variables of the environment that this run does not read, are
    in [DotEnv]. *)
Definition runMergeVscodeConfig (options : CliOptions)
    (fs : gmap string string) : Run :=
  let throw e := mkRun (Some e) fs [] in
  if help options then throw (mkNannyError "help" 0)
  else
    let basePath := base options in
    let localPath := local options in
    let outPath := out options in
    match fs !! basePath with
    | None => throw (mkNannyError ("Base file not found: " +:+ basePath) 2)
    | Some _ =>
        match readJsoncObject fs basePath with
        | inl e => throw e
        | inr baseJson =>
            let localRead :=
              match fs !! localPath with
              | Some _ => readJsoncObject fs localPath
              | None => inr []
              end in
            match localRead with
            | inl e => throw e
            | inr localJson =>
                let merged := deepMerge baseJson localJson in
                let formatted :=
                  JSON.stringify (JObject merged) None +:+ JSON.nl in
                if check options then
                  match fs !! outPath with
                  | None =>
                      throw (mkNannyError
                               ("CHECK FAILED: Output file does not exist: "
                                +:+ outPath) 1)
                  | Some current =>
                      if negb (String.eqb current formatted) then
                        throw (mkNannyError
                                 ("CHECK FAILED: " +:+ outPath
                                  +:+ " is out of date. Run nanny merge-vscode-config.")
                                 1)
                      else mkRun None fs []
                  end
                else if dryRun options then mkRun None fs [formatted]
                else mkRun None (<[outPath := formatted]> fs) []
            end
        end
    end.
End Run.

(** Drift Detected: the two errors of the check mode. *)
Definition checkFailed (r : Run) : bool :=
  match thrown r with
  | Some e => String.prefix "CHECK FAILED" (message e) && (exitCode e =? 1)%Z
  | None => false
  end.

End MergeVscodeConfig.

(** ** update-package: version synchronisation and audits *)

Module UpdatePackage.
Import JS.

(** The two sections [replaceVersions] walks through. *)
Inductive DepSection : Type := dependencies | devDependencies.

(** [PackageJson], with the fields this command reads. *)
Record PackageJson : Type := mkPackageJson {
  pkg_dependencies : option (Obj string);
  pkg_devDependencies : option (Obj string);
  pkg_scripts : option (Obj string);
  pkg_wireit : option JsonObject;
}.

Definition getSection (p : PackageJson) (section : DepSection)
    : option (Obj string) :=
  match section with
  | dependencies => pkg_dependencies p
  | devDependencies => pkg_devDependencies p
  end.

Definition setSection (p : PackageJson) (section : DepSection)
    (t : Obj string) : PackageJson :=
  match section with
  | dependencies =>
      mkPackageJson (Some t) (pkg_devDependencies p) (pkg_scripts p) (pkg_wireit p)
  | devDependencies =>
      mkPackageJson (pkg_dependencies p) (Some t) (pkg_scripts p) (pkg_wireit p)
  end.

(** Truthiness of a string. *)
Definition truthy (s : string) : bool := negb (String.eqb s "").

(** One turn of the inner loop of [replaceVersions]: [t] is the section of
    the target (written in place), [s] that of the source, [updated] the flag
    so far.  [s[dep]] is read among the properties that [s] owns;
    [Proto.syncVersions_step] reads the members of [Object.prototype] too. *)
Definition syncVersions_step (s : Obj string) (st : Obj string * bool)
    (dep : string) : Obj string * bool :=
  let '(t, updated) := st in
  match get s dep with
  | Some newVersion =>
      if truthy newVersion && negb (bool_decide (get t dep = Some newVersion))
      then (set t dep newVersion, true)
      else (t, updated)
  | None => (t, updated)
  end.

(** The inner loop, [for (const dep of Object.keys(t))]. *)
Definition syncVersions (t s : Obj string) (updated : bool)
    : Obj string * bool :=
  foldl (syncVersions_step s) (t, updated) (Object_keys t).

(** Whether the loop rewrites the entry [dep] of [t]. *)
Definition differs (t s : Obj string) (dep : string) : bool :=
  match get s dep with
  | Some newVersion =>
      truthy newVersion && negb (bool_decide (get t dep = Some newVersion))
  | None => false
  end.

(** Whether [replaceVersions] rewrites an entry of the given section. *)
Definition changedIn (target source : PackageJson) (section : DepSection)
    : bool :=
  match getSection target section, getSection source section with
  | Some t, Some s => existsb (differs t s) (Object_keys t)
  | _, _ => false
  end.

(** [replaceVersions(target, source)]: the target afterwards and the flag. *)
Definition replaceVersions (target source : PackageJson)
    : PackageJson * bool :=
  foldl (λ '(target, updated) section,
           match getSection target section, getSection source section with
           | Some t, Some s =>
               let '(t', updated') := syncVersions t s updated in
               (setSection target section t', updated')
           | _, _ => (target, updated)
           end)
        (target, false) [dependencies; devDependencies].

(** [new Set(keys)]: the elements in the order of their first occurrence. *)
Definition Set_from (keys : list string) : list string :=
  foldl (λ acc k, if bool_decide (k ∈ acc) then acc else (acc ++ [k])%list)
        [] keys.

(** [Array.prototype.sort] without a comparator: the strings in the order of
    their code units, [String.le]. *)
Definition sort (l : list string) : list string := merge_sort String.le l.

(** The local function [collect] of [stableStringify]: every property name
    of the value, at any depth, in the order of the traversal. *)
Fixpoint collect (v : Json) : list string :=
  match v with
  | JArray elems => concat (map collect elems)
  | JObject props => concat (map (λ kv, kv.1 :: collect kv.2) props)
  | _ => []
  end.

(** [Array.from(new Set(keys)).sort()] for the names of [value]. *)
Definition uniqKeys (value : Json) : list string :=
  sort (Set_from (collect value)).

Definition stableStringify (value : Json) : string :=
  let uniq := uniqKeys value in
  JSON.stringify value (Some uniq).

(** The test of [findChangedWireit]:
    [stableStringify(rw[name]) !== stableStringify(cfg)]. *)
Definition wireitDiffers (root cfg : Json) : bool :=
  negb (String.eqb (stableStringify root) (stableStringify cfg)).

(** An item of the duplicate report. *)
Record Duplicate : Type := mkDuplicate { name : string; files : list string }.

(** The body of the inner loop of [findDuplicateKeys]:
    [if (!seen[key]) seen[key] = []; seen[key].push(file)], for a name that
    [seen] owns or that is neither a member of [Object.prototype] nor an
    array index; [Proto.noteKey] is the body for every name. *)
Definition noteKey (file : string) (seen : Obj (list string)) (key : string)
    : Obj (list string) :=
  let seen := match get seen key with
              | Some _ => seen
              | None => set seen key []
              end in
  set seen key (default [] (get seen key) ++ [file])%list.

(** The two loops of [findDuplicateKeys], from a table [seen]. *)
Definition seenFrom {T} (seen : Obj (list string))
    (entries : list (string * Obj T)) : Obj (list string) :=
  foldl (λ seen '(file, map), foldl (noteKey file) seen (Object_keys map))
        seen entries.

(** The table [seen] once the entries are gone through. *)
Definition seenIn {T} (entries : list (string * Obj T)) : Obj (list string) :=
  seenFrom [] entries.

(** [findDuplicateKeys(entries)]; an entry is [(file, map)]. *)
Definition findDuplicateKeys {T} (entries : list (string * Obj T))
    : list Duplicate :=
  map (λ '(name, files), mkDuplicate name files)
      (filter (λ '(_, files), 1 < length files)
              (Object_entries (seenIn entries))).

(** The files of the entries whose map has the name [key], in the order of
    the entries. *)
Definition origins {T} (entries : list (string * Obj T)) (key : string)
    : list string :=
  (filter (λ e, key ∈ Object_keys e.2) entries).*1.

End UpdatePackage.

(** ** The two merges on a store of objects

    [mergeDeep] writes into the objects of its target and [deepMerge] builds
    new ones; what each does to objects that are shared is visible only on a
    store.  A reference is a location of the store, a cell is the array or
    the object stored there. *)

Module Heap.
Import JS.

Definition loc : Type := nat.

Inductive value : Type :=
  | VUndefined
  | VNull
  | VBool (b : bool)
  | VNumber (repr : string)
  | VString (s : string)
  | VRef (l : loc).

Inductive cell : Type :=
  | CArray (elems : list value)
  | CObject (props : Obj value).

Abbreviation heap := (gmap loc cell).

(** Computations on the store that may get stuck. *)
Definition M (A : Type) : Type := heap → option (A * heap).

Definition ret {A} (a : A) : M A := λ h, Some (a, h).
Definition stuck {A} : M A := λ _, None.
Definition bind {A B} (m : M A) (k : A → M B) : M B :=
  λ h, match m h with
       | Some (a, h') => k a h'
       | None => None
       end.

Notation "'let*' x ':=' m 'in' k" := (bind m (λ x, k))
  (at level 10, x pattern, m at level 100, k at level 200,
   format "'[' 'let*'  x  ':='  m  'in' ']' '/' k").

(** A new object with the given properties. *)
Definition alloc (props : Obj value) : M loc :=
  λ h, let l := fresh (dom h) in Some (l, <[l := CObject props]> h).

(** The own properties of the object at [l]. *)
Definition readObject (l : loc) : M (Obj value) :=
  λ h, match h !! l with
       | Some (CObject props) => Some (props, h)
       | _ => None
       end.

(** [o[k]] for the object at [l]. *)
Definition getProp (l : loc) (k : string) : M value :=
  let* props := readObject l in ret (default VUndefined (get props k)).

(** [o[k] = v] for the object at [l]. *)
Definition setProp (l : loc) (k : string) (v : value) : M unit :=
  λ h, match h !! l with
       | Some (CObject props) => Some (tt, <[l := CObject (set props k v)]> h)
       | _ => None
       end.

Definition isPlainObject (v : value) : M bool :=
  λ h, match v with
       | VRef l =>
           match h !! l with
           | Some (CObject _) => Some (true, h)
           | Some (CArray _) => Some (false, h)
           | None => None
           end
       | _ => Some (false, h)
       end.

(** [for (const x of xs) body(x)] *)
Fixpoint forEach {A} (xs : list A) (body : A → M unit) : M unit :=
  match xs with
  | [] => ret tt
  | x :: xs' => let* _ := body x in forEach xs' body
  end.

(** The body of the loop of [mergeDeep], [rec] being the recursive call. *)
Definition mergeDeep_body (rec : loc → loc → M loc) (target source : loc)
    (key : string) : M unit :=
  if GeneratePackage.isPollutionKey key then ret tt
  else
    let* sv := getProp source key in
    let* tv := getProp target key in
    let* svPlain := isPlainObject sv in
    let* bothPlain := (if svPlain then isPlainObject tv else ret false) in
    match bothPlain, tv, sv with
    | true, VRef t, VRef s => let* _ := rec t s in ret tt
    | _, _, _ => setProp target key sv
    end.

(** [mergeDeep(target, source)] of generate-package; [fuel] bounds the depth
    of the recursion. *)
Fixpoint mergeDeep (fuel : nat) (target source : loc) : M loc :=
  match fuel with
  | 0 => stuck
  | S fuel =>
      let* sprops := readObject source in
      let* _ := forEach (Object_keys sprops)
                        (mergeDeep_body (mergeDeep fuel) target source) in
      ret target
  end.

(** The body of the loop of [deepMerge], [rec] being the recursive call. *)
Definition deepMerge_body (rec : loc → loc → M loc) (out : loc)
    (entry : string * value) : M unit :=
  let '(k, v) := entry in
  let* bv := getProp out k in
  let* bvPlain := isPlainObject bv in
  let* bothPlain := (if bvPlain then isPlainObject v else ret false) in
  match bothPlain, bv, v with
  | true, VRef b, VRef o => let* r := rec b o in setProp out k (VRef r)
  | _, _, _ => setProp out k v
  end.

(** [deepMerge(base, override)] of merge-vscode-config. *)
Fixpoint deepMerge (fuel : nat) (base override : loc) : M loc :=
  match fuel with
  | 0 => stuck
  | S fuel =>
      let* bprops := readObject base in
      let* out := alloc bprops in
      let* entries := readObject override in
      let* _ := forEach (Object_entries entries)
                        (deepMerge_body (deepMerge fuel) out) in
      ret out
  end.

(** [repr h v j]: in the store [h] the value [v] is the tree [j]. *)
#[local] Unset Elimination Schemes.
Inductive repr (h : heap) : value → Json → Prop :=
  | repr_null : repr h VNull JNull
  | repr_bool b : repr h (VBool b) (JBool b)
  | repr_number n : repr h (VNumber n) (JNumber n)
  | repr_string s : repr h (VString s) (JString s)
  | repr_array l vs js :
      h !! l = Some (CArray vs) →
      Forall2 (repr h) vs js →
      repr h (VRef l) (JArray js)
  | repr_object l ps o :
      h !! l = Some (CObject ps) →
      Forall2 (λ p q, p.1 = q.1 ∧ repr h p.2 q.2) ps o →
      repr h (VRef l) (JObject o).
#[local] Set Elimination Schemes.

(** The properties [ps] of an object of the store are those of [o]. *)
Definition reprProps (h : heap) (ps : Obj value) (o : JsonObject) : Prop :=
  Forall2 (λ p q, p.1 = q.1 ∧ repr h p.2 q.2) ps o.

(** The depth of the nesting of objects, which bounds the recursion. *)
Fixpoint depth (j : Json) : nat :=
  match j with
  | JObject o => S (foldr (λ kv d, depth kv.2 `max` d) 0 o)
  | _ => 0
  end.

End Heap.

(** ** Trees laid out in the store

    A value of the store that shares nothing is a tree whose arrays and
    objects carry the location they are stored at.  [mergeDeep] is called on
    such values: a manifest and a fragment just parsed, or an object that
    earlier calls have put together from them. *)

Module Located.
Import JS Heap.

#[local] Unset Elimination Schemes.
Inductive LJson : Type :=
  | LNull
  | LBool (b : bool)
  | LNumber (repr : string)
  | LString (s : string)
  | LArray (l : loc) (elems : list LJson)
  | LObject (l : loc) (props : list (string * LJson)).
#[local] Set Elimination Schemes.

Abbreviation LObj := (list (string * LJson)).

Section LJson_induction.
Variable P : LJson → Prop.
Hypothesis Hnull : P LNull.
Hypothesis Hbool : ∀ b, P (LBool b).
Hypothesis Hnumber : ∀ n, P (LNumber n).
Hypothesis Hstring : ∀ s, P (LString s).
Hypothesis Harray : ∀ l elems, Forall P elems → P (LArray l elems).
Hypothesis Hobject : ∀ l props, Forall (λ kv, P kv.2) props → P (LObject l props).

Fixpoint LJson_ind (j : LJson) : P j :=
  match j with
  | LNull => Hnull
  | LBool b => Hbool b
  | LNumber n => Hnumber n
  | LString s => Hstring s
  | LArray l elems =>
      Harray l elems
        ((fix elems_ind (xs : list LJson) : Forall P xs :=
            match xs with
            | [] => Forall_nil_2 P
            | x :: xs' => Forall_cons_2 P x xs' (LJson_ind x) (elems_ind xs')
            end) elems)
  | LObject l props =>
      Hobject l props
        ((fix props_ind (o : LObj) : Forall (λ kv, P kv.2) o :=
            match o with
            | [] => Forall_nil_2 _
            | kv :: o' =>
                Forall_cons_2 (λ kv, P kv.2) kv o' (LJson_ind kv.2) (props_ind o')
            end) props)
  end.
End LJson_induction.

(** The value that refers to a tree. *)
Definition valueOf (t : LJson) : value :=
  match t with
  | LNull => VNull
  | LBool b => VBool b
  | LNumber n => VNumber n
  | LString s => VString s
  | LArray l _ => VRef l
  | LObject l _ => VRef l
  end.

Definition valuesOf (props : LObj) : Obj value :=
  map (λ kv, (kv.1, valueOf kv.2)) props.

(** The tree without its locations. *)
Fixpoint erase (t : LJson) : Json :=
  match t with
  | LNull => JNull
  | LBool b => JBool b
  | LNumber n => JNumber n
  | LString s => JString s
  | LArray _ elems => JArray (map erase elems)
  | LObject _ props => JObject (map (λ kv, (kv.1, erase kv.2)) props)
  end.

Definition eraseProps (props : LObj) : JsonObject :=
  map (λ kv, (kv.1, erase kv.2)) props.

(** The locations of a tree. *)
Fixpoint locs (t : LJson) : list loc :=
  match t with
  | LArray l elems => l :: concat (map locs elems)
  | LObject l props => l :: concat (map (λ kv, locs kv.2) props)
  | _ => []
  end.

(** The locations of the children of an object. *)
Definition childLocs (props : list (string * LJson)) : list loc :=
  concat (map (λ kv, locs kv.2) props).

(** [stored h t]: the cells of the tree [t] are in the store [h]. *)
#[local] Unset Elimination Schemes.
Inductive stored (h : heap) : LJson → Prop :=
  | stored_null : stored h LNull
  | stored_bool b : stored h (LBool b)
  | stored_number n : stored h (LNumber n)
  | stored_string s : stored h (LString s)
  | stored_array l elems :
      h !! l = Some (CArray (map valueOf elems)) →
      Forall (stored h) elems →
      stored h (LArray l elems)
  | stored_object l props :
      h !! l = Some (CObject (valuesOf props)) →
      Forall (λ kv, stored h kv.2) props →
      stored h (LObject l props).
#[local] Set Elimination Schemes.

(** No name twice in an object, at any depth. *)
Fixpoint wfL (t : LJson) : bool :=
  match t with
  | LArray _ elems => forallb wfL elems
  | LObject _ props =>
      bool_decide (NoDup (props.*1)) && forallb (λ kv, wfL kv.2) props
  | _ => true
  end.

(** [mergeDeep] on trees laid out in the store: the target keeps its
    locations, what is assigned from the source keeps those of the source. *)
Fixpoint mergeDeepL (target : LObj) (source : LJson) {struct source} : LObj :=
  match source with
  | LObject _ src =>
      (fix loop (target : LObj) (entries : LObj) {struct entries} : LObj :=
         match entries with
         | [] => target
         | (key, sv) :: rest =>
             loop
               (if GeneratePackage.isPollutionKey key then target
                else
                  match sv, get target key with
                  | LObject _ _, Some (LObject lt tv) =>
                      set target key (LObject lt (mergeDeepL tv sv))
                  | _, _ => set target key sv
                  end)
               rest
         end) target src
  | _ => target
  end.

(** [rec] merges the source tree [S] in place into any tree that shares no
    location with it: the target keeps its location and holds the merged
    tree afterwards, and no cell outside the target is written. *)
Definition merges (rec : loc → loc → M loc) (S : LJson) : Prop :=
  ∀ ls sps, S = LObject ls sps → ∀ h lt tps,
    wfL (LObject lt tps) = true →
    stored h (LObject lt tps) → stored h S →
    NoDup (locs (LObject lt tps)) →
    (∀ l, l ∈ locs (LObject lt tps) → l ∉ locs S) →
    ∃ h', rec lt ls h = Some (lt, h')
        ∧ stored h' (LObject lt (mergeDeepL tps S))
        ∧ (∀ l, l ∉ locs (LObject lt tps) → h' !! l = h !! l).

(** What holds before each turn of the loop of [mergeDeep] that merges the
    tree [LObject ls sps] into the tree [LObject lt tps] of the store [h]:
    [hj] is the store, [tpsj] the properties of the target, [rest] the
    entries of the source still to come. *)
Definition loop_inv (h : heap) (lt ls : loc) (tps sps rest tpsj : LObj)
    (hj : heap) : Prop :=
  NoDup (Object_keys tpsj)
  ∧ (∀ l, l ∉ locs (LObject lt tps) → hj !! l = h !! l)
  ∧ hj !! lt = Some (CObject (valuesOf tpsj))
  ∧ (∀ k, k ∈ Object_keys rest → get tpsj k = get tps k)
  ∧ (∀ kv, kv ∈ tpsj →
       stored hj kv.2
       ∧ ∀ l, l ∈ locs kv.2 →
           l ∈ locs (LObject ls sps)
           ∨ ∃ c0, get tps kv.1 = Some c0 ∧ l ∈ locs c0).

End Located.

(** ** Sample inputs *)

Module Samples.
Import JS Heap.

(** A parser that knows the text of the empty object only. *)
Definition toyParser (raw : string) : string + option Json :=
  if String.eqb raw "{}" then inr (Some (JObject []))
  else inl "InvalidSymbol at offset 0".

(** The settings of the specification, on a store: the base at location 0,
    the override at location 2. *)
Definition settingsStore : heap :=
  {[ 0 := CObject [("editor", VRef 1)];
     1 := CObject [("fontSize", VNumber "12"); ("tabSize", VNumber "2")];
     2 := CObject [("editor", VRef 3)];
     3 := CObject [("fontSize", VNumber "14")] ]}.

End Samples.

(** ** The common shape of the two merges

    [mergeDeep] and [deepMerge] walk through the source in the same way and
    differ in the names they skip; [mergeBy skip] is that walk, stated once
    so that what holds of both is proved once. *)

Module MergeShape.
Import JS.

Fixpoint mergeByJ (skip : string → bool) (target : JsonObject)
    (source : Json) {struct source} : JsonObject :=
  match source with
  | JObject src =>
      (fix loop (target : JsonObject) (entries : JsonObject) {struct entries}
         : JsonObject :=
         match entries with
         | [] => target
         | (key, sv) :: rest =>
             loop
               (if skip key then target
                else
                  match sv, get target key with
                  | JObject _, Some (JObject tv) =>
                      set target key (JObject (mergeByJ skip tv sv))
                  | _, _ => set target key sv
                  end)
               rest
         end) target src
  | _ => target
  end.

Definition mergeBy (skip : string → bool) (target source : JsonObject)
    : JsonObject :=
  mergeByJ skip target (JObject source).

(** What the merge leaves at a name of the source that is not skipped, the
    target holding [tv] there before: the merged object when both are
    objects, the value of the source otherwise. *)
Definition merged (skip : string → bool) (tv : option Json) (sv : Json) : Json :=
  match sv, tv with
  | JObject so, Some (JObject to) => JObject (mergeBy skip to so)
  | _, _ => sv
  end.

(** One turn of the loop. *)
Definition step (skip : string → bool) (target : JsonObject) (key : string)
    (sv : Json) : JsonObject :=
  if skip key then target
  else set target key (merged skip (get target key) sv).

Definition noSkip (key : string) : bool := false.

End MergeShape.

(** ** Sources without a guarded name *)

Module Guarded.
Import JS GeneratePackage.

(** No property of the object, or of an object nested in it through
    objects, has one of the three guarded names.  Arrays are not looked
    into: the merges assign them as they are. *)
Fixpoint guardFree (j : Json) : bool :=
  match j with
  | JObject o =>
      forallb (λ kv, negb (isPollutionKey kv.1) && guardFree kv.2) o
  | _ => true
  end.

End Guarded.

(** ** Command line arguments (lib/args) and the entry point *)

Module Args.

(** [getFlagValue(argv, name)]: the argument after the first [name], when it
    is there, is not the empty string and does not start with a dash. *)
Fixpoint getFlagValue (argv : list string) (name : string) : option string :=
  match argv with
  | [] => None
  | a :: rest =>
      if String.eqb a name then
        match rest with
        | value :: _ =>
            if String.eqb value "" || String.prefix "-" value then None
            else Some value
        | [] => None
        end
      else getFlagValue rest name
  end.

(** [hasFlag(argv, name)] *)
Definition hasFlag (argv : list string) (name : string) : bool :=
  existsb (String.eqb name) argv.

(** The arguments [stripGlobalFlags] leaves out. *)
Definition isGlobalFlag (a : string) : bool :=
  String.eqb a "--cwd" || String.eqb a "--verbose" || String.eqb a "--help"
  || String.eqb a "-h".

(** [stripGlobalFlags(argv)]: [--cwd] goes with the argument after it,
    whatever that is. *)
Fixpoint stripGlobalFlags (argv : list string) : list string :=
  match argv with
  | [] => []
  | a :: rest =>
      if String.eqb a "--cwd" then
        match rest with
        | [] => []
        | _ :: rest' => stripGlobalFlags rest'
        end
      else if String.eqb a "--verbose" then stripGlobalFlags rest
      else if String.eqb a "--help" || String.eqb a "-h" then
        stripGlobalFlags rest
      else a :: stripGlobalFlags rest
  end.

End Args.

Module Cli.
Import Args MergeVscodeConfig.

Inductive Command : Type :=
  | generate_package | update_package | merge_vscode_config.

(** What [main] does with the arguments: print the help, call a command
    with [cwd] ([None] for [process.cwd()]), [verbose] and the remaining
    arguments, or report an unknown command. *)
Inductive Route : Type :=
  | ShowHelp
  | RunCommand (c : Command) (cwd : option string) (verbose : bool)
      (rest : list string)
  | UnknownCommand (cmd : string).

(** [main], up to the call of the command. *)
Definition route (argv : list string) : Route :=
  let cmd := default "--help" (head argv) in
  if String.eqb cmd "--help" || String.eqb cmd "-h" then ShowHelp
  else
    let cwd := getFlagValue argv "--cwd" in
    let verbose := hasFlag argv "--verbose" in
    let rest := drop 1 (stripGlobalFlags argv) in
    if String.eqb cmd "generate-package" then
      RunCommand generate_package cwd verbose rest
    else if String.eqb cmd "update-package" then
      RunCommand update_package cwd verbose rest
    else if String.eqb cmd "merge-vscode-config" then
      RunCommand merge_vscode_config cwd verbose rest
    else UnknownCommand cmd.

End Cli.

(** ** The arguments of the commands *)

Module MergeVscodeArgs.
Import MergeVscodeConfig.

(** [requireValue(argv, idx, flag)], [v] being [argv[idx]]. *)
Definition requireValue (v : option string) (flag : string)
    : NannyError + string :=
  match v with
  | Some v =>
      if String.eqb v "" || String.prefix "--" v then
        inl (mkNannyError ("Missing value for " +:+ flag) 1)
      else inr v
  | None => inl (mkNannyError ("Missing value for " +:+ flag) 1)
  end.

Definition withBase (o : CliOptions) (v : string) : CliOptions :=
  mkCliOptions v (local o) (out o) (verbose o) (dryRun o) (check o) (help o).
Definition withLocal (o : CliOptions) (v : string) : CliOptions :=
  mkCliOptions (base o) v (out o) (verbose o) (dryRun o) (check o) (help o).
Definition withOut (o : CliOptions) (v : string) : CliOptions :=
  mkCliOptions (base o) (local o) v (verbose o) (dryRun o) (check o) (help o).

(** The loop of [parseArgs], from the options [o]. *)
Fixpoint parseArgsFrom (o : CliOptions) (argv : list string)
    : NannyError + CliOptions :=
  match argv with
  | [] => inr o
  | a :: rest =>
      let next (set : CliOptions → string → CliOptions) (flag : string) :=
        match rest with
        | v :: rest' =>
            match requireValue (Some v) flag with
            | inl e => inl e
            | inr v => parseArgsFrom (set o v) rest'
            end
        | [] =>
            match requireValue None flag with
            | inl e => inl e
            | inr v => inr (set o v)
            end
        end in
      if String.eqb a "--help" then
        parseArgsFrom (mkCliOptions (base o) (local o) (out o) (verbose o)
                         (dryRun o) (check o) true) rest
      else if String.eqb a "--verbose" then
        parseArgsFrom (mkCliOptions (base o) (local o) (out o) true
                         (dryRun o) (check o) (help o)) rest
      else if String.eqb a "--dry-run" then
        parseArgsFrom (mkCliOptions (base o) (local o) (out o) (verbose o)
                         true (check o) (help o)) rest
      else if String.eqb a "--check" then
        parseArgsFrom (mkCliOptions (base o) (local o) (out o) (verbose o)
                         (dryRun o) true (help o)) rest
      else if String.eqb a "--base" then next withBase "--base"
      else if String.eqb a "--local" then next withLocal "--local"
      else if String.eqb a "--out" then next withOut "--out"
      else inl (mkNannyError ("Unknown argument: " +:+ a) 1)
  end.

Definition defaults (globalVerbose : bool) : CliOptions :=
  mkCliOptions ".vscode/settings.base.jsonc" ".vscode/settings.local.jsonc"
    ".vscode/settings.json" globalVerbose false false false.

(** [parseArgs(argv, globalVerbose)] of merge-vscode-config. *)
Definition parseArgs (argv : list string) (globalVerbose : bool)
    : NannyError + CliOptions :=
  parseArgsFrom (defaults globalVerbose) argv.

End MergeVscodeArgs.

Module UpdatePackageArgs.
Import MergeVscodeConfig.

Record Options : Type := mkOptions { verbose : bool; help : bool }.

(** [parseArgs(argv, globalVerbose)] of update-package. *)
Fixpoint parseArgsFrom (o : Options) (argv : list string)
    : NannyError + Options :=
  match argv with
  | [] => inr o
  | a :: rest =>
      if String.eqb a "--help" then parseArgsFrom (mkOptions (verbose o) true) rest
      else if String.eqb a "--verbose" then
        parseArgsFrom (mkOptions true (help o)) rest
      else inl (mkNannyError ("Unknown argument: " +:+ a) 1)
  end.

Definition parseArgs (argv : list string) (globalVerbose : bool)
    : NannyError + Options :=
  parseArgsFrom (mkOptions globalVerbose false) argv.

End UpdatePackageArgs.

(** ** update-package: the audits of the root manifest *)

Module Audit.
Import JS UpdatePackage.

(** [set.add(k)] on a set kept as the list of its elements, oldest first. *)
Definition Set_add (set : list string) (k : string) : list string :=
  if bool_decide (k ∈ set) then set else (set ++ [k])%list.

(** [findMissingFromPackages(rootMap, perFile)]; an item of [perFile] is
    [(file, map)]. *)
Definition findMissingFromPackages {T} (rootMap : option (Obj T))
    (perFile : list (string * Obj T)) : list string :=
  match rootMap with
  | None => []
  | Some rootMap =>
      let present :=
        foldl (λ present '(_, map), foldl Set_add present (Object_keys map))
              [] perFile in
      sort (filter (λ k, k ∉ present) (Object_keys rootMap))
  end.

(** [collectUsedDeps(files)], the files being parsed already. *)
Definition collectUsedDeps (files : list PackageJson) : list string :=
  foldl (λ used json,
           foldl (λ used section,
                    match getSection json section with
                    | Some deps => foldl Set_add used (Object_keys deps)
                    | None => used
                    end)
                 used [dependencies; devDependencies])
        [] files.

(** The loop of [runUpdatePackage] that fills [unusedDependencies], before
    the list is ordered by name for printing. *)
Definition unusedDependencies (rootPkg : PackageJson) (usedDeps : list string)
    : list (string * string) :=
  foldl (λ unused section,
           match getSection rootPkg section with
           | None => unused
           | Some deps =>
               foldl (λ unused '(name, version),
                        if bool_decide (name ∈ usedDeps) then unused
                        else (unused ++ [(name, version)])%list)
                     unused (Object_entries deps)
           end)
        [] [dependencies; devDependencies].

(** [jsonOut(v)] *)
Definition jsonOut (v : Json) : string := JSON.stringify v None.

End Audit.

(** ** Text: trimming and splitting

    A character stands for a code unit below 256; the white space that
    [trim] removes is then the tabulation, the line feed, the vertical
    tabulation, the form feed, the carriage return, the space and the
    no-break space. *)

Module Text.

Definition isWhiteSpace (c : ascii) : bool :=
  let n := N_of_ascii c in
  ((n =? 9) || (n =? 10) || (n =? 11) || (n =? 12) || (n =? 13) || (n =? 32)
   || (n =? 160))%N.

Fixpoint trimStart (s : string) : string :=
  match s with
  | EmptyString => EmptyString
  | String c s' => if isWhiteSpace c then trimStart s' else s
  end.

Fixpoint trimEnd (s : string) : string :=
  match s with
  | EmptyString => EmptyString
  | String c s' =>
      match trimEnd s' with
      | EmptyString => if isWhiteSpace c then EmptyString else String c ""
      | r => String c r
      end
  end.

(** [s.trim()] *)
Definition trim (s : string) : string := trimEnd (trimStart s).

(** [s.split(sep)] for a separator of one character. *)
Fixpoint split (sep : ascii) (s : string) : list string :=
  match s with
  | EmptyString => [EmptyString]
  | String c s' =>
      if Ascii.eqb c sep then EmptyString :: split sep s'
      else match split sep s' with
           | piece :: pieces => String c piece :: pieces
           | [] => [String c ""]
           end
  end.

(** [s.split(/\r?\n/)] *)
Fixpoint splitLines (s : string) : list string :=
  match s with
  | EmptyString => [EmptyString]
  | String c s' =>
      let go := match splitLines s' with
                | piece :: pieces => String c piece :: pieces
                | [] => [String c ""]
                end in
      if Ascii.eqb c "010" then EmptyString :: splitLines s'
      else if Ascii.eqb c "013" then
        match s' with
        | String c' s'' =>
            if Ascii.eqb c' "010" then EmptyString :: splitLines s'' else go
        | EmptyString => go
        end
      else go
  end.

(** The text before and after the first [c] of [s]: [s.slice(0, i)] and
    [s.slice(i + 1)] for [i = s.indexOf(c)], [None] when [i] is [-1]. *)
Fixpoint cut (c : ascii) (s : string) : option (string * string) :=
  match s with
  | EmptyString => None
  | String x s' =>
      if Ascii.eqb x c then Some (EmptyString, s')
      else match cut c s' with
           | Some (before, after) => Some (String x before, after)
           | None => None
           end
  end.

(** [s.endsWith(c)] for one character. *)
Fixpoint endsWith (c : ascii) (s : string) : bool :=
  match s with
  | EmptyString => false
  | String x EmptyString => Ascii.eqb x c
  | String _ s' => endsWith c s'
  end.

Definition startsWith (c : ascii) (s : string) : bool :=
  match s with
  | String x _ => Ascii.eqb x c
  | EmptyString => false
  end.

(** [s.slice(0, -1)] *)
Fixpoint dropLast (s : string) : string :=
  match s with
  | EmptyString => EmptyString
  | String _ EmptyString => EmptyString
  | String x s' => String x (dropLast s')
  end.

(** [s.slice(1, -1)] *)
Definition inner (s : string) : string :=
  match s with
  | EmptyString => EmptyString
  | String _ s' => dropLast s'
  end.

End Text.

(** ** merge-vscode-config: the [.env] files *)

Module DotEnv.
Import Text.

(** One line of a [.env] file: the key and the value it defines, if any. *)
Definition parseLine (line : string) : option (string * string) :=
  let trimmed := trim line in
  if String.eqb trimmed "" || startsWith "#" trimmed then None
  else
    match cut "=" trimmed with
    | None => None
    | Some (before, after) =>
        let key := trim before in
        let val := trim after in
        if String.eqb key "" then None
        else
          let val :=
            if startsWith "034" val && endsWith "034" val
               || startsWith "'" val && endsWith "'" val
            then inner val else val in
          Some (key, val)
    end.

(** The body of the loop over the lines: a key that the environment has
    already is left as it is. *)
Definition loadLine (env : gmap string string) (line : string)
    : gmap string string :=
  match parseLine line with
  | Some (key, val) =>
      match env !! key with
      | Some _ => env
      | None => <[key := val]> env
      end
  | None => env
  end.

(** [loadDotEnvIfPresent], [candidates] being the two paths it looks at, in
    order, [fs] the files and [env] the environment of the process. *)
Definition loadDotEnvIfPresent (fs : gmap string string)
    (candidates : list string) (env : gmap string string)
    : gmap string string :=
  foldl (λ env file,
           match fs !! file with
           | None => env
           | Some content => foldl loadLine env (splitLines content)
           end)
        env candidates.

End DotEnv.

(** ** generate-package: the arguments *)

Module GeneratePackageArgs.
Import Text MergeVscodeConfig.

Record Options : Type := mkOptions {
  pkgPath : string;
  verbose : bool;
  dryRun : bool;
  keysToPreserve : list string;
}.

(** [v.split(",").map((k) => k.trim()).filter(Boolean)] *)
Definition parseKeys (v : string) : list string :=
  filter (λ k, k ≠ "") (map trim (split "," v)).

Section parseArgs.
(** [path.resolve(cwd, v)] of the [path] module of Node. *)
Variable resolve : string → string → string.
Variable cwd : string.

(** The loop of [parseArgs], from the options [o]. *)
Fixpoint parseArgsFrom (o : Options) (argv : list string)
    : NannyError + Options :=
  match argv with
  | [] => inr o
  | a :: rest =>
      if String.eqb a "--help" then inl (mkNannyError "help" 0)
      else if String.eqb a "--package" then
        match rest with
        | v :: rest' =>
            if String.eqb v "" then
              inl (mkNannyError "Missing value for --package" 1)
            else parseArgsFrom
                   (mkOptions (resolve cwd v) (verbose o) (dryRun o)
                      (keysToPreserve o)) rest'
        | [] => inl (mkNannyError "Missing value for --package" 1)
        end
      else if String.eqb a "--verbose" then
        parseArgsFrom (mkOptions (pkgPath o) true (dryRun o)
                         (keysToPreserve o)) rest
      else if String.eqb a "--dry-run" then
        parseArgsFrom (mkOptions (pkgPath o) (verbose o) true
                         (keysToPreserve o)) rest
      else if String.eqb a "--keys" then
        match rest with
        | v :: rest' =>
            if String.eqb v "" then
              inl (mkNannyError "Missing value for --keys" 1)
            else parseArgsFrom
                   (mkOptions (pkgPath o) (verbose o) (dryRun o)
                      (parseKeys v)) rest'
        | [] => inl (mkNannyError "Missing value for --keys" 1)
        end
      else inl (mkNannyError ("Unknown argument: " +:+ a) 1)
  end.

(** [parseArgs(argv, cwd, globalVerbose)] of generate-package. *)
Definition parseArgs (argv : list string) (globalVerbose : bool)
    : NannyError + Options :=
  parseArgsFrom
    (mkOptions (resolve cwd "package.json") globalVerbose false
       GeneratePackage.defaultKeysToPreserve)
    argv.
End parseArgs.

End GeneratePackageArgs.

(** ** Objects with the members they inherit

    An object that a parser or an object literal builds has
    [Object.prototype] for its prototype.  Reading [o[k]] and testing
    [k in o] find the members of [Object.prototype] as well as the
    properties of [o], and a property whose name is an array index goes
    before the other properties of its object.  The functions below are
    those of the tool that read a property without asking whether the
    object owns it, with these two facts of the language written out. *)

Module Proto.
Import JS UpdatePackage.

(** The names of the members of [Object.prototype]. *)
Definition objectPrototype : list string :=
  ["constructor"; "__defineGetter__"; "__defineSetter__"; "hasOwnProperty";
   "__lookupGetter__"; "__lookupSetter__"; "isPrototypeOf";
   "propertyIsEnumerable"; "toString"; "valueOf"; "__proto__";
   "toLocaleString"].

Definition inherited (k : string) : bool := bool_decide (k ∈ objectPrototype).

(** What [o[k]] gives: a value that [o] owns, or the member [name] of
    [Object.prototype] (a function; the prototype object itself for
    [__proto__]). *)
Inductive Member (T : Type) : Type :=
  | Own (v : T)
  | Builtin (name : string).
Arguments Own {T} v.
Arguments Builtin {T} name.

#[global] Instance Member_eq_dec {T} `{EqDecision T} : EqDecision (Member T).
Proof. solve_decision. Defined.

(** [o[k]], [None] for [undefined]. *)
Definition read {T} (o : Obj T) (k : string) : option (Member T) :=
  match get o k with
  | Some v => Some (Own v)
  | None => if inherited k then Some (Builtin k) else None
  end.

(** [k in o] *)
Definition has_in {T} (o : Obj T) (k : string) : bool :=
  has o k || inherited k.

(** The value of a string of decimal digits, [acc] being the value of the
    digits read so far. *)
Fixpoint digitsValue (s : string) (acc : N) : option N :=
  match s with
  | EmptyString => Some acc
  | String c s' =>
      let n := N_of_ascii c in
      if ((48 <=? n) && (n <=? 57))%N
      then digitsValue s' (10 * acc + (n - 48))%N
      else None
  end.

(** The array index that a property name stands for: the canonical decimal
    text of an integer from 0 to 2^32 - 2. *)
Definition arrayIndex (k : string) : option N :=
  match k with
  | EmptyString => None
  | String c rest =>
      if Ascii.eqb c "0" then
        (if String.eqb rest "" then Some 0%N else None)
      else
        match digitsValue k 0 with
        | Some n => if (n <? 4294967295)%N then Some n else None
        | None => None
        end
  end.

(** A new property whose name is the array index [n]: after the indices
    below [n], before everything else. *)
Fixpoint insertIndex {T} (o : Obj T) (n : N) (k : string) (v : T) : Obj T :=
  match o with
  | [] => [(k, v)]
  | (k', v') :: o' =>
      match arrayIndex k' with
      | Some n' =>
          if (n' <? n)%N then (k', v') :: insertIndex o' n k v
          else (k, v) :: o
      | None => (k, v) :: o
      end
  end.

(** [o[k] = v] with the order in which [Object.keys] lists the properties:
    a property that exists keeps its place, a new array index goes among
    the indices, any other new name goes last. *)
Definition put {T} (o : Obj T) (k : string) (v : T) : Obj T :=
  if has o k then set o k v
  else match arrayIndex k with
       | Some n => insertIndex o n k v
       | None => set o k v
       end.

(** [o[k] = v] for an object that does not own [__proto__]: that name is
    the accessor of [Object.prototype], and the assignment creates no
    property. *)
Definition assign {T} (o : Obj T) (k : string) (v : T) : Obj T :=
  if String.eqb k "__proto__" then o else put o k v.

(** [filterPackageJson(pkg, keys)]: the properties that [filtered] owns
    when it is returned. *)
Definition filterPackageJson (pkg : JsonObject) (keys : list string)
    : Obj (Member Json) :=
  foldl (λ filtered key,
           if has_in pkg key
           then assign filtered key (default (Builtin key) (read pkg key))
           else filtered)
        [] keys.

(** Truthiness of what [s[dep]] gives: a function and an object are truthy. *)
Definition truthy (v : Member string) : bool :=
  match v with
  | Own s => UpdatePackage.truthy s
  | Builtin _ => true
  end.

(** The two sections of a manifest that [replaceVersions] writes in; an
    entry holds a version or what the call has put there. *)
Record Manifest : Type := mkManifest {
  m_dependencies : option (Obj (Member string));
  m_devDependencies : option (Obj (Member string));
}.

Definition own {T} (o : Obj T) : Obj (Member T) :=
  map (λ kv, (kv.1, Own kv.2)) o.

(** The sections of a manifest just parsed. *)
Definition manifest (p : PackageJson) : Manifest :=
  mkManifest (own <$> pkg_dependencies p) (own <$> pkg_devDependencies p).

Definition getSection (m : Manifest) (section : DepSection)
    : option (Obj (Member string)) :=
  match section with
  | dependencies => m_dependencies m
  | devDependencies => m_devDependencies m
  end.

Definition setSection (m : Manifest) (section : DepSection)
    (t : Obj (Member string)) : Manifest :=
  match section with
  | dependencies => mkManifest (Some t) (m_devDependencies m)
  | devDependencies => mkManifest (m_dependencies m) (Some t)
  end.

(** One turn of the inner loop of [replaceVersions]:
    [const newVersion = s[dep];
     if (newVersion && t[dep] !== newVersion) { t[dep] = newVersion; updated = true; }] *)
Definition syncVersions_step (s : Obj string)
    (st : Obj (Member string) * bool) (dep : string)
    : Obj (Member string) * bool :=
  let '(t, updated) := st in
  match read s dep with
  | Some newVersion =>
      if truthy newVersion && negb (bool_decide (get t dep = Some newVersion))
      then (set t dep newVersion, true)
      else (t, updated)
  | None => (t, updated)
  end.

Definition syncVersions (t : Obj (Member string)) (s : Obj string)
    (updated : bool) : Obj (Member string) * bool :=
  foldl (syncVersions_step s) (t, updated) (Object_keys t).

(** [replaceVersions(target, source)]: the target afterwards and the flag. *)
Definition replaceVersions (target : Manifest) (source : PackageJson)
    : Manifest * bool :=
  foldl (λ '(target, updated) section,
           match getSection target section,
                 UpdatePackage.getSection source section with
           | Some t, Some s =>
               let '(t', updated') := syncVersions t s updated in
               (setSection target section t', updated')
           | _, _ => (target, updated)
           end)
        (target, false) [dependencies; devDependencies].

(** What a call throws. *)
Inductive Thrown : Type := TypeError (message : string).

(** The body of the inner loop of [findDuplicateKeys]:
    [if (!seen[key]) seen[key] = []; seen[key].push(file)].  For a name that
    [seen] does not own and [Object.prototype] has, [seen[key]] is a function
    or an object, the table is not extended, and the call of [push], which
    the member does not have, throws. *)
Definition noteKey (file : string) (seen : Obj (list string)) (key : string)
    : Thrown + Obj (list string) :=
  match get seen key with
  | Some files => inr (set seen key (files ++ [file])%list)
  | None =>
      if inherited key
      then inl (TypeError "seen[key].push is not a function")
      else inr (put seen key [file])
  end.

(** A loop that stops at the first throw. *)
Definition foldE {A B} (f : B → A → Thrown + B) (b : B) (l : list A)
    : Thrown + B :=
  foldl (λ acc x, match acc with inl e => inl e | inr b => f b x end)
        (inr b) l.

(** The two loops of [findDuplicateKeys]. *)
Definition seenIn {T} (entries : list (string * Obj T))
    : Thrown + Obj (list string) :=
  foldE (λ seen '(file, map), foldE (noteKey file) seen (Object_keys map))
        [] entries.

(** [findDuplicateKeys(entries)]; an entry is [(file, map)]. *)
Definition findDuplicateKeys {T} (entries : list (string * Obj T))
    : Thrown + list Duplicate :=
  match seenIn entries with
  | inl e => inl e
  | inr seen =>
      inr (map (λ '(name, files), mkDuplicate name files)
               (filter (λ '(_, files), 1 < length files)
                       (Object_entries seen)))
  end.

(** [stableStringify(rw[name])]: [None] for [undefined], which
    [JSON.stringify] returns for a function; [Object.prototype] has no
    enumerable property and prints as the empty object. *)
Definition stableStringify (v : Member Json) : option string :=
  match v with
  | Own j => Some (UpdatePackage.stableStringify j)
  | Builtin name =>
      if String.eqb name "__proto__"
      then Some (UpdatePackage.stableStringify (JObject []))
      else None
  end.

(** The loop of [findChangedWireit], before its result is ordered by name. *)
Definition findChangedWireit_unsorted (rootWireit : option JsonObject)
    (perFileWireit : list (string * JsonObject)) : list (string * string) :=
  let rw := default [] rootWireit in
  concat
    (map (λ '(file, wireit),
            omap (λ '(name, cfg),
                    if has_in rw name
                       && negb (bool_decide
                                  (stableStringify
                                     (default (Builtin name) (read rw name))
                                   = Some (UpdatePackage.stableStringify cfg)))
                    then Some (file, name) else None)
                 (Object_entries wireit))
         perFileWireit).

End Proto.

(** * Properties *)

(** ** Reading and writing properties *)

Section object_facts.
Import JS.
Context {T : Type}.
Implicit Types (o : Obj T) (k : string) (v : T).

Lemma eqb_decide (a b : string) : String.eqb a b = bool_decide (a = b).
Proof.
  destruct (String.eqb_spec a b); symmetry;
    [by apply bool_decide_eq_true_2 | by apply bool_decide_eq_false_2].
Qed.

Lemma get_set_eq o k v : get (set o k v) k = Some v.
Proof.
  induction o as [|[k' v'] o IH]; simpl.
  - by rewrite String.eqb_refl.
  - destruct (String.eqb k' k) eqn:E; simpl; by rewrite E.
Qed.

Lemma get_set_ne o k k' v : k ≠ k' → get (set o k v) k' = get o k'.
Proof.
  intros Hne. induction o as [|[k0 v0] o IH]; simpl.
  - by apply String.eqb_neq in Hne as ->.
  - destruct (String.eqb k0 k) eqn:E; simpl; [|by rewrite IH].
    apply String.eqb_eq in E as ->.
    by apply String.eqb_neq in Hne as ->.
Qed.

Lemma get_set o k k' v :
  get (set o k v) k' = if bool_decide (k = k') then Some v else get o k'.
Proof.
  case_bool_decide as E; [subst; apply get_set_eq | by apply get_set_ne].
Qed.

Lemma get_None o k : get o k = None ↔ k ∉ Object_keys o.
Proof.
  unfold Object_keys. induction o as [|[k' v'] o IH]; csimpl.
  - split; [intros _; apply not_elem_of_nil | done].
  - rewrite not_elem_of_cons. destruct (String.eqb_spec k' k); naive_solver.
Qed.

Lemma get_Some_elem o k v : get o k = Some v → (k, v) ∈ o.
Proof.
  induction o as [|[k' v'] o IH]; simpl; [done|].
  destruct (String.eqb_spec k' k); [|set_solver].
  intros [= ->]. subst. set_solver.
Qed.

Lemma get_is_Some o k : is_Some (get o k) ↔ k ∈ Object_keys o.
Proof.
  rewrite <-not_eq_None_Some, get_None.
  destruct (decide (k ∈ Object_keys o)); naive_solver.
Qed.

Lemma has_true o k : has o k = true ↔ k ∈ Object_keys o.
Proof.
  unfold has. rewrite <-get_is_Some.
  destruct (get o k); split; (done || by intros []|| by eauto).
Qed.

Lemma get_elem_NoDup o k v :
  NoDup (Object_keys o) → (k, v) ∈ o → get o k = Some v.
Proof.
  unfold Object_keys. induction o as [|[k' v'] o IH]; csimpl.
  - by intros _ ?%elem_of_nil.
  - intros [Hk Hnd]%NoDup_cons [[= <- <-]|Hin]%elem_of_cons.
    + by rewrite String.eqb_refl.
    + destruct (String.eqb_spec k' k) as [->|]; [|by apply IH].
      destruct Hk. apply list_elem_of_fmap. by exists (k, v).
Qed.

Lemma keys_set_present o k v :
  k ∈ Object_keys o → Object_keys (set o k v) = Object_keys o.
Proof.
  unfold Object_keys. induction o as [|[k' v'] o IH]; csimpl.
  - by intros ?%elem_of_nil.
  - intros Hin. destruct (String.eqb_spec k' k) as [->|Hne]; csimpl; [done|].
    f_equal. apply IH. set_solver.
Qed.

Lemma keys_set_absent o k v :
  k ∉ Object_keys o → Object_keys (set o k v) = (Object_keys o ++ [k])%list.
Proof.
  unfold Object_keys. induction o as [|[k' v'] o IH]; csimpl; [done|].
  intros [Hne Hin]%not_elem_of_cons.
  destruct (String.eqb_spec k' k) as [->|_]; csimpl; [done|].
  by rewrite IH.
Qed.

Lemma elem_of_keys_set o k k' v :
  k' ∈ Object_keys (set o k v) ↔ k' = k ∨ k' ∈ Object_keys o.
Proof.
  destruct (decide (k ∈ Object_keys o)) as [Hin|Hin].
  - rewrite keys_set_present by done. naive_solver.
  - rewrite keys_set_absent by done. set_solver.
Qed.

Lemma NoDup_keys_set o k v :
  NoDup (Object_keys o) → NoDup (Object_keys (set o k v)).
Proof.
  intros Hnd. destruct (decide (k ∈ Object_keys o)) as [Hin|Hin].
  - by rewrite keys_set_present.
  - rewrite keys_set_absent by done.
    apply NoDup_app. split_and!; [done| |apply NoDup_singleton].
    intros x Hx ->%list_elem_of_singleton. done.
Qed.

Lemma set_same o k v : get o k = Some v → set o k v = o.
Proof.
  induction o as [|[k' v'] o IH]; simpl; [done|].
  destruct (String.eqb_spec k' k) as [->|_].
  - by intros [= ->].
  - intros ?. by rewrite IH.
Qed.
End object_facts.

Section object_map_facts.
Import JS.

Lemma get_fmap {A B} (f : A → B) (o : Obj A) k :
  get (map (λ kv, (kv.1, f kv.2)) o) k = f <$> get o k.
Proof.
  induction o as [|[k' v] o IH]; simpl; [done|].
  by destruct (String.eqb k' k).
Qed.

Lemma set_fmap {A B} (f : A → B) (o : Obj A) k v :
  map (λ kv, (kv.1, f kv.2)) (set o k v)
  = set (map (λ kv, (kv.1, f kv.2)) o) k (f v).
Proof.
  induction o as [|[k' v'] o IH]; simpl; [done|].
  destruct (String.eqb k' k); simpl; [done|]. by rewrite IH.
Qed.

Lemma elem_of_set_NoDup {A} (o : Obj A) k v kv :
  NoDup (Object_keys o) → kv ∈ set o k v → kv = (k, v) ∨ (kv ∈ o ∧ kv.1 ≠ k).
Proof.
  unfold Object_keys. induction o as [|[k' v'] o IH]; csimpl.
  - intros _ ->%list_elem_of_singleton. by left.
  - intros [Hk' Hnd]%NoDup_cons.
    destruct (String.eqb_spec k' k) as [->|Hne].
    + intros [->|Hin]%elem_of_cons; [by left|right]. split; [by right|].
      intros <-. apply Hk'. apply list_elem_of_fmap. eauto.
    + intros [->|Hin]%elem_of_cons.
      * right. split; [by left|done].
      * destruct (IH Hnd Hin) as [->|[? ?]]; [by left|right].
        split; [by right|done].
Qed.

Lemma elem_of_set {A} (o : Obj A) k v kv :
  kv ∈ set o k v → kv = (k, v) ∨ kv ∈ o.
Proof.
  induction o as [|[k' v'] o IH]; simpl.
  - intros ->%list_elem_of_singleton. by left.
  - destruct (String.eqb_spec k' k) as [->|_].
    + intros [->|?]%elem_of_cons; [by left|right; by right].
    + intros [->|[->|?]%IH]%elem_of_cons; [right; by left|by left|].
      right. by right.
Qed.
End object_map_facts.

(** ** The two merges *)

Section merge_facts.
Import JS MergeShape.
Implicit Types (target source : JsonObject) (key : string).

Lemma mergeByJ_cons skip target key sv rest :
  mergeByJ skip target (JObject ((key, sv) :: rest))
  = mergeByJ skip
      (if skip key then target
       else match sv, get target key with
            | JObject _, Some (JObject tv) =>
                set target key (JObject (mergeByJ skip tv sv))
            | _, _ => set target key sv
            end)
      (JObject rest).
Proof. reflexivity. Qed.

Lemma mergeDeepJ_cons target key sv rest :
  GeneratePackage.mergeDeepJ target (JObject ((key, sv) :: rest))
  = GeneratePackage.mergeDeepJ
      (if GeneratePackage.isPollutionKey key then target
       else match sv, get target key with
            | JObject _, Some (JObject tv) =>
                set target key (JObject (GeneratePackage.mergeDeepJ tv sv))
            | _, _ => set target key sv
            end)
      (JObject rest).
Proof. reflexivity. Qed.

Lemma deepMergeJ_cons out k v rest :
  MergeVscodeConfig.deepMergeJ out (JObject ((k, v) :: rest))
  = MergeVscodeConfig.deepMergeJ
      (match get out k, v with
       | Some (JObject bv), JObject _ =>
           set out k (JObject (MergeVscodeConfig.deepMergeJ bv v))
       | _, _ => set out k v
       end)
      (JObject rest).
Proof. reflexivity. Qed.

Lemma mergeBy_nil skip target : mergeBy skip target [] = target.
Proof. reflexivity. Qed.

Lemma mergeBy_cons skip target key sv rest :
  mergeBy skip target ((key, sv) :: rest)
  = mergeBy skip (step skip target key sv) rest.
Proof.
  unfold mergeBy, step, merged. rewrite mergeByJ_cons. f_equal.
  destruct (skip key); [done|]. by destruct sv, (get target key) as [[]|].
Qed.

Lemma mergeDeep_mergeBy target source :
  GeneratePackage.mergeDeep target source
  = mergeBy GeneratePackage.isPollutionKey target source.
Proof.
  unfold GeneratePackage.mergeDeep, mergeBy.
  generalize (JObject source). clear source. intros source. revert target.
  induction source as [| | | | |o IH] using Json_ind; try done.
  induction IH as [|[key sv] rest Hsv _ IHrest]; intros target; [done|].
  rewrite mergeDeepJ_cons, mergeByJ_cons, IHrest. f_equal.
  destruct (GeneratePackage.isPollutionKey key); [done|].
  simpl in Hsv. destruct sv; try done.
  destruct (get target key) as [[]|]; try done. by rewrite Hsv.
Qed.

Lemma deepMerge_mergeBy target source :
  MergeVscodeConfig.deepMerge target source = mergeBy noSkip target source.
Proof.
  unfold MergeVscodeConfig.deepMerge, mergeBy.
  generalize (JObject source). clear source. intros source. revert target.
  induction source as [| | | | |o IH] using Json_ind; try done.
  induction IH as [|[key sv] rest Hsv _ IHrest]; intros target; [done|].
  rewrite deepMergeJ_cons, mergeByJ_cons, IHrest. f_equal. unfold noSkip.
  simpl in Hsv. destruct (get target key) as [[]|], sv; try done.
  by rewrite Hsv.
Qed.

(** A name the source does not have, or one that is skipped, keeps what
    the target has there. *)
Lemma get_mergeBy_other skip target source key :
  key ∉ Object_keys source ∨ skip key = true →
  get (mergeBy skip target source) key = get target key.
Proof.
  revert target. induction source as [|[k sv] rest IH]; intros target Hk.
  { done. }
  rewrite mergeBy_cons, IH.
  - unfold step. destruct (skip k) eqn:Hskip; [done|].
    apply get_set_ne. intros ->. destruct Hk as [Hk|Hk]; [|congruence].
    apply Hk. unfold Object_keys. csimpl. set_solver.
  - destruct Hk as [Hk|Hk]; [left|by right].
    unfold Object_keys in *. csimpl in *. set_solver.
Qed.

(** A name of the source that is not skipped holds the merged value. *)
Lemma get_mergeBy_source skip target source key sv :
  NoDup (Object_keys source) → get source key = Some sv → skip key = false →
  get (mergeBy skip target source) key
  = Some (merged skip (get target key) sv).
Proof.
  revert target. induction source as [|[k v] rest IH]; intros target Hnd Hget Hskip.
  { done. }
  unfold Object_keys in Hnd. csimpl in Hnd. apply NoDup_cons in Hnd as [Hk Hnd].
  rewrite mergeBy_cons. simpl in Hget.
  destruct (String.eqb_spec k key) as [->|Hne].
  - injection Hget as ->. rewrite get_mergeBy_other by (by left).
    unfold step. rewrite Hskip. apply get_set_eq.
  - rewrite IH by done. do 2 f_equal.
    unfold step. destruct (skip k); [done|]. by apply get_set_ne.
Qed.

(** The names of the result: those of the target, then the new ones. *)
Lemma elem_of_keys_mergeBy skip target source key :
  key ∈ Object_keys (mergeBy skip target source) ↔
  key ∈ Object_keys target ∨ (key ∈ Object_keys source ∧ skip key = false).
Proof.
  revert target. induction source as [|[k v] rest IH]; intros target.
  { rewrite mergeBy_nil. unfold Object_keys at 2. set_solver. }
  rewrite mergeBy_cons, IH. unfold Object_keys at 4. csimpl.
  fold (Object_keys rest). unfold step.
  destruct (skip k) eqn:Hskip.
  - rewrite elem_of_cons. intuition (subst; eauto; congruence).
  - rewrite elem_of_keys_set, elem_of_cons.
    destruct (decide (key = k)) as [->|]; intuition (subst; eauto; congruence).
Qed.

Lemma NoDup_keys_mergeBy skip target source :
  NoDup (Object_keys target) → NoDup (Object_keys (mergeBy skip target source)).
Proof.
  revert target. induction source as [|[k v] rest IH]; intros target Hnd.
  { done. }
  rewrite mergeBy_cons. apply IH. unfold step.
  destruct (skip k); [done|]. by apply NoDup_keys_set.
Qed.
End merge_facts.

Section merge_claims.
Import JS MergeShape GeneratePackage MergeVscodeConfig.

(** [mergeDeep] never touches a guarded name: whatever the source holds at
    [__proto__], [constructor] or [prototype], the target keeps what it had
    there (nothing, when it had nothing).  As the statement is about every
    target and source, it covers the recursive calls as well. *)
Lemma mergeDeep_skips_pollution_keys target source key :
  isPollutionKey key = true →
  get (mergeDeep target source) key = get target key
  ∧ (key ∈ Object_keys (mergeDeep target source) ↔ key ∈ Object_keys target).
Proof.
  intros Hkey. rewrite mergeDeep_mergeBy. split.
  - apply get_mergeBy_other. by right.
  - rewrite elem_of_keys_mergeBy. split; [|by left].
    intros [?|[_ ?]]; [done|congruence].
Qed.

(** C1, at the input where the code departs from it: [deepMerge] has no
    guard, and a source that holds [prototype] (or [constructor]) gives a
    result that has gained that name, with the value of the source. *)
Theorem deepMerge_copies_pollution_key :
  let override := [("prototype", JString "x"); ("constructor", JObject [])] in
  isPollutionKey "prototype" = true ∧ isPollutionKey "constructor" = true
  ∧ Object_keys (deepMerge [] override) = ["prototype"; "constructor"]
  ∧ get (deepMerge [] override) "prototype" = Some (JString "x")
  ∧ Object_keys (mergeDeep [] override) = [].
Proof. by repeat split. Qed.

(** C4, as stated, fails for [mergeDeep] at a guarded name: the source holds
    a scalar there, so the merge does not recurse, yet the value of the
    source does not replace that of the target. *)
Lemma mergeDeep_guarded_name_not_replaced :
  let target := [("constructor", JString "old")] in
  let source := [("constructor", JString "new")] in
  get source "constructor" = Some (JString "new")
  ∧ isPlainObject (get target "constructor")
    && isPlainObject (get source "constructor") = false
  ∧ get (mergeDeep target source) "constructor" ≠ Some (JString "new").
Proof. by repeat split. Qed.

(** C4, amended: at every name of the source, [deepMerge] leaves the
    recursively merged object when target and source both hold a plain
    object there and the value of the source, as it is, in every other
    case; so does [mergeDeep] at every name but the three guarded ones,
    where it leaves the target as it was. *)
Theorem merge_recurses_or_replaces target source key sv :
  NoDup (Object_keys source) → get source key = Some sv →
  get (deepMerge target source) key
  = Some (match get target key, sv with
          | Some (JObject bv), JObject ov => JObject (deepMerge bv ov)
          | _, _ => sv
          end)
  ∧ (isPollutionKey key = false →
     get (mergeDeep target source) key
     = Some (match sv, get target key with
             | JObject so, Some (JObject tv) => JObject (mergeDeep tv so)
             | _, _ => sv
             end))
  ∧ (isPollutionKey key = true →
     get (mergeDeep target source) key = get target key).
Proof.
  intros Hnd Hget. split_and!.
  - rewrite deepMerge_mergeBy, (get_mergeBy_source _ _ _ _ sv) by done.
    f_equal. unfold merged.
    destruct sv, (get target key) as [[]|]; try done.
    by rewrite deepMerge_mergeBy.
  - intros Hkey.
    rewrite mergeDeep_mergeBy, (get_mergeBy_source _ _ _ _ sv) by done.
    f_equal. unfold merged.
    destruct sv, (get target key) as [[]|]; try done.
    by rewrite mergeDeep_mergeBy.
  - intros Hkey. by apply mergeDeep_skips_pollution_keys.
Qed.

Lemma merge_recurses_or_replaces_witness :
  let target := [("editor", JObject [("fontSize", JNumber "12");
                                     ("tabSize", JNumber "2")]);
                 ("files", JArray [JString "a"])] in
  let source := [("editor", JObject [("fontSize", JNumber "14")]);
                 ("files", JArray [JString "b"])] in
  get (deepMerge target source) "editor"
  = Some (JObject [("fontSize", JNumber "14"); ("tabSize", JNumber "2")])
  ∧ get (mergeDeep target source) "files" = Some (JArray [JString "b"]).
Proof.
  intros target source.
  destruct (merge_recurses_or_replaces target source "editor"
              (JObject [("fontSize", JNumber "14")])) as (He & _);
    [compute_done|reflexivity|].
  destruct (merge_recurses_or_replaces target source "files"
              (JArray [JString "b"])) as (_ & Hf & _);
    [compute_done|reflexivity|].
  split; [exact He|exact (Hf eq_refl)].
Defined.
End merge_claims.


(** ** Version synchronisation *)

Section sync_facts.
Import JS UpdatePackage.
Implicit Types (t s : Obj string) (dep : string).

Lemma syncVersions_fold s ks : ∀ t0 u0,
  (∀ d, d ∈ ks → d ∈ Object_keys t0) →
  let r := foldl (syncVersions_step s) (t0, u0) ks in
  Object_keys r.1 = Object_keys t0
  ∧ (∀ d, get r.1 d
          = match get s d with
            | Some new => if truthy new && bool_decide (d ∈ ks) then Some new
                          else get t0 d
            | None => get t0 d
            end)
  ∧ r.2 = u0 || existsb (differs t0 s) ks.
Proof.
  induction ks as [|d0 ks IH]; intros t0 u0 Hks; simpl.
  { split_and!; [done| |by rewrite orb_false_r].
    intros d. destruct (get s d); [|done].
    by rewrite andb_false_r. }
  assert (Hd0 : d0 ∈ Object_keys t0) by (apply Hks; left).
  unfold differs at 1. destruct (get s d0) as [new|] eqn:Hs; simpl.
  - destruct (truthy new && negb (bool_decide (get t0 d0 = Some new))) eqn:Hc.
    + apply andb_true_iff in Hc as [Htr Hne].
      destruct (IH (set t0 d0 new) true) as (Hk & Hg & Hu).
      { intros d Hd. rewrite keys_set_present by done. apply Hks. by right. }
      split_and!.
      * by rewrite Hk, keys_set_present.
      * intros d. rewrite Hg. destruct (get s d) as [n|] eqn:Hsd.
        -- destruct (decide (d = d0)) as [->|Hdd].
           ++ replace n with new by congruence.
              rewrite Htr, !andb_true_l, get_set_eq.
              rewrite (bool_decide_eq_true_2 (d0 ∈ d0 :: ks))
                by (apply elem_of_cons; by left).
              by destruct (bool_decide (d0 ∈ ks)).
           ++ rewrite get_set_ne by done.
              rewrite (bool_decide_ext (d ∈ d0 :: ks) (d ∈ ks)); [done|].
              rewrite elem_of_cons. naive_solver.
        -- destruct (decide (d = d0)) as [->|Hdd]; [congruence|].
           by rewrite get_set_ne.
      * rewrite Hu. by rewrite orb_true_r.
    + destruct (IH t0 u0) as (Hk & Hg & Hu).
      { intros d Hd. apply Hks. by right. }
      split_and!; [done| |done].
      intros d. rewrite Hg. destruct (get s d) as [n|] eqn:Hsd; [|done].
      destruct (decide (d = d0)) as [->|Hdd].
      * replace n with new by congruence.
        rewrite (bool_decide_eq_true_2 (d0 ∈ d0 :: ks))
          by (apply elem_of_cons; by left).
        destruct (truthy new); [|done]. rewrite !andb_true_l in *.
        apply negb_false_iff, bool_decide_eq_true_1 in Hc. rewrite Hc.
        by destruct (bool_decide (d0 ∈ ks)).
      * rewrite (bool_decide_ext (d ∈ d0 :: ks) (d ∈ ks)); [done|].
        rewrite elem_of_cons. naive_solver.
  - destruct (IH t0 u0) as (Hk & Hg & Hu).
    { intros d Hd. apply Hks. by right. }
    split_and!; [done| |done].
    intros d. rewrite Hg. destruct (get s d) as [n|] eqn:Hsd; [|done].
    destruct (decide (d = d0)) as [->|Hdd]; [congruence|].
    rewrite (bool_decide_ext (d ∈ d0 :: ks) (d ∈ ks)); [done|].
    rewrite elem_of_cons. naive_solver.
Qed.

(** The inner loop as a whole: the names stay, an entry is rewritten exactly
    when the source has a non-empty version for it, and the flag is raised
    exactly when an entry differed. *)
Lemma syncVersions_spec t s updated :
  Object_keys (syncVersions t s updated).1 = Object_keys t
  ∧ (∀ d, get (syncVersions t s updated).1 d
          = match get t d, get s d with
            | Some old, Some new => if truthy new then Some new else Some old
            | old, _ => old
            end)
  ∧ (syncVersions t s updated).2
    = updated || existsb (differs t s) (Object_keys t).
Proof.
  destruct (syncVersions_fold s (Object_keys t) t updated) as (Hk & Hg & Hu).
  { done. }
  split_and!; [done| |done].
  intros d. unfold syncVersions. rewrite Hg.
  destruct (get t d) as [old|] eqn:Ht.
  - assert (d ∈ Object_keys t) by (apply get_is_Some; eauto).
    destruct (get s d) as [new|]; [|done].
    rewrite bool_decide_eq_true_2, andb_true_r by done.
    by destruct (truthy new).
  - apply get_None in Ht. destruct (get s d); [|done].
    by rewrite bool_decide_eq_false_2, andb_false_r by done.
Qed.

Lemma syncVersions_unchanged s ks : ∀ t u,
  existsb (differs t s) ks = false →
  foldl (syncVersions_step s) (t, u) ks = (t, u).
Proof.
  induction ks as [|d ks IH]; intros t u Hex; [done|].
  simpl in Hex. apply orb_false_iff in Hex as [Hd Hex]. simpl.
  unfold differs in Hd. destruct (get s d) as [new|]; [|by apply IH].
  rewrite Hd. by apply IH.
Qed.

Lemma replaceVersions_unfold target source :
  replaceVersions target source
  = (mkPackageJson
       match pkg_dependencies target, pkg_dependencies source with
       | Some t, Some s => Some (syncVersions t s false).1
       | ot, _ => ot
       end
       match pkg_devDependencies target, pkg_devDependencies source with
       | Some t, Some s =>
           Some (syncVersions t s (changedIn target source dependencies)).1
       | ot, _ => ot
       end
       (pkg_scripts target) (pkg_wireit target),
     changedIn target source dependencies
     || changedIn target source devDependencies).
Proof.
  destruct target as [td tv tsc tw], source as [sd sv ssc sw].
  unfold replaceVersions, changedIn. simpl.
  destruct td as [td|], sd as [sd|], tv as [tv|], sv as [sv|]; simpl;
    repeat (simpl;
            match goal with
            | |- context [syncVersions ?t ?s ?u] =>
                let H := fresh in
                pose proof (syncVersions_spec t s u) as (_ & _ & H);
                destruct (syncVersions t s u) as [? ?]; simpl in H; subst
            end);
    simpl; by rewrite ?orb_false_r.
Qed.

Lemma getSection_replaceVersions target source section :
  ∃ u,
    getSection (replaceVersions target source).1 section
    = match getSection target section, getSection source section with
      | Some t, Some s => Some (syncVersions t s u).1
      | ot, _ => ot
      end.
Proof.
  rewrite replaceVersions_unfold.
  destruct section; simpl; by eexists.
Qed.

Lemma changedIn_true target source section :
  changedIn target source section = true ↔
  ∃ t s dep old new,
    getSection target section = Some t ∧ getSection source section = Some s
    ∧ get t dep = Some old ∧ get s dep = Some new ∧ old ≠ new ∧ new ≠ "".
Proof.
  unfold changedIn. split.
  - destruct (getSection target section) as [t|]; [|done].
    destruct (getSection source section) as [s|]; [|done].
    intros (dep & Hin & Hd)%existsb_exists.
    apply list_elem_of_In, get_is_Some in Hin as [old Hold].
    unfold differs in Hd. destruct (get s dep) as [new|] eqn:Hnew; [|done].
    apply andb_true_iff in Hd as [Htr Hne].
    exists t, s, dep, old, new. split_and!; try done.
    + apply negb_true_iff, bool_decide_eq_false_1 in Hne. congruence.
    + unfold truthy in Htr. by apply negb_true_iff, String.eqb_neq in Htr.
  - intros (t & s & dep & old & new & -> & -> & Hold & Hnew & Hne & Hnon).
    apply existsb_exists. exists dep. split.
    + apply list_elem_of_In, get_is_Some. eauto.
    + unfold differs, truthy. rewrite Hnew, Hold.
      apply andb_true_iff. split.
      * by apply negb_true_iff, String.eqb_neq.
      * apply negb_true_iff, bool_decide_eq_false_2. congruence.
Qed.
(** A name of both maps for which the source has a non-empty version: the
    target holds the version of the source afterwards. *)
Lemma replaceVersions_source_version target source section t s dep new :
  getSection target section = Some t → getSection source section = Some s →
  dep ∈ Object_keys t → get s dep = Some new → new ≠ "" →
  ∃ t', getSection (replaceVersions target source).1 section = Some t'
        ∧ get t' dep = Some new
        ∧ Object_keys t' = Object_keys t.
Proof.
  intros Ht Hs [old Hold]%get_is_Some Hnew Hnon.
  destruct (getSection_replaceVersions target source section) as [u Hsec].
  rewrite Ht, Hs in Hsec.
  destruct (syncVersions_spec t s u) as (Hk & Hg & _).
  eexists. split_and!; [done| |done].
  rewrite Hg, Hold, Hnew. unfold truthy.
  by apply String.eqb_neq in Hnon as ->.
Qed.

End sync_facts.

Section sync_claims.
Import JS UpdatePackage.

(** C2, as stated, fails when the version of the source is the empty string:
    the name is in both maps and the versions differ, yet [newVersion &&]
    is false, the target keeps its version and the flag stays down. *)
Lemma replaceVersions_keeps_on_empty_version :
  let t := [("lib-a", "1.0.0")] in
  let s := [("lib-a", "")] in
  let target := mkPackageJson (Some t) None None None in
  let source := mkPackageJson (Some s) None None None in
  get t "lib-a" = Some "1.0.0" ∧ get s "lib-a" = Some "" ∧ "1.0.0" ≠ ""
  ∧ replaceVersions target source = (target, false).
Proof. by repeat split. Qed.

(** C2, amended: for a name of the target map for which the source map has a
    different and non-empty version, [replaceVersions] leaves the version of
    the source in the target and returns [true]. *)
Theorem replaceVersions_overwrites target source section t s dep old new :
  getSection target section = Some t → getSection source section = Some s →
  get t dep = Some old → get s dep = Some new → old ≠ new → new ≠ "" →
  ∃ t', getSection (replaceVersions target source).1 section = Some t'
        ∧ get t' dep = Some new
        ∧ Object_keys t' = Object_keys t
        ∧ (replaceVersions target source).2 = true.
Proof.
  intros Ht Hs Hold Hnew Hne Hnon.
  destruct (replaceVersions_source_version target source section t s dep new)
    as (t' & Ht' & Hget & Hkeys); try done.
  { apply get_is_Some. eauto. }
  exists t'. split_and!; try done.
  rewrite replaceVersions_unfold. simpl.
  assert (changedIn target source section = true) as Hc.
  { apply changedIn_true. by exists t, s, dep, old, new. }
  destruct section; rewrite Hc; by rewrite ?orb_true_r.
Qed.

Lemma replaceVersions_overwrites_witness :
  let target := mkPackageJson (Some [("lib-a", "1.0.0"); ("lib-b", "2.0.0")])
                              None None None in
  let source := mkPackageJson (Some [("lib-a", "1.1.0"); ("lib-c", "9.9.9")])
                              None None None in
  ∃ t', getSection (replaceVersions target source).1 dependencies = Some t'
        ∧ get t' "lib-a" = Some "1.1.0"
        ∧ Object_keys t' = ["lib-a"; "lib-b"]
        ∧ (replaceVersions target source).2 = true.
Proof.
  intros target source.
  apply (replaceVersions_overwrites target source dependencies
           [("lib-a", "1.0.0"); ("lib-b", "2.0.0")]
           [("lib-a", "1.1.0"); ("lib-c", "9.9.9")] "lib-a" "1.0.0" "1.1.0");
    (reflexivity || discriminate).
Defined.

(** On the properties that the maps own ([replaceVersions_own] says when
    the call reads no other), [replaceVersions] keeps the names of each
    section of the target as they are, in number and in order; an entry that changes has its name in
    both maps, with versions that differ, and takes the version of the
    source; the flag is [false] when the target is left as it was, which is
    the case when no name of both maps has versions that differ. *)
Theorem replaceVersions_frame target source :
  let r := replaceVersions target source in
  (∀ section,
     Object_keys <$> getSection r.1 section
     = Object_keys <$> getSection target section)
  ∧ (∀ section t t' dep,
       getSection target section = Some t →
       getSection r.1 section = Some t' →
       get t' dep ≠ get t dep →
       ∃ s old new,
         getSection source section = Some s ∧ get t dep = Some old
         ∧ get s dep = Some new ∧ old ≠ new ∧ get t' dep = Some new)
  ∧ (r.1 = target → r.2 = false)
  ∧ ((∀ section t s dep old new,
        getSection target section = Some t →
        getSection source section = Some s →
        get t dep = Some old → get s dep = Some new → old = new) →
     r.1 = target ∧ r.2 = false).
Proof.
  intros r. subst r. split_and!.
  - intros section.
    destruct (getSection_replaceVersions target source section) as [u ->].
    destruct (getSection target section) as [t|]; [|done].
    destruct (getSection source section) as [s|]; [|done].
    simpl. f_equal. apply syncVersions_spec.
  - intros section t t' dep Ht Ht' Hch.
    destruct (getSection_replaceVersions target source section) as [u Hsec].
    rewrite Ht, Ht' in Hsec.
    destruct (getSection source section) as [s|]; [|congruence].
    injection Hsec as ->.
    destruct (syncVersions_spec t s u) as (_ & Hg & _).
    rewrite Hg in Hch.
    destruct (get t dep) as [old|] eqn:Hold; [|done].
    destruct (get s dep) as [new|] eqn:Hnew; [|done].
    destruct (truthy new) eqn:Htr; [|done].
    exists s, old, new. split_and!; try done; [congruence|].
    by rewrite Hg, Hold, Hnew, Htr.
  - intros Hsame. destruct (replaceVersions target source).2 eqn:Hflag; [|done].
    exfalso. rewrite replaceVersions_unfold in Hflag. simpl in Hflag.
    apply orb_true_iff in Hflag.
    assert (∃ section, changedIn target source section = true)
      as [section (t & s & dep & old & new & Ht & Hs & Hold & Hnew & Hne & Hnon)
            %changedIn_true] by (destruct Hflag; eauto).
    destruct (replaceVersions_source_version target source section t s dep new)
      as (t' & Ht' & Hg & _); try done.
    { apply get_is_Some. eauto. }
    rewrite Hsame in Ht'. congruence.
  - intros Hnone.
    assert (∀ section, changedIn target source section = false) as Hno.
    { intros section. apply not_true_is_false.
      intros (t & s & dep & old & new & Ht & Hs & Hold & Hnew & Hne & _)
        %changedIn_true.
      apply Hne. eauto. }
    rewrite replaceVersions_unfold. simpl. rewrite !Hno. split; [|done].
    pose proof (Hno dependencies) as Hd. pose proof (Hno devDependencies) as Hv.
    unfold changedIn in Hd, Hv. simpl in Hd, Hv.
    destruct target as [td tv tsc tw], source as [sd sv ssc sw]. simpl in *.
    f_equal.
    + destruct td as [t|], sd as [s|]; try done.
      unfold syncVersions. by rewrite syncVersions_unchanged.
    + destruct tv as [t|], sv as [s|]; try done.
      unfold syncVersions. by rewrite syncVersions_unchanged.
Qed.
End sync_claims.


(** ** Projection of the manifest *)

Section filter_facts.
Import JS GeneratePackage.

Lemma firsts_elem l x : x ∈ firsts l ↔ x ∈ l.
Proof.
  induction l as [|y l IH]; [done|]. simpl.
  rewrite !elem_of_cons, list_elem_of_filter, IH.
  destruct (decide (x = y)); naive_solver.
Qed.

Lemma firsts_NoDup l : NoDup (firsts l).
Proof.
  induction l as [|y l IH]; simpl; [constructor|].
  apply NoDup_cons. split; [|by apply NoDup_filter].
  rewrite list_elem_of_filter. naive_solver.
Qed.

Lemma filter_all {A} (P : A → Prop) `{!∀ x, Decision (P x)} (l : list A) :
  Forall P l → filter P l = l.
Proof.
  induction 1 as [|x l Hx _ IH]; [done|]. by rewrite filter_cons_True, IH.
Qed.

Lemma firsts_id l : NoDup l → firsts l = l.
Proof.
  induction 1 as [|x l Hx Hnd IH]; [done|]. simpl. rewrite IH. f_equal.
  apply filter_all, Forall_forall. by intros y Hy ->.
Qed.

Lemma filterPackageJson_fold (pkg : JsonObject) keys : ∀ acc : JsonObject,
  let r := foldl (λ filtered key,
                    match get pkg key with
                    | Some v => set filtered key v
                    | None => filtered
                    end) acc keys in
  Object_keys r
  = (Object_keys acc
     ++ filter (λ k, k ∉ Object_keys acc)
          (firsts (filter (λ k, k ∈ Object_keys pkg) keys)))%list
  ∧ (∀ k, get r k = if bool_decide (k ∈ keys ∧ k ∈ Object_keys pkg)
                    then get pkg k else get acc k).
Proof.
  induction keys as [|key keys IH]; intros acc.
  { simpl. split; [by rewrite app_nil_r|done]. }
  cbn [foldl]. destruct (get pkg key) as [v|] eqn:Hpkg.
  - assert (key ∈ Object_keys pkg) as Hin by (apply get_is_Some; eauto).
    destruct (IH (set acc key v)) as [Hk Hg]. split.
    + rewrite Hk, filter_cons_True by done. simpl.
      destruct (decide (key ∈ Object_keys acc)) as [Hacc|Hacc].
      * rewrite keys_set_present, filter_cons_False by naive_solver.
        f_equal. rewrite list_filter_filter. apply list_filter_iff.
        naive_solver.
      * rewrite keys_set_absent, filter_cons_True by done.
        rewrite <-app_assoc. simpl. do 2 f_equal.
        rewrite list_filter_filter. apply list_filter_iff.
        intros x. rewrite not_elem_of_app, list_elem_of_singleton. naive_solver.
    + intros k. rewrite Hg, get_set.
      destruct (decide (k = key)) as [->|Hne].
      * rewrite (bool_decide_eq_true_2 (key = key)) by done.
        rewrite (bool_decide_eq_true_2 (key ∈ key :: keys ∧ _))
          by (split; [apply elem_of_cons; by left|done]).
        rewrite Hpkg. by destruct (bool_decide (key ∈ keys ∧ _)).
      * rewrite (bool_decide_eq_false_2 (key = k)) by done.
        rewrite (bool_decide_ext (k ∈ key :: keys ∧ k ∈ Object_keys pkg)
                   (k ∈ keys ∧ k ∈ Object_keys pkg)); [done|].
        rewrite elem_of_cons. naive_solver.
  - apply get_None in Hpkg.
    destruct (IH acc) as [Hk Hg]. split.
    + by rewrite Hk, filter_cons_False by done.
    + intros k. rewrite Hg.
      destruct (decide (k = key)) as [->|Hne].
      * rewrite !bool_decide_eq_false_2; naive_solver.
      * rewrite (bool_decide_ext (k ∈ key :: keys ∧ k ∈ Object_keys pkg)
                   (k ∈ keys ∧ k ∈ Object_keys pkg)); [done|].
        rewrite elem_of_cons. naive_solver.
Qed.
End filter_facts.

Section filter_claims.
Import JS GeneratePackage.

(** The projection of the properties that the source owns: the names of the
    projection are the names of the key list that the source has, in the
    order of the key list (each at its first place there;
    for a key list without repetition this is the key list restricted to the
    names of the source); a name the source lacks is absent and not null, and
    a name that is kept holds the value of the source. *)
Theorem filterPackageJson_projection (pkg : JsonObject) (keys : list string) :
  let filtered := filterPackageJson pkg keys in
  Object_keys filtered
  = firsts (filter (λ k, k ∈ Object_keys pkg) keys)
  ∧ (NoDup keys →
     Object_keys filtered = filter (λ k, k ∈ Object_keys pkg) keys)
  ∧ (∀ k, k ∈ Object_keys filtered ↔ k ∈ keys ∧ k ∈ Object_keys pkg)
  ∧ (∀ k, k ∈ keys → get filtered k = get pkg k)
  ∧ (∀ k, k ∉ Object_keys pkg → get filtered k = None)
  ∧ NoDup (Object_keys filtered).
Proof.
  intros filtered. subst filtered. unfold filterPackageJson.
  destruct (filterPackageJson_fold pkg keys []) as [Hk Hg]. simpl in Hk, Hg.
  rewrite filter_all in Hk
    by (apply Forall_forall; intros x _; apply not_elem_of_nil).
  rename Hk into Hkeys. split_and!.
  - done.
  - intros Hnd. rewrite Hkeys. by apply firsts_id, NoDup_filter.
  - intros k. rewrite Hkeys, firsts_elem, list_elem_of_filter. tauto.
  - intros k Hin. rewrite Hg. case_bool_decide as Hc; [done|].
    symmetry. apply get_None. naive_solver.
  - intros k Hin. rewrite Hg. case_bool_decide as Hc; [naive_solver|done].
  - rewrite Hkeys. apply firsts_NoDup.
Qed.

(** The package assembly of the specification: the projection drops
    [scripts] and [notes], the fragment overrides [version] and adds
    [license]. *)
Example assemble_scenario :
  assemble [("name", JString "x"); ("version", JString "1.0.0");
            ("notes", JString "tmp"); ("scripts", JObject [("a", JString "1")])]
           ["name"; "version"]
           [[("version", JString "2.0.0"); ("license", JString "MIT")]]
  = [("name", JString "x"); ("version", JString "2.0.0");
     ("license", JString "MIT")].
Proof. reflexivity. Qed.
End filter_claims.


(** ** Duplicate names across files *)

Section duplicate_facts.
Import JS UpdatePackage.
Context {T : Type}.
Implicit Types (entries : list (string * Obj T)) (seen : Obj (list string)).

Lemma get_noteKey file seen key k :
  get (noteKey file seen key) k
  = if bool_decide (key = k)
    then Some (default [] (get seen key) ++ [file])%list
    else get seen k.
Proof.
  unfold noteKey. rewrite get_set. case_bool_decide as Hk; subst.
  - do 2 f_equal. destruct (get seen k) eqn:Hs; [by rewrite Hs|].
    by rewrite get_set_eq.
  - destruct (get seen key); [done|]. by rewrite get_set_ne.
Qed.

Lemma NoDup_noteKey file seen key :
  NoDup (Object_keys seen) → NoDup (Object_keys (noteKey file seen key)).
Proof.
  intros Hnd. unfold noteKey. apply NoDup_keys_set.
  destruct (get seen key); [done|]. by apply NoDup_keys_set.
Qed.

(** One file: every name of its map gets the file appended, once. *)
Lemma get_noteKeys file ks : ∀ seen k,
  NoDup ks →
  get (foldl (noteKey file) seen ks) k
  = if bool_decide (k ∈ ks)
    then Some (default [] (get seen k) ++ [file])%list
    else get seen k.
Proof.
  induction ks as [|key ks IH]; intros seen k Hnd; [done|].
  apply NoDup_cons in Hnd as [Hkey Hnd]. cbn [foldl].
  rewrite IH, get_noteKey by done.
  destruct (decide (key = k)) as [->|Hne].
  - rewrite (bool_decide_eq_true_2 (k = k)) by done.
    rewrite (bool_decide_eq_false_2 (k ∈ ks)) by done.
    by rewrite (bool_decide_eq_true_2 (k ∈ k :: ks))
      by (apply elem_of_cons; by left).
  - rewrite (bool_decide_eq_false_2 (key = k)) by done.
    rewrite (bool_decide_ext (k ∈ key :: ks) (k ∈ ks)); [done|].
    rewrite elem_of_cons. naive_solver.
Qed.

Lemma NoDup_noteKeys file ks : ∀ seen,
  NoDup (Object_keys seen) →
  NoDup (Object_keys (foldl (noteKey file) seen ks)).
Proof.
  induction ks as [|key ks IH]; intros seen Hnd; [done|].
  cbn [foldl]. by apply IH, NoDup_noteKey.
Qed.

Lemma get_seenFrom entries : ∀ seen k,
  Forall (λ e, NoDup (Object_keys e.2)) entries →
  get (seenFrom seen entries) k
  = match get seen k, origins entries k with
    | None, [] => None
    | o, os => Some (default [] o ++ os)%list
    end.
Proof.
  induction entries as [|[file map] entries IH]; intros seen k Hwf.
  { simpl. destruct (get seen k); [|done]. by rewrite app_nil_r. }
  apply Forall_cons in Hwf as [Hmap Hwf]. simpl in Hmap.
  unfold seenFrom in *. cbn [foldl]. rewrite IH, get_noteKeys by done.
  unfold origins. destruct (decide (k ∈ Object_keys map)) as [Hin|Hin].
  - rewrite bool_decide_eq_true_2, filter_cons_True by done. csimpl.
    rewrite <-app_assoc. simpl.
    by destruct (get seen k).
  - rewrite bool_decide_eq_false_2, filter_cons_False by done. done.
Qed.

Lemma NoDup_seenFrom entries : ∀ seen,
  NoDup (Object_keys seen) → NoDup (Object_keys (seenFrom seen entries)).
Proof.
  induction entries as [|[file map] entries IH]; intros seen Hnd; [done|].
  unfold seenFrom in *. cbn [foldl]. by apply IH, NoDup_noteKeys.
Qed.

Lemma get_seenIn entries k :
  Forall (λ e, NoDup (Object_keys e.2)) entries →
  get (seenIn entries) k
  = match origins entries k with [] => None | os => Some os end.
Proof.
  intros Hwf. unfold seenIn.
  rewrite get_seenFrom by done. simpl. by destruct (origins entries k).
Qed.
End duplicate_facts.

Section duplicate_claims.
Import JS UpdatePackage.
Context {T : Type}.

(** With a table that owns what is read from it ([findDuplicateKeys_own]
    says when this is so), the report of [findDuplicateKeys] has an item for
    a name exactly when at least two of the maps have that name, one item only, and the item
    lists the files of the maps that have the name, in the order of the
    entries; a name that no map or one map has gets no item. *)
Theorem findDuplicateKeys_report (entries : list (string * Obj T)) :
  Forall (λ e, NoDup (Object_keys e.2)) entries →
  let report := findDuplicateKeys entries in
  NoDup (name <$> report)
  ∧ (∀ d, d ∈ report ↔
          files d = origins entries (name d) ∧ (2 ≤ length (files d))%nat)
  ∧ (∀ key, (2 ≤ length (origins entries key))%nat →
            mkDuplicate key (origins entries key) ∈ report)
  ∧ (∀ key, length (origins entries key) < 2 → key ∉ name <$> report).
Proof.
  intros Hwf report.
  assert (NoDup (Object_keys (seenIn entries))) as Hnd.
  { apply NoDup_seenFrom. constructor. }
  assert (∀ d, d ∈ report ↔
               files d = origins entries (name d) ∧ (2 ≤ length (files d))%nat)
    as Hrep.
  { intros [k fs]. subst report. unfold findDuplicateKeys, Object_entries.
    rewrite list_elem_of_fmap. simpl. split.
    - intros ([k' fs'] & [= <- <-] & [Hlen Hin]%list_elem_of_filter).
      apply get_elem_NoDup in Hin; [|done].
      rewrite get_seenIn in Hin by done.
      destruct (origins entries k); [done|]. injection Hin as <-.
      split; [done|lia].
    - intros [-> Hlen]. exists (k, origins entries k). split; [done|].
      apply list_elem_of_filter. split; [lia|].
      apply get_Some_elem. rewrite get_seenIn by done.
      destruct (origins entries k); [simpl in Hlen; lia|done]. }
  split_and!.
  - subst report. unfold findDuplicateKeys, Object_entries.
    rewrite <-list_fmap_compose.
    apply (sublist_NoDup _ _ Hnd). unfold Object_keys.
    erewrite (list_fmap_ext _ fst); [|by intros ? []].
    apply fmap_sublist, sublist_filter.
  - done.
  - intros key Hlen. by apply Hrep.
  - intros key Hlen ([k fs] & -> & [Hfs Hlen']%Hrep)%list_elem_of_fmap.
    simpl in *. subst fs. lia.
Qed.

End duplicate_claims.

Section duplicate_witness.
Import JS UpdatePackage.

Lemma findDuplicateKeys_report_witness :
  let entries := [("one.jsonc", [("build", 1); ("lint", 2)]);
                  ("two.jsonc", [("test", 3)]);
                  ("three.jsonc", [("lint", 4); ("build", 5)])] in
  Forall (λ e, NoDup (Object_keys e.2)) entries
  ∧ mkDuplicate "build" ["one.jsonc"; "three.jsonc"]
      ∈ findDuplicateKeys entries
  ∧ "test" ∉ name <$> findDuplicateKeys entries.
Proof.
  intros entries.
  assert (Forall (λ e, NoDup (Object_keys e.2)) entries) as Hwf.
  { repeat constructor; compute_done. }
  destruct (findDuplicateKeys_report entries Hwf) as (_ & _ & Hdup & Hnone).
  split_and!; [exact Hwf| |].
  - apply (Hdup "build"). vm_compute. lia.
  - apply (Hnone "test"). vm_compute. lia.
Defined.
End duplicate_witness.

(** ** The check mode of merge-vscode-config *)

Section check_claims.
Import JS MergeVscodeConfig Samples.

(** C5: in check mode, once the base file and the local file (when there is
    one) are read, the run compares the text of the output file with the
    text it would write, character for character: it fails with a
    [CHECK FAILED] error of exit code 1 when there is no output file and
    when the text of the file is any other text, it returns normally when
    the two texts are the same, and it writes nothing. *)
Theorem check_mode_exact_text (parseJsonc : string → string + option Json)
    (options : CliOptions) (fs : gmap string string)
    (baseJson localJson : JsonObject) :
  help options = false → check options = true →
  is_Some (fs !! base options) →
  readJsoncObject parseJsonc fs (base options) = inr baseJson →
  match fs !! local options with
  | Some _ => readJsoncObject parseJsonc fs (local options)
  | None => inr []
  end = inr localJson →
  let formatted :=
    JSON.stringify (JObject (deepMerge baseJson localJson)) None +:+ JSON.nl in
  let r := runMergeVscodeConfig parseJsonc options fs in
  files r = fs ∧ stdout r = []
  ∧ (fs !! out options = None →
     checkFailed r = true
     ∧ thrown r
       = Some (mkNannyError
                 ("CHECK FAILED: Output file does not exist: " +:+ out options)
                 1))
  ∧ (∀ current, fs !! out options = Some current → current ≠ formatted →
     checkFailed r = true
     ∧ thrown r
       = Some (mkNannyError
                 ("CHECK FAILED: " +:+ out options
                  +:+ " is out of date. Run nanny merge-vscode-config.") 1))
  ∧ (fs !! out options = Some formatted → thrown r = None).
Proof.
  intros Hhelp Hcheck [raw Hbase] HbaseJson HlocalJson formatted r.
  subst r. unfold runMergeVscodeConfig.
  rewrite Hhelp, Hbase, HbaseJson, HlocalJson, Hcheck. fold formatted.
  destruct (fs !! out options) as [current|] eqn:Hout.
  - destruct (String.eqb_spec current formatted) as [->|Hne]; simpl.
    + split_and!; [done..| |done]. by intros current [= <-] ?.
    + split_and!; [done..| |].
      * intros ? [= <-] _. by split.
      * by intros [= ->].
  - simpl. split_and!; [done..| |done| done]. intros _. by split.
Qed.

Lemma check_mode_exact_text_witness :
  let options := mkCliOptions "settings.base.jsonc" "settings.local.jsonc"
                   "settings.json" false false true false in
  let fs : gmap string string :=
    {[ "settings.base.jsonc" := "{}"; "settings.json" := "{}" ]} in
  checkFailed (runMergeVscodeConfig toyParser options fs) = true
  ∧ JSON.stringify (JObject []) None = "{}".
Proof.
  intros options fs.
  pose proof (check_mode_exact_text toyParser options fs [] []) as H.
  destruct H as (_ & _ & _ & Hdiff & _);
    [reflexivity|reflexivity|by eexists|reflexivity|reflexivity|].
  split; [|reflexivity].
  apply (Hdiff "{}"); [reflexivity|discriminate].
Defined.
End check_claims.

(** ** The merges on the store *)

Section heap_facts.
Import JS Heap.
Implicit Types (h : heap) (l : loc) (v : value) (j : Json).

Lemma bind_Some {A B} (m : M A) (k : A → M B) h b h' :
  bind m k h = Some (b, h') ↔
  ∃ a h1, m h = Some (a, h1) ∧ k a h1 = Some (b, h').
Proof.
  unfold bind. destruct (m h) as [[a h1]|]; split.
  - intros ?. by exists a, h1.
  - by intros (? & ? & [= -> ->] & ?).
  - done.
  - by intros (? & ? & ? & ?).
Qed.

Lemma readObject_Some l h ps h' :
  readObject l h = Some (ps, h') ↔ h !! l = Some (CObject ps) ∧ h' = h.
Proof.
  unfold readObject. destruct (h !! l) as [[]|]; naive_solver.
Qed.

Lemma getProp_Some l k h v h' :
  getProp l k h = Some (v, h') ↔
  ∃ ps, h !! l = Some (CObject ps) ∧ v = default VUndefined (get ps k) ∧ h' = h.
Proof.
  unfold getProp. rewrite bind_Some. split.
  - intros (ps & h1 & [? ->]%readObject_Some & [= <- <-]). eauto.
  - intros (ps & ? & -> & ->). exists ps, h. by rewrite readObject_Some.
Qed.

Lemma setProp_Some l k v h u h' :
  setProp l k v h = Some (u, h') ↔
  ∃ ps, h !! l = Some (CObject ps) ∧ h' = <[l := CObject (set ps k v)]> h.
Proof.
  unfold setProp. destruct (h !! l) as [[]|]; destruct u; naive_solver.
Qed.

Lemma isPlainObject_heap v h b h' :
  isPlainObject v h = Some (b, h') → h' = h.
Proof.
  unfold isPlainObject. destruct v; try (by intros [= _ <-]).
  destruct (h !! l) as [[]|]; by intros [=].
Qed.

(** A property of the store that every turn of a loop keeps holds after the
    loop. *)
Lemma forEach_invariant {A} (P : heap → Prop) (xs : list A) body :
  (∀ x h1 h2, x ∈ xs → P h1 → body x h1 = Some (tt, h2) → P h2) →
  ∀ h h', P h → forEach xs body h = Some (tt, h') → P h'.
Proof.
  induction xs as [|x xs IH]; intros Hbody h h' HP; simpl.
  { by intros [= <-]. }
  intros (u & h1 & Hx & Hrest)%bind_Some. destruct u.
  eapply IH; [|eapply Hbody; [by left|exact HP|exact Hx]|exact Hrest].
  intros y h2 h3 Hy. apply Hbody. by right.
Qed.

(** [deepMerge] returns a location that was free and leaves every cell of
    the store it started from as it was. *)
Lemma deepMerge_frame fuel : ∀ b o h out h',
  deepMerge fuel b o h = Some (out, h') →
  h !! out = None ∧ h ⊆ h' ∧ ∃ ps, h' !! out = Some (CObject ps).
Proof.
  induction fuel as [|fuel IH]; intros b o h out h'; [done|]. simpl.
  intros (bprops & h0 & [Hb ->]%readObject_Some & Hrun)%bind_Some.
  apply bind_Some in Hrun as (out' & h1 & [= <- <-] & Hrun).
  apply bind_Some in Hrun as (entries & h2 & [Ho ->]%readObject_Some & Hrun).
  apply bind_Some in Hrun as ([] & h3 & Hloop & [= <- <-]).
  set (out := fresh (dom h)) in *.
  assert (h !! out = None) as Hfresh by apply not_elem_of_dom, is_fresh.
  split; [done|].
  revert Hloop.
  apply (forEach_invariant
           (λ hi, h ⊆ hi ∧ ∃ ps, hi !! out = Some (CObject ps))).
  - intros [k v] h1 h2 _ (Hsub & ps & Hps). unfold deepMerge_body.
    intros (bv & ? & (ps' & Hps' & -> & ->)%getProp_Some & Hrun)%bind_Some.
    apply bind_Some in Hrun as (c1 & ? & ->%isPlainObject_heap & Hrun).
    apply bind_Some in Hrun as (c2 & h1' & Hc2 & Hrun).
    assert (h1' = h1) as ->.
    { destruct c1; [by apply isPlainObject_heap in Hc2|by injection Hc2]. }
    assert (∀ w h2, setProp out k w h1 = Some (tt, h2) →
                    h ⊆ h2 ∧ ∃ ps, h2 !! out = Some (CObject ps)) as Hset.
    { intros w h4 (ps4 & Hps4 & ->)%setProp_Some. split.
      - by apply insert_subseteq_r.
      - rewrite lookup_insert_eq. eauto. }
    destruct c2; [|by apply Hset in Hrun].
    destruct (default VUndefined (get ps' k)); try (by apply Hset in Hrun).
    destruct v; try (by apply Hset in Hrun).
    apply bind_Some in Hrun as (r & h4 & Hrec & Hrun).
    apply IH in Hrec as (Hr & Hsub' & _).
    apply setProp_Some in Hrun as (ps4 & Hps4 & ->). split.
    + apply insert_subseteq_r; [done|]. by etrans.
    + rewrite lookup_insert_eq. eauto.
  - split; [by apply insert_subseteq|]. rewrite lookup_insert_eq. eauto.
Qed.

Lemma repr_mono h h' v j : h ⊆ h' → repr h v j → repr h' v j.
Proof.
  intros Hsub. revert v.
  induction j as [| | | |js IH|o IH] using Json_ind; intros v Hv;
    inversion Hv; subst; try constructor.
  - eapply repr_array; [by eapply lookup_weaken|].
    match goal with H : Forall2 _ _ js |- _ => revert H end.
    clear Hv. generalize vs. clear dependent vs.
    induction IH as [|x js' Hx _ IHjs]; intros vs' Hvs;
      inversion Hvs; subst; constructor; eauto.
  - eapply repr_object; [by eapply lookup_weaken|].
    match goal with H : Forall2 _ _ o |- _ => revert H end.
    clear Hv. generalize ps. clear dependent ps.
    induction IH as [|x o' Hx _ IHo]; intros ps' Hps;
      inversion Hps as [|? ? ? ? [? ?]]; subst; constructor; eauto.
Qed.

Lemma reprProps_mono h h' ps o : h ⊆ h' → reprProps h ps o → reprProps h' ps o.
Proof.
  intros Hsub Hps. eapply Forall2_impl; [exact Hps|]. intros p q [? ?].
  split; [done|]. by eapply repr_mono.
Qed.

Lemma repr_object_inv h l o :
  repr h (VRef l) (JObject o) →
  ∃ ps, h !! l = Some (CObject ps) ∧ reprProps h ps o.
Proof. inversion 1; subst. eauto. Qed.

Lemma get_reprProps h ps o k :
  reprProps h ps o →
  match get ps k, get o k with
  | Some v, Some j => repr h v j
  | None, None => True
  | _, _ => False
  end.
Proof.
  induction 1 as [|[k1 v] [k2 j] ps o [Hk Hv] _ IH]; simpl in *; [done|].
  subst k2. by destruct (String.eqb k1 k).
Qed.

Lemma set_reprProps h ps o k v j :
  reprProps h ps o → repr h v j → reprProps h (set ps k v) (set o k j).
Proof.
  intros Hps Hv.
  induction Hps as [|[k1 v1] [k2 j1] ps o [Hk Hv1] Hps IH]; simpl in *.
  { by repeat constructor. }
  subst k2. destruct (String.eqb k1 k); by constructor.
Qed.

Lemma isPlainObject_repr h v j :
  repr h v j → isPlainObject v h = Some (JS.isPlainObject (Some j), h).
Proof.
  inversion 1 as [| | | |? ? ? Hl|? ? ? Hl]; subst; simpl; try done;
    by rewrite Hl.
Qed.

Lemma repr_plain_inv h v o :
  repr h v (JObject o) → ∃ l, v = VRef l.
Proof. inversion 1; subst. eauto. Qed.

Lemma isPlainObject_get h1 hi outps acc k :
  reprProps h1 outps acc → h1 ⊆ hi →
  isPlainObject (default VUndefined (get outps k)) hi
  = Some (JS.isPlainObject (get acc k), hi).
Proof.
  intros Hacc Hsub. pose proof (get_reprProps h1 outps acc k Hacc) as Hget.
  destruct (get outps k) as [bv|], (get acc k) as [jbv|]; try done.
  simpl. apply isPlainObject_repr. by eapply repr_mono.
Qed.

Lemma depth_entry k j o : (k, j) ∈ o → depth j < depth (JObject o).
Proof.
  simpl. induction o as [|[k' j'] o IH]; [by intros ?%elem_of_nil|].
  intros [[= <- <-]|Hin]%elem_of_cons; simpl; [lia|].
  apply IH in Hin. lia.
Qed.

(** The two ways a turn of the loop of [deepMerge] goes. *)
Lemma deepMerge_body_assign rec out k v hi outps b1 b2 :
  hi !! out = Some (CObject outps) →
  isPlainObject (default VUndefined (get outps k)) hi = Some (b1, hi) →
  isPlainObject v hi = Some (b2, hi) →
  b1 && b2 = false →
  deepMerge_body rec out (k, v) hi
  = Some (tt, <[out := CObject (set outps k v)]> hi).
Proof.
  intros Hout H1 H2 Hb. unfold deepMerge_body, getProp, readObject, bind, ret.
  rewrite Hout. simpl. rewrite H1.
  assert (setProp out k v hi = Some ((), <[out:=CObject (set outps k v)]> hi))
    as Hset by (unfold setProp; by rewrite Hout).
  destruct b1; simpl in *.
  - rewrite H2. subst b2. by destruct (default VUndefined (get outps k)).
  - done.
Qed.

Lemma deepMerge_body_recurse rec out k hi outps lb lo :
  hi !! out = Some (CObject outps) →
  get outps k = Some (VRef lb) →
  isPlainObject (VRef lb) hi = Some (true, hi) →
  isPlainObject (VRef lo) hi = Some (true, hi) →
  deepMerge_body rec out (k, VRef lo) hi
  = bind (rec lb lo) (λ r, setProp out k (VRef r)) hi.
Proof.
  intros Hout Hget H1 H2.
  unfold deepMerge_body, getProp, readObject, bind at 1 2 3 4, ret.
  rewrite Hout. simpl. rewrite Hget. simpl in *. rewrite H1. simpl.
  by rewrite H2.
Qed.

Lemma deepMerge_cons_assign acc k jv rest :
  JS.isPlainObject (get acc k) && JS.isPlainObject (Some jv) = false →
  MergeVscodeConfig.deepMerge acc ((k, jv) :: rest)
  = MergeVscodeConfig.deepMerge (set acc k jv) rest.
Proof.
  intros Hb. unfold MergeVscodeConfig.deepMerge. rewrite deepMergeJ_cons.
  by destruct (get acc k) as [[]|], jv.
Qed.

Lemma deepMerge_cons_recurse acc k tb so rest :
  get acc k = Some (JObject tb) →
  MergeVscodeConfig.deepMerge acc ((k, JObject so) :: rest)
  = MergeVscodeConfig.deepMerge
      (set acc k (JObject (MergeVscodeConfig.deepMerge tb so))) rest.
Proof.
  intros Hget. unfold MergeVscodeConfig.deepMerge at 1.
  by rewrite deepMergeJ_cons, Hget.
Qed.

(** [deepMerge] on the store computes [deepMerge] on trees.  The arguments
    are trees of a part [h0] of the store; the result is a tree of a part
    [h1] of the final store that, of the cells there were, uses those of
    [h0] only. *)
Lemma deepMerge_refines (jo : Json) : ∀ ov, jo = JObject ov →
  ∀ fuel h0 h b o jb,
    depth jo ≤ fuel → h0 ⊆ h →
    repr h0 (VRef b) (JObject jb) → repr h0 (VRef o) (JObject ov) →
    ∃ out h' h1,
      deepMerge fuel b o h = Some (out, h')
      ∧ h0 ⊆ h1 ∧ h1 ⊆ h'
      ∧ (∀ l, l ∈ dom h1 → l ∈ dom h → l ∈ dom h0)
      ∧ repr h1 (VRef out) (JObject (MergeVscodeConfig.deepMerge jb ov)).
Proof.
  induction jo as [| | | | |ov' IH] using Json_ind; intros ov Heq; try done.
  injection Heq as <-. intros fuel h0 h b o jb Hfuel Hsub Hb Ho.
  destruct fuel as [|fuel]; [simpl in Hfuel; lia|].
  apply repr_object_inv in Hb as (bps & Hbl & Hbps).
  apply repr_object_inv in Ho as (ops & Hol & Hops).
  set (out := fresh (dom h)).
  assert (h !! out = None) as Hfresh by apply not_elem_of_dom, is_fresh.
  assert (∀ kv, kv ∈ ov' → depth kv.2 ≤ fuel) as Hdepth.
  { intros [k j] Hin. apply depth_entry in Hin. simpl in *. lia. }
  clear Hfuel.
  assert (∀ hi h1 outps acc,
            h ⊆ hi → h0 ⊆ h1 → h1 ⊆ hi → h1 !! out = None →
            hi !! out = Some (CObject outps) →
            (∀ l, l ∈ dom h1 → l ∈ dom h → l ∈ dom h0) →
            reprProps h1 outps acc →
            ∃ hf h1f outpsf,
              forEach ops (deepMerge_body (deepMerge fuel) out) hi
              = Some (tt, hf)
              ∧ h0 ⊆ h1f ∧ h1f ⊆ hf ∧ h1f !! out = None
              ∧ hf !! out = Some (CObject outpsf)
              ∧ (∀ l, l ∈ dom h1f → l ∈ dom h → l ∈ dom h0)
              ∧ reprProps h1f outpsf (MergeVscodeConfig.deepMerge acc ov'))
    as Hloop.
  { clear Hol Hbps Hbl. revert IH Hdepth.
    induction Hops as [|[k v] [k' jv] ops ov [Hk Hv] Hops IHloop];
      intros IH Hdepth hi h1 outps acc Hhi Hh01 Hh1i Hh1out Hout Hdom Hacc.
    { exists hi, h1, outps. by split_and!. }
    simpl in Hk, Hv. subst k'.
    apply Forall_cons in IH as [IHjv IH]. simpl in IHjv.
    assert (depth jv ≤ fuel) as Hdjv by (apply (Hdepth (k, jv)); by left).
    assert (∀ kv, kv ∈ ov → depth kv.2 ≤ fuel) as Hdepth'
      by (intros kv ?; apply Hdepth; by right).
    specialize (IHloop IH Hdepth'). clear IH Hdepth.
    pose proof (isPlainObject_get h1 hi outps acc k Hacc Hh1i) as Hb1.
    assert (repr hi v jv) as Hvi
      by (eapply repr_mono; [|exact Hv]; by etrans).
    pose proof (isPlainObject_repr hi v jv Hvi) as Hb2.
    cbn [forEach].
    destruct (JS.isPlainObject (get acc k) && JS.isPlainObject (Some jv))
      eqn:Hboth.
    - (* both are objects: the recursive call *)
      apply andb_true_iff in Hboth as [Hacck Hjv].
      destruct (get acc k) as [[| | | | |tb]|] eqn:Hga; try done.
      destruct jv as [| | | | |so]; try done.
      pose proof (get_reprProps h1 outps acc k Hacc) as Hget.
      rewrite Hga in Hget.
      destruct (get outps k) as [bv|] eqn:Hgo; [|done].
      destruct (repr_plain_inv _ _ _ Hget) as [lb ->].
      destruct (repr_plain_inv _ _ _ Hv) as [lo ->].
      simpl in Hb1, Hb2.
      destruct (IHjv so eq_refl fuel h1 hi lb lo tb)
        as (r & hj & h1j & Hrec & Hh11j & Hh1j & Hdomj & Hr);
        [done|done|done|by eapply repr_mono|].
      pose proof (deepMerge_frame _ _ _ _ _ _ Hrec) as (Hrfresh & Hhij & _).
      assert (h1j !! out = None) as Hh1jout.
      { apply not_elem_of_dom. intros Hin. apply Hdomj in Hin.
        - by apply not_elem_of_dom in Hh1out.
        - apply elem_of_dom. eauto. }
      destruct (IHloop (<[out := CObject (set outps k (VRef r))]> hj) h1j
                  (set outps k (VRef r))
                  (set acc k (JObject (MergeVscodeConfig.deepMerge tb so))))
        as (hf & h1f & outpsf & Hrun & ? & ? & ? & ? & ? & ?).
      + apply insert_subseteq_r; [done|]. by etrans.
      + by etrans.
      + by apply insert_subseteq_r.
      + done.
      + by rewrite lookup_insert_eq.
      + intros l Hl1 Hl. apply Hdom; [|done]. apply Hdomj; [done|].
        apply elem_of_dom. apply elem_of_dom in Hl as [c Hc].
        exists c. by eapply lookup_weaken.
      + apply set_reprProps; [|done]. by eapply reprProps_mono.
      + exists hf, h1f, outpsf. split_and!; try done.
        * unfold bind at 1.
          rewrite (deepMerge_body_recurse _ _ _ _ outps lb lo) by done.
          unfold bind at 1. rewrite Hrec. unfold setProp at 1.
          rewrite (lookup_weaken _ _ _ _ Hout Hhij). exact Hrun.
        * by rewrite (deepMerge_cons_recurse _ _ tb).
    - (* otherwise: the assignment *)
      destruct (IHloop (<[out := CObject (set outps k v)]> hi) h1
                  (set outps k v) (set acc k jv))
        as (hf & h1f & outpsf & Hrun & ? & ? & ? & ? & ? & ?).
      + by apply insert_subseteq_r.
      + done.
      + by apply insert_subseteq_r.
      + done.
      + by rewrite lookup_insert_eq.
      + done.
      + apply set_reprProps; [done|]. by eapply repr_mono.
      + exists hf, h1f, outpsf. split_and!; try done.
        * unfold bind at 1.
          by rewrite (deepMerge_body_assign _ _ _ _ _ outps _ _ Hout Hb1 Hb2).
        * by rewrite deepMerge_cons_assign. }
  destruct (Hloop (<[out := CObject bps]> h) h0 bps jb)
    as (hf & h1f & outpsf & Hrun & Hh01f & Hh1f & Hh1fout & Hfout & Hdomf & Hres).
  - by apply insert_subseteq.
  - done.
  - by apply insert_subseteq_r; [eapply lookup_weaken_None|].
  - by eapply lookup_weaken_None.
  - by rewrite lookup_insert_eq.
  - done.
  - done.
  - exists out, hf, (<[out := CObject outpsf]> h1f). split_and!.
    + simpl. unfold bind at 1, readObject at 1.
      rewrite (lookup_weaken _ _ _ _ Hbl Hsub).
      unfold bind at 1, alloc. fold out.
      unfold bind at 1, readObject at 1.
      rewrite lookup_insert_ne
        by (intros <-; apply (lookup_weaken _ _ _ _ Hol) in Hsub; congruence).
      rewrite (lookup_weaken _ _ _ _ Hol Hsub).
      unfold bind at 1, Object_entries. by rewrite Hrun.
    + by apply insert_subseteq_r; [eapply lookup_weaken_None|].
    + by apply insert_subseteq_l.
    + intros l. rewrite dom_insert_L, elem_of_union, elem_of_singleton.
      intros [->|Hl] Hlh.
      * by apply not_elem_of_dom in Hfresh.
      * by apply Hdomf.
    + eapply repr_object; [by rewrite lookup_insert_eq|].
      eapply reprProps_mono; [|exact Hres]. by apply insert_subseteq.
Qed.
End heap_facts.

Section heap_claims.
Import JS Heap Samples.

(** C10: [deepMerge] of merge-vscode-config writes into none of its
    arguments.  When base and override are objects of the store that stand
    for the trees [jb] and [jo], a call with fuel for the depth of the
    override returns; the object returned is at a location that was free;
    every cell the store had is as it was, so that base and override stand
    for the same trees, at every depth, as before; and the object returned
    stands for the merge of the two trees. *)
Theorem deepMerge_nonmutating (h : heap) (base override : loc)
    (jb jo : JsonObject) (fuel : nat) :
  repr h (VRef base) (JObject jb) →
  repr h (VRef override) (JObject jo) →
  depth (JObject jo) ≤ fuel →
  ∃ out h',
    deepMerge fuel base override h = Some (out, h')
    ∧ h !! out = None
    ∧ (∀ l c, h !! l = Some c → h' !! l = Some c)
    ∧ repr h' (VRef base) (JObject jb)
    ∧ repr h' (VRef override) (JObject jo)
    ∧ repr h' (VRef out) (JObject (MergeVscodeConfig.deepMerge jb jo)).
Proof.
  intros Hb Ho Hfuel.
  destruct (deepMerge_refines (JObject jo) jo eq_refl fuel h h base override jb)
    as (out & h' & h1 & Hrun & Hh1 & Hh1' & _ & Hout); try done.
  destruct (deepMerge_frame _ _ _ _ _ _ Hrun) as (Hfresh & Hsub & _).
  exists out, h'. split_and!; try done.
  - intros l c Hl. by eapply lookup_weaken.
  - by apply (repr_mono h).
  - by apply (repr_mono h).
  - by apply (repr_mono h1).
Qed.

Lemma deepMerge_nonmutating_witness :
  ∃ out h',
    deepMerge 2 0 2 settingsStore = Some (out, h')
    ∧ settingsStore !! out = None
    ∧ (∀ l c, settingsStore !! l = Some c → h' !! l = Some c)
    ∧ repr h' (VRef 0)
        (JObject [("editor", JObject [("fontSize", JNumber "12");
                                      ("tabSize", JNumber "2")])])
    ∧ repr h' (VRef 2)
        (JObject [("editor", JObject [("fontSize", JNumber "14")])])
    ∧ repr h' (VRef out)
        (JObject [("editor", JObject [("fontSize", JNumber "14");
                                      ("tabSize", JNumber "2")])]).
Proof.
  apply (deepMerge_nonmutating settingsStore 0 2
           [("editor", JObject [("fontSize", JNumber "12");
                                ("tabSize", JNumber "2")])]
           [("editor", JObject [("fontSize", JNumber "14")])] 2).
  - repeat (econstructor; try reflexivity).
  - repeat (econstructor; try reflexivity).
  - simpl. lia.
Defined.

(** C9: merging the empty object into an object that stands for the tree [A]
    (a clone of [A], say) gives an object that stands for [A]: [mergeDeep]
    returns its target and writes nothing, [deepMerge] returns a new object
    with the properties of its base; on trees both merges give [A] back. *)
Theorem merge_empty_source_identity (h : heap) (a e : loc) (A : JsonObject)
    (fuel : nat) :
  repr h (VRef a) (JObject A) → h !! e = Some (CObject []) →
  GeneratePackage.mergeDeep A [] = A
  ∧ MergeVscodeConfig.deepMerge A [] = A
  ∧ mergeDeep (S fuel) a e h = Some (a, h)
  ∧ ∃ out h',
      deepMerge (S fuel) a e h = Some (out, h')
      ∧ h !! out = None
      ∧ repr h' (VRef out) (JObject A)
      ∧ repr h' (VRef a) (JObject A).
Proof.
  intros Ha He. split_and!; try done.
  - simpl. unfold bind, readObject. by rewrite He.
  - assert (repr h (VRef e) (JObject [])) as Hempty
      by (eapply repr_object; [done|constructor]).
    destruct (deepMerge_refines (JObject []) [] eq_refl (S fuel) h h a e A)
      as (out & h' & h1 & Hrun & _ & Hh1' & _ & Hout);
      [simpl; lia|done..|].
    destruct (deepMerge_frame _ _ _ _ _ _ Hrun) as (Hfresh & Hsub & _).
    exists out, h'. split_and!; [done|done| |].
    + by apply (repr_mono h1).
    + by apply (repr_mono h).
Qed.

(** [mergeDeep] on a store, for a fragment that overrides a scalar, merges
    into a nested object, adds a name and holds a guarded name: the call
    returns its target, the target stands for the tree that [mergeDeep] on
    trees computes, and the source is as it was. *)
Example mergeDeep_on_store :
  let h : heap :=
    {[ 0 := CObject [("name", VString "x"); ("engines", VRef 1)];
       1 := CObject [("node", VString ">=18")];
       2 := CObject [("name", VString "y"); ("engines", VRef 3);
                     ("constructor", VRef 4); ("files", VRef 5)];
       3 := CObject [("npm", VString ">=9")];
       4 := CObject [];
       5 := CArray [VString "dist"] ]} in
  let target := [("name", JString "x");
                 ("engines", JObject [("node", JString ">=18")])] in
  let source := [("name", JString "y");
                 ("engines", JObject [("npm", JString ">=9")]);
                 ("constructor", JObject []);
                 ("files", JArray [JString "dist"])] in
  ∃ h', mergeDeep 2 0 2 h = Some (0, h')
        ∧ repr h' (VRef 0) (JObject (GeneratePackage.mergeDeep target source))
        ∧ repr h' (VRef 2) (JObject source)
        ∧ h' !! 0 = Some (CObject [("name", VString "y"); ("engines", VRef 1);
                                   ("files", VRef 5)])
        ∧ h' !! 1 = Some (CObject [("node", VString ">=18");
                                   ("npm", VString ">=9")]).
Proof.
  eexists. split; [vm_compute; reflexivity|].
  split_and!; try reflexivity; repeat (econstructor; try reflexivity).
Qed.

Lemma merge_empty_source_identity_witness :
  let h : heap := <[4 := CObject []]> settingsStore in
  let A := [("editor", JObject [("fontSize", JNumber "12");
                                ("tabSize", JNumber "2")])] in
  GeneratePackage.mergeDeep A [] = A
  ∧ MergeVscodeConfig.deepMerge A [] = A
  ∧ mergeDeep 1 0 4 h = Some (0, h)
  ∧ ∃ out h',
      deepMerge 1 0 4 h = Some (out, h')
      ∧ h !! out = None
      ∧ repr h' (VRef out) (JObject A)
      ∧ repr h' (VRef 0) (JObject A).
Proof.
  intros h A. apply (merge_empty_source_identity h 0 4 A 0).
  - repeat (econstructor; try reflexivity).
  - reflexivity.
Defined.
End heap_claims.

(** ** Canonical serialisation *)

Section stable_facts.
Import JS JSON UpdatePackage.

Lemma Set_from_fold (l : list string) : ∀ acc,
  NoDup acc →
  let r := foldl (λ acc k, if bool_decide (k ∈ acc) then acc
                           else (acc ++ [k])%list) acc l in
  NoDup r ∧ ∀ x, x ∈ r ↔ x ∈ acc ∨ x ∈ l.
Proof.
  induction l as [|k l IH]; intros acc Hnd; simpl.
  { split; [done|]. intros x. rewrite elem_of_nil. tauto. }
  case_bool_decide as Hk.
  - destruct (IH acc Hnd) as [Hr Hx]. split; [done|].
    intros x. rewrite Hx, elem_of_cons. naive_solver.
  - destruct (IH (acc ++ [k])%list) as [Hr Hx].
    { apply NoDup_app. split_and!; [done| |apply NoDup_singleton].
      by intros x ? ->%list_elem_of_singleton. }
    split; [done|]. intros x.
    rewrite Hx, elem_of_app, list_elem_of_singleton, elem_of_cons. tauto.
Qed.

Lemma Set_from_NoDup l : NoDup (Set_from l).
Proof. apply (Set_from_fold l []). constructor. Qed.

Lemma elem_of_Set_from l x : x ∈ Set_from l ↔ x ∈ l.
Proof.
  unfold Set_from. destruct (Set_from_fold l [] (NoDup_nil_2)) as [_ ->].
  rewrite elem_of_nil. tauto.
Qed.

Lemma sort_Permutation l1 l2 : l1 ≡ₚ l2 → sort l1 = sort l2.
Proof.
  intros Hp. unfold sort.
  apply (Sorted_unique String.le); [apply Sorted_merge_sort, _..|].
  by rewrite !merge_sort_Permutation.
Qed.

Lemma elem_of_sort l x : x ∈ sort l ↔ x ∈ l.
Proof. unfold sort. by rewrite merge_sort_Permutation. Qed.

Lemma sort_NoDup l : NoDup l → NoDup (sort l).
Proof. unfold sort. by rewrite merge_sort_Permutation. Qed.

Lemma uniqKeys_ext a b :
  (∀ x, x ∈ collect a ↔ x ∈ collect b) → uniqKeys a = uniqKeys b.
Proof.
  intros Hab. apply sort_Permutation, NoDup_Permutation;
    [apply Set_from_NoDup..|].
  intros x. by rewrite !elem_of_Set_from.
Qed.

Lemma elem_of_uniqKeys a x : x ∈ uniqKeys a ↔ x ∈ collect a.
Proof. unfold uniqKeys. by rewrite elem_of_sort, elem_of_Set_from. Qed.

Lemma PropertyList_id l : NoDup l → PropertyList l = l.
Proof.
  intros Hnd. unfold PropertyList.
  assert (∀ acc, NoDup (acc ++ l) →
            foldl (λ acc item, if bool_decide (item ∈ acc) then acc
                               else (acc ++ [item])%list) acc l
            = (acc ++ l)%list) as Hgen.
  { clear Hnd. induction l as [|k l IH]; intros acc Hnd; simpl.
    { by rewrite app_nil_r. }
    rewrite bool_decide_eq_false_2.
    - rewrite IH; rewrite <-app_assoc; done.
    - apply NoDup_app in Hnd as (_ & Hnd & _). intros Hk.
      apply (Hnd k Hk). by left. }
  by apply (Hgen []).
Qed.

Lemma stableStringify_unfold a :
  stableStringify a = serialize (Some (uniqKeys a)) "" a.
Proof.
  unfold stableStringify, stringify, uniqKeys. simpl.
  by rewrite PropertyList_id by apply sort_NoDup, Set_from_NoDup.
Qed.

Lemma elem_of_concat {A} (ls : list (list A)) (x : A) :
  x ∈ concat ls ↔ ∃ l, x ∈ l ∧ l ∈ ls.
Proof.
  induction ls as [|l ls IH]; simpl.
  - split; [by intros ?%elem_of_nil|by intros (? & _ & ?%elem_of_nil)].
  - rewrite elem_of_app, IH. split.
    + intros [?|(l' & ? & ?)]; [exists l|exists l']; split; try done;
        apply elem_of_cons; auto.
    + intros (l' & ? & [->|?]%elem_of_cons); eauto.
Qed.

Lemma elem_of_collect_array l x :
  x ∈ collect (JArray l) ↔ ∃ v, v ∈ l ∧ x ∈ collect v.
Proof.
  simpl. rewrite elem_of_concat. split.
  - intros (xs & Hx & (v & -> & Hv)%list_elem_of_fmap). eauto.
  - intros (v & Hv & Hx). exists (collect v). split; [done|].
    apply list_elem_of_fmap. eauto.
Qed.

Lemma elem_of_collect_object o x :
  x ∈ collect (JObject o) ↔ ∃ kv, kv ∈ o ∧ (x = kv.1 ∨ x ∈ collect kv.2).
Proof.
  simpl. rewrite elem_of_concat. split.
  - intros (xs & Hx & (kv & -> & Hkv)%list_elem_of_fmap).
    exists kv. split; [done|]. by apply elem_of_cons in Hx.
  - intros (kv & Hkv & Hx). exists (kv.1 :: collect kv.2). split.
    + by apply elem_of_cons.
    + apply list_elem_of_fmap. eauto.
Qed.

Lemma forallb_Forall {A} (f : A → bool) (l : list A) :
  forallb f l = true ↔ Forall (λ x, f x = true) l.
Proof.
  induction l as [|x l IH]; simpl; [by split|].
  rewrite andb_true_iff, Forall_cons, IH. tauto.
Qed.

Lemma wf_array l : wf (JArray l) = true ↔ Forall (λ v, wf v = true) l.
Proof. apply forallb_Forall. Qed.

Lemma wf_object o :
  wf (JObject o) = true ↔
  NoDup (Object_keys o) ∧ Forall (λ kv, wf kv.2 = true) o.
Proof.
  simpl. rewrite andb_true_iff, bool_decide_eq_true.
  by rewrite (forallb_Forall (λ kv, wf kv.2)).
Qed.

Lemma get_Permutation {A} (o o' : Obj A) k :
  o ≡ₚ o' → NoDup (Object_keys o) → get o k = get o' k.
Proof.
  intros Hp Hnd.
  assert (NoDup (Object_keys o')) as Hnd'
    by (unfold Object_keys in *; by rewrite <-Hp).
  destruct (get o k) as [v|] eqn:Hget.
  - symmetry. apply get_elem_NoDup; [done|]. rewrite <-Hp.
    by apply get_Some_elem.
  - symmetry. apply get_None. apply get_None in Hget.
    unfold Object_keys in *. by rewrite <-Hp.
Qed.

Lemma keys_same (o o'' : JsonObject) :
  Forall2 (λ p q, p.1 = q.1 ∧ sameUpToKeyOrder p.2 q.2) o o'' →
  Object_keys o = Object_keys o''.
Proof.
  unfold Object_keys. induction 1 as [|[] [] ? ? [? _]]; csimpl; [done|].
  simpl in *. by f_equal.
Qed.

Lemma get_same (o o'' : JsonObject) k :
  Forall2 (λ p q, p.1 = q.1 ∧ sameUpToKeyOrder p.2 q.2) o o'' →
  option_Forall2 sameUpToKeyOrder (get o k) (get o'' k).
Proof.
  induction 1 as [|[k1 v1] [k2 v2] ? ? [Hk Hv]]; simpl in *; [constructor|].
  subst k2. destruct (String.eqb k1 k); [by constructor|done].
Qed.

(** Two values that differ in the order of the properties only have the
    same names. *)
Lemma collect_same a : ∀ b,
  sameUpToKeyOrder a b → ∀ x, x ∈ collect a ↔ x ∈ collect b.
Proof.
  induction a as [| | | |l IH|o IH] using Json_ind; intros y Hab x;
    inversion Hab as [| | | |? l' Hl|? o' o'' Ho Hperm]; subst; try done.
  - rewrite !elem_of_collect_array. clear Hab.
    induction Hl as [|v v' l l' Hv Hl IHl].
    { split; intros (? & []%elem_of_nil & _). }
    apply Forall_cons in IH as [IHv IH]. specialize (IHl IH).
    split.
    + intros (w & [->|Hw]%elem_of_cons & Hx).
      * exists v'. split; [by left|]. by apply (IHv v').
      * destruct IHl as [IHl _]. destruct IHl as (w' & ? & ?); [by eauto|].
        exists w'. split; [by right|done].
    + intros (w & [->|Hw]%elem_of_cons & Hx).
      * exists v. split; [by left|]. by apply (IHv v').
      * destruct IHl as [_ IHl]. destruct IHl as (w' & ? & ?); [by eauto|].
        exists w'. split; [by right|done].
  - rewrite !elem_of_collect_object. clear Hab.
    assert ((∃ kv, kv ∈ o' ∧ (x = kv.1 ∨ x ∈ collect kv.2))
            ↔ ∃ kv, kv ∈ o'' ∧ (x = kv.1 ∨ x ∈ collect kv.2)) as ->.
    { split; intros (kv & Hkv & ?); exists kv; split; try done;
        [by rewrite Hperm|by rewrite <-Hperm]. }
    clear Hperm o'. induction Ho as [|p q o o'' [Hk Hv] Ho IHo].
    { split; intros (? & []%elem_of_nil & _). }
    apply Forall_cons in IH as [IHv IH]. specialize (IHo IH).
    split.
    + intros (w & [->|Hw]%elem_of_cons & Hx).
      * exists q. split; [by left|]. rewrite <-Hk.
        destruct Hx as [?|Hx]; [by left|right]. by apply (IHv q.2).
      * destruct IHo as [IHo _]. destruct IHo as (w' & ? & ?); [by eauto|].
        exists w'. split; [by right|done].
    + intros (w & [->|Hw]%elem_of_cons & Hx).
      * exists p. split; [by left|]. rewrite Hk.
        destruct Hx as [?|Hx]; [by left|right]. by apply (IHv q.2).
      * destruct IHo as [_ IHo]. destruct IHo as (w' & ? & ?); [by eauto|].
        exists w'. split; [by right|done].
Qed.

Lemma omap_ext_in {A B} (f g : A → option B) (l : list A) :
  (∀ x, x ∈ l → f x = g x) → omap f l = omap g l.
Proof.
  induction l as [|x l IH]; intros Hfg; [done|]. csimpl.
  rewrite (Hfg x) by (by left). rewrite IH; [done|].
  intros y Hy. apply Hfg. by right.
Qed.

Lemma serialize_object plist indent props :
  serialize plist indent (JObject props)
  = wrap "{" "}" indent
      (omap (λ P, (λ str, QuoteJSONString P +:+ ": " +:+ str)
                  <$> (serialize plist (indent +:+ gap) <$> get props P))
            (match plist with Some K => K | None => Object_keys props end)).
Proof.
  simpl. f_equal. apply omap_ext_in. intros P _.
  rewrite (get_fmap (serialize plist (indent +:+ gap))).
  by destruct (get props P).
Qed.

(** The serialisation with a property list does not depend on the order of
    the properties of the objects. *)
Lemma serialize_same a : ∀ y K indent,
  sameUpToKeyOrder a y → wf a = true →
  serialize (Some K) indent a = serialize (Some K) indent y.
Proof.
  induction a as [| | | |l IH|o IH] using Json_ind; intros y K indent Hab Hwf;
    inversion Hab as [| | | |? l' Hl|? o' o'' Ho Hperm]; subst; try done.
  - simpl. f_equal. apply wf_array in Hwf. clear Hab.
    induction Hl as [|v v' l l' Hv Hl IHl]; [done|].
    apply Forall_cons in IH as [IHv IH]. apply Forall_cons in Hwf as [Hwv Hwf].
    simpl. f_equal; [by apply IHv|by apply IHl].
  - rewrite !serialize_object. f_equal. apply omap_ext_in. intros P _.
    apply wf_object in Hwf as [Hnd Hwf].
    rewrite <-(get_Permutation o'' o' P Hperm)
      by (by rewrite <-(keys_same o o'')).
    pose proof (get_same o o'' P Ho) as Hget.
    destruct (get o P) as [w|] eqn:Hw;
      inversion Hget as [? w' Hww|]; subst; [|done].
    apply get_Some_elem in Hw. rewrite Forall_forall in IH, Hwf.
    pose proof (IH (P, w) Hw w' K (indent +:+ gap) Hww (Hwf (P, w) Hw)) as E.
    simpl in *. by rewrite E.
Qed.
End stable_facts.

(** ** Telling serialisations apart *)

Section text_facts.
Import JS JSON Decode.
Implicit Types (s r : string) (c : ascii).

Lemma app_cons c s r : String c s +:+ r = String c (s +:+ r).
Proof. reflexivity. Qed.

Lemma app_empty_l s : "" +:+ s = s.
Proof. reflexivity. Qed.

Lemma app_empty_r s : s +:+ "" = s.
Proof. induction s as [|c s IH]; [done|]. by rewrite app_cons, IH. Qed.

Lemma app_assoc s1 s2 s3 : (s1 +:+ s2) +:+ s3 = s1 +:+ (s2 +:+ s3).
Proof.
  induction s1 as [|c s1 IH]; [done|]. by rewrite !app_cons, IH.
Qed.

Lemma unescape_escape c r : unescapeChar (escapeChar c +:+ r) = Some (c, r).
Proof. by destruct c as [[] [] [] [] [] [] [] []]. Qed.

Lemma unescape_dquote r : unescapeChar (dquote +:+ r) = None.
Proof. reflexivity. Qed.

Lemma escape_inj s1 : ∀ s2 r1 r2,
  escape s1 +:+ (dquote +:+ r1) = escape s2 +:+ (dquote +:+ r2) →
  s1 = s2 ∧ r1 = r2.
Proof.
  induction s1 as [|c1 s1 IH]; intros [|c2 s2] r1 r2 Heq; simpl in Heq;
    change (String.append EmptyString ?x) with x in Heq.
  - split; [done|]. by apply (inj (String.append dquote)) in Heq.
  - apply (f_equal unescapeChar) in Heq.
    by rewrite app_assoc, unescape_escape, unescape_dquote in Heq.
  - apply (f_equal unescapeChar) in Heq.
    by rewrite app_assoc, unescape_escape, unescape_dquote in Heq.
  - apply (f_equal unescapeChar) in Heq.
    rewrite !app_assoc, !unescape_escape in Heq.
    injection Heq as -> Heq. by apply IH in Heq as [-> ->].
Qed.

Lemma Quote_inj s1 s2 r1 r2 :
  QuoteJSONString s1 +:+ r1 = QuoteJSONString s2 +:+ r2 → s1 = s2 ∧ r1 = r2.
Proof.
  unfold QuoteJSONString. rewrite !app_assoc.
  intros Heq%(inj (String.append dquote)). by apply escape_inj.
Qed.

Lemma number_inj n1 : ∀ n2 r1 r2,
  forallb numberChar (list_ascii_of_string n1) = true →
  forallb numberChar (list_ascii_of_string n2) = true →
  endsValue r1 = true → endsValue r2 = true →
  n1 +:+ r1 = n2 +:+ r2 → n1 = n2 ∧ r1 = r2.
Proof.
  induction n1 as [|c1 n1 IH]; intros [|c2 n2] r1 r2 H1 H2 Hr1 Hr2 Heq;
    simpl in *; rewrite ?app_cons in Heq;
    change (String.append EmptyString ?x) with x in Heq.
  - done.
  - subst r1. simpl in Hr1.
    apply andb_true_iff in H2 as [H2 _]. by rewrite H2 in Hr1.
  - subst r2. simpl in Hr2.
    apply andb_true_iff in H1 as [H1 _]. by rewrite H1 in Hr2.
  - injection Heq as -> Heq.
    apply andb_true_iff in H1 as [_ H1]. apply andb_true_iff in H2 as [_ H2].
    by destruct (IH n2 r1 r2) as [-> ->].
Qed.

Lemma kindOfChar_number c :
  (let n := N_of_ascii c in
   (48 <=? n) && (n <=? 57) || (n =? 45))%N = true →
  kindOfChar c = KNumber ∧ numberChar c = true.
Proof. by destruct c as [[] [] [] [] [] [] [] []]. Qed.

(** The first character of a serialisation tells the kind of the value. *)
Lemma serialize_head plist indent v r :
  wf v = true → kindOfHead (serialize plist indent v +:+ r) = kind v.
Proof.
  destruct v as [|[]|n|s|l|o]; intros Hwf; simpl; try done.
  - destruct n as [|c n]; [done|]. simpl in Hwf.
    apply andb_true_iff in Hwf as [Hc _]. rewrite app_cons. simpl.
    by apply kindOfChar_number.
  - unfold wrap. by destruct (map _ l).
  - unfold wrap. by destruct (omap _ _).
Qed.

Lemma concat_cons sep x xs :
  String.concat sep (x :: xs)
  = match xs with [] => x | _ => x +:+ sep +:+ String.concat sep xs end.
Proof. by destruct xs. Qed.

(** Items that can be told apart one at a time, separated by a text that
    starts with a comma and followed by a text that starts with a newline,
    can be told apart as a list. *)
Lemma items_inj {X Y} (f : X → string) (g : Y → string) (R : X → Y → Prop)
    (sep' t1 t2 : string) (xs : list X) : ∀ ys : list Y,
  (∀ x y rest rest',
     x ∈ xs → y ∈ ys → endsValue rest = true → endsValue rest' = true →
     f x +:+ rest = g y +:+ rest' → R x y ∧ rest = rest') →
  xs ≠ [] → ys ≠ [] →
  String.concat ("," +:+ sep') (map f xs) +:+ (nl +:+ t1)
  = String.concat ("," +:+ sep') (map g ys) +:+ (nl +:+ t2) →
  Forall2 R xs ys ∧ t1 = t2.
Proof.
  induction xs as [|x xs IH]; intros [|y ys] Hitem Hxs Hys Heq; try done.
  clear Hxs Hys. simpl map in Heq. rewrite !concat_cons in Heq.
  assert (∀ s, endsValue ("," +:+ s) = true) as Hsep by done.
  assert (∀ s, endsValue (nl +:+ s) = true) as Hnl by done.
  destruct xs as [|x' xs], ys as [|y' ys]; simpl map in Heq;
    rewrite ?app_assoc in Heq.
  - destruct (Hitem x y _ _ (list_elem_of_here _ _) (list_elem_of_here _ _)
                (Hnl _) (Hnl _) Heq) as [HR Ht].
    apply (inj (String.append nl)) in Ht. split; [|done].
    by repeat constructor.
  - by destruct (Hitem x y _ _ (list_elem_of_here _ _) (list_elem_of_here _ _)
                   (Hnl _) (Hsep _) Heq) as [_ Ht].
  - by destruct (Hitem x y _ _ (list_elem_of_here _ _) (list_elem_of_here _ _)
                   (Hsep _) (Hnl _) Heq) as [_ Ht].
  - destruct (Hitem x y _ _ (list_elem_of_here _ _) (list_elem_of_here _ _)
                (Hsep _) (Hsep _) Heq) as [HR Ht].
    apply (inj (String.append ",")), (inj (String.append sep')) in Ht.
    destruct (IH (y' :: ys)) as [Hrest Ht']; try done.
    + intros x0 y0 rest rest' Hx0 Hy0. apply Hitem; by right.
    + split; [|done]. by constructor.
Qed.

Lemma wrap_inj {X Y} (f : X → string) (g : Y → string) (R : X → Y → Prop)
    (o c : ascii) (indent : string) (xs : list X) (ys : list Y) r1 r2 :
  c ≠ "010"%char →
  (∀ x y rest rest',
     x ∈ xs → y ∈ ys → endsValue rest = true → endsValue rest' = true →
     f x +:+ rest = g y +:+ rest' → R x y ∧ rest = rest') →
  wrap (String o "") (String c "") indent (map f xs) +:+ r1
  = wrap (String o "") (String c "") indent (map g ys) +:+ r2 →
  Forall2 R xs ys ∧ r1 = r2.
Proof.
  intros Hc Hitem Heq. unfold wrap in Heq.
  destruct xs as [|x xs], ys as [|y ys]; simpl map in Heq; cbv zeta in Heq;
    rewrite ?app_assoc in Heq;
    apply (inj (String.append (String o ""))) in Heq.
  - apply (inj (String.append (String c ""))) in Heq. by split.
  - exfalso. apply Hc. unfold nl in Heq. rewrite !app_cons in Heq.
    by injection Heq.
  - exfalso. apply Hc. unfold nl in Heq. rewrite !app_cons in Heq.
    by injection Heq.
  - apply (inj (String.append nl)), (inj (String.append indent)),
      (inj (String.append gap)) in Heq.
    destruct (items_inj f g R (nl +:+ indent +:+ gap)
                (indent +:+ String c "" +:+ r1) (indent +:+ String c "" +:+ r2)
                (x :: xs) (y :: ys)) as [HR Ht]; try done.
    split; [done|].
    by apply (inj (String.append indent)),
      (inj (String.append (String c ""))) in Ht.
Qed.

Lemma members_cons P K (o : JsonObject) :
  members (P :: K) o
  = match get o P with
    | Some v => (P, v) :: members K o
    | None => members K o
    end.
Proof. unfold members. csimpl. by destruct (get o P). Qed.

Lemma members_serialize (ser : Json → string) K (o : JsonObject) :
  omap (λ P, (λ str, QuoteJSONString P +:+ ": " +:+ str)
             <$> (ser <$> get o P)) K
  = map (λ kv, QuoteJSONString kv.1 +:+ ": " +:+ ser kv.2) (members K o).
Proof.
  induction K as [|P K IH]; [done|]. rewrite members_cons. csimpl.
  rewrite IH. by destruct (get o P).
Qed.

Lemma elem_of_members K (o : JsonObject) k v :
  (k, v) ∈ members K o ↔ k ∈ K ∧ get o k = Some v.
Proof.
  induction K as [|P K IH].
  { split; [by intros ?%elem_of_nil|by intros [?%elem_of_nil _]]. }
  rewrite members_cons, elem_of_cons.
  destruct (get o P) as [w|] eqn:Hw.
  - rewrite elem_of_cons, IH. split.
    + intros [[= -> ->]|[? ?]]; auto.
    + intros [[->|?] Hk]; [left|right; done]. congruence.
  - rewrite IH. split; [intros [? ?]; auto|].
    intros [[->|?] Hk]; [congruence|done].
Qed.

Lemma members_NoDup K (o : JsonObject) : NoDup K → NoDup (members K o).
Proof.
  induction 1 as [|P K HP Hnd IH]; [constructor|]. rewrite members_cons.
  destruct (get o P) as [w|]; [|done]. constructor; [|done].
  rewrite elem_of_members. by intros [? _].
Qed.

Lemma members_Permutation K (o : JsonObject) :
  NoDup K → NoDup (Object_keys o) → (∀ k, k ∈ Object_keys o → k ∈ K) →
  members K o ≡ₚ o.
Proof.
  intros HK Ho Hsub. apply NoDup_Permutation.
  - by apply members_NoDup.
  - by apply (NoDup_fmap_1 fst).
  - intros [k v]. rewrite elem_of_members. split.
    + intros [_ ?]. by apply get_Some_elem.
    + intros Hin. split; [|by apply get_elem_NoDup].
      apply Hsub. unfold Object_keys. apply list_elem_of_fmap. by exists (k, v).
Qed.

Lemma isNumberText_chars n :
  isNumberText n = true → forallb numberChar (list_ascii_of_string n) = true.
Proof.
  destruct n as [|c n]; [done|]. unfold isNumberText.
  by intros [_ ?]%andb_true_iff.
Qed.

(** Two values with the same serialisation, each under a property list that
    has all its names, differ in the order of the properties at most. *)
Lemma serialize_inj a : ∀ y Ka Kb indent r1 r2,
  wf a = true → wf y = true →
  (∀ x, x ∈ UpdatePackage.collect a → x ∈ Ka) →
  (∀ x, x ∈ UpdatePackage.collect y → x ∈ Kb) →
  NoDup Ka → NoDup Kb →
  endsValue r1 = true → endsValue r2 = true →
  serialize (Some Ka) indent a +:+ r1 = serialize (Some Kb) indent y +:+ r2 →
  sameUpToKeyOrder a y ∧ r1 = r2.
Proof.
  induction a as [|b|n|s|l IH|o IH] using Json_ind;
    intros y Ka Kb indent r1 r2 Hwa Hwy Hka Hkb HKa HKb Hr1 Hr2 Heq;
    pose proof (f_equal kindOfHead Heq) as Hkind;
    rewrite !serialize_head in Hkind by done;
    try destruct b; destruct y as [|[]|n'|s'|l'|o']; try discriminate Hkind;
    clear Hkind.
  - apply (inj (String.append "null")) in Heq. split; [constructor|done].
  - apply (inj (String.append "true")) in Heq. split; [constructor|done].
  - apply (inj (String.append "false")) in Heq. split; [constructor|done].
  - simpl in Heq, Hwa, Hwy.
    apply number_inj in Heq as [-> ->];
      [split; [constructor|done]|by apply isNumberText_chars..|done|done].
  - simpl in Heq. apply Quote_inj in Heq as [-> ->].
    split; [constructor|done].
  - simpl in Heq. apply wf_array in Hwa, Hwy.
    rewrite Forall_forall in IH, Hwa, Hwy.
    apply (wrap_inj _ _ sameUpToKeyOrder) in Heq as [Hl ->]; [|done|].
    + split; [by constructor|done].
    + intros x y rest rest' Hx Hy Hrest Hrest'.
      apply IH; try done; [by apply Hwa|by apply Hwy| |].
      * intros k Hk. apply Hka, elem_of_collect_array. eauto.
      * intros k Hk. apply Hkb, elem_of_collect_array. eauto.
  - rewrite !serialize_object, !members_serialize in Heq.
    apply wf_object in Hwa as [Hnd Hwa], Hwy as [Hnd' Hwy].
    rewrite Forall_forall in IH, Hwa, Hwy.
    apply (wrap_inj _ _ (λ p q, p.1 = q.1 ∧ sameUpToKeyOrder p.2 q.2))
      in Heq as [Hm ->]; [|done|].
    + split; [|done].
      assert (members Ka o ≡ₚ o) as Hpa.
      { apply members_Permutation; try done.
        intros k (kv & -> & Hkv)%list_elem_of_fmap.
        apply Hka, elem_of_collect_object. eauto. }
      assert (members Kb o' ≡ₚ o') as Hpb.
      { apply members_Permutation; try done.
        intros k (kv & -> & Hkv)%list_elem_of_fmap.
        apply Hkb, elem_of_collect_object. eauto. }
      destruct (Permutation_Forall2 Hpa Hm) as (o'' & Hperm & Ho).
      apply (same_object o o' o''); [done|]. by rewrite <-Hperm.
    + intros [k v] [k' v'] rest rest' Hx Hy Hrest Hrest'. simpl.
      rewrite !app_assoc. intros [-> Hrest12]%Quote_inj.
      apply (inj (String.append ": ")) in Hrest12.
      apply elem_of_members in Hx as [_ Hx%get_Some_elem].
      apply elem_of_members in Hy as [_ Hy%get_Some_elem].
      destruct (IH (k', v) Hx v' Ka Kb (indent +:+ gap) rest rest')
        as [Hv ->]; try done; [by apply (Hwa (k', v))|by apply (Hwy (k', v'))| |].
      * intros x Hxc. apply Hka, elem_of_collect_object.
        exists (k', v). eauto.
      * intros x Hxc. apply Hkb, elem_of_collect_object.
        exists (k', v'). eauto.
Qed.
End text_facts.

Section stable_claims.
Import JS JSON UpdatePackage Decode.

Lemma stableStringify_same a y :
  wf a = true → sameUpToKeyOrder a y → stableStringify a = stableStringify y.
Proof.
  intros Hwf Hsame. rewrite !stableStringify_unfold.
  rewrite (uniqKeys_ext a y) by (by apply collect_same).
  by apply serialize_same.
Qed.

Lemma stableStringify_inj a y :
  wf a = true → wf y = true →
  stableStringify a = stableStringify y → sameUpToKeyOrder a y.
Proof.
  intros Hwa Hwy Heq. rewrite !stableStringify_unfold in Heq.
  rewrite <-(app_empty_r (serialize _ _ a)) in Heq.
  rewrite <-(app_empty_r (serialize _ _ y)) in Heq.
  apply serialize_inj in Heq as [Hsame _]; try done.
  - intros x. by rewrite elem_of_uniqKeys.
  - intros x. by rewrite elem_of_uniqKeys.
  - apply sort_NoDup, Set_from_NoDup.
  - apply sort_NoDup, Set_from_NoDup.
Qed.

(** C3: the comparison of [findChangedWireit], by the texts that
    [stableStringify] gives, is reflexive and symmetric, and it finds no
    difference between two values exactly when one is the other with the
    properties of its objects, at any depth, in another order: their texts
    are then the same string.  Values that differ in anything else (the
    order of the elements of an array, the kind of a value, a number, a
    string, a boolean) are found different. *)
Theorem stableStringify_key_order (a y : Json) :
  wf a = true → wf y = true →
  wireitDiffers a a = false
  ∧ wireitDiffers a y = wireitDiffers y a
  ∧ (sameUpToKeyOrder a y → stableStringify a = stableStringify y)
  ∧ (wireitDiffers a y = false ↔ sameUpToKeyOrder a y).
Proof.
  intros Hwa Hwy. unfold wireitDiffers. split_and!.
  - by rewrite String.eqb_refl.
  - by rewrite String.eqb_sym.
  - by apply stableStringify_same.
  - rewrite negb_false_iff, String.eqb_eq. split.
    + by apply stableStringify_inj.
    + by apply stableStringify_same.
Qed.

Lemma stableStringify_key_order_witness :
  let a := JObject [("b", JArray [JNumber "1"; JNumber "2"]);
                    ("a", JObject [("d", JBool true); ("c", JString "s")])] in
  let y := JObject [("a", JObject [("c", JString "s"); ("d", JBool true)]);
                    ("b", JArray [JNumber "1"; JNumber "2"])] in
  stableStringify a = stableStringify y ∧ wireitDiffers a y = false.
Proof.
  intros a y.
  destruct (stableStringify_key_order a y) as (_ & _ & Htext & Hsame);
    [reflexivity|reflexivity|].
  assert (sameUpToKeyOrder a y) as Hay.
  { apply (same_object _ _
             [("b", JArray [JNumber "1"; JNumber "2"]);
              ("a", JObject [("c", JString "s"); ("d", JBool true)])]).
    - repeat constructor.
      apply (same_object _ _ [("d", JBool true); ("c", JString "s")]).
      + repeat constructor.
      + apply perm_swap.
    - apply perm_swap. }
  split; [by apply Htext|by apply Hsame].
Defined.

(** The comparison tells apart two arrays with the same elements in another
    order, a number and the string of its digits, and two numbers. *)
Example wireitDiffers_sensitive :
  wireitDiffers (JArray [JNumber "1"; JNumber "2"])
                (JArray [JNumber "2"; JNumber "1"]) = true
  ∧ wireitDiffers (JNumber "1") (JString "1") = true
  ∧ wireitDiffers (JObject [("a", JNumber "1")])
                  (JObject [("a", JNumber "2")]) = true
  ∧ wireitDiffers (JObject [("a", JNull)]) (JObject []) = true.
Proof. by vm_compute. Qed.
End stable_claims.

(** ** The in-place merge on the store *)

Section located_facts.
Import JS Heap Located.
Implicit Types (h : heap) (t : LJson) (tps sps : LObj).

Lemma mergeDeepL_cons target l key sv rest :
  mergeDeepL target (LObject l ((key, sv) :: rest))
  = mergeDeepL
      (if GeneratePackage.isPollutionKey key then target
       else match sv, get target key with
            | LObject _ _, Some (LObject lt tv) =>
                set target key (LObject lt (mergeDeepL tv sv))
            | _, _ => set target key sv
            end)
      (LObject l rest).
Proof. reflexivity. Qed.

(** Without the locations, [mergeDeepL] is [mergeDeep] on trees. *)
Lemma erase_mergeDeepL S : ∀ tps,
  eraseProps (mergeDeepL tps S)
  = GeneratePackage.mergeDeepJ (eraseProps tps) (erase S).
Proof.
  induction S as [| | | |l elems IH|l sps IH] using LJson_ind; try done.
  induction IH as [|[key sv] rest Hsv _ IHrest]; intros tps; [done|].
  rewrite mergeDeepL_cons, IHrest. cbn [erase map]. simpl fst. simpl snd.
  rewrite mergeDeepJ_cons. f_equal.
  destruct (GeneratePackage.isPollutionKey key); [done|].
  unfold eraseProps at 3. rewrite (get_fmap erase). simpl in Hsv.
  destruct sv as [| | | |ls' es|ls' svp];
    try (by unfold eraseProps; rewrite (set_fmap erase);
         destruct (get tps key) as [[]|]).
  destruct (get tps key) as [[| | | |lt' es|lt' tv]|]; simpl;
    try (by unfold eraseProps; rewrite (set_fmap erase)).
  unfold eraseProps at 1. rewrite (set_fmap erase). simpl.
  do 3 f_equal. apply Hsv.
Qed.

Lemma stored_repr h t : stored h t → repr h (valueOf t) (erase t).
Proof.
  induction t as [| | | |l elems IH|l props IH] using LJson_ind;
    intros Hst; inversion Hst as [| | | |? ? Hl Hel|? ? Hl Hps]; subst;
    clear Hst; simpl; try constructor.
  - eapply repr_array; [done|]. clear Hl.
    induction IH as [|x xs Hx _ IHxs]; [constructor|].
    apply Forall_cons in Hel as [? ?]. constructor; auto.
  - eapply repr_object; [done|]. clear Hl. unfold valuesOf.
    induction IH as [|x xs Hx _ IHxs]; [constructor|].
    apply Forall_cons in Hps as [? ?]. constructor; auto.
Qed.

Lemma stored_frame h h' t :
  stored h t → (∀ l, l ∈ locs t → h' !! l = h !! l) → stored h' t.
Proof.
  induction t as [| | | |l elems IH|l props IH] using LJson_ind;
    inversion 1 as [| | | |? ? Hl Hel|? ? Hl Hps]; subst; intros Hsame;
    try constructor.
  - rewrite Hsame; [done|]. simpl. by left.
  - rewrite Forall_forall in IH, Hel. apply Forall_forall. intros x Hx.
    apply IH; [done|by apply Hel|]. intros l' Hl'. apply Hsame. simpl.
    right. apply elem_of_concat. exists (locs x). split; [done|].
    apply list_elem_of_fmap. eauto.
  - rewrite Hsame; [done|]. simpl. by left.
  - rewrite Forall_forall in IH, Hps. apply Forall_forall. intros x Hx.
    apply IH; [done|by apply Hps|]. intros l' Hl'. apply Hsame. simpl.
    right. apply elem_of_concat. exists (locs x.2). split; [done|].
    apply list_elem_of_fmap. eauto.
Qed.

Lemma elem_of_childLocs props l :
  l ∈ childLocs props ↔ ∃ kv, kv ∈ props ∧ l ∈ locs kv.2.
Proof.
  unfold childLocs. rewrite elem_of_concat. split.
  - intros (xs & Hl & (kv & -> & Hkv)%list_elem_of_fmap). eauto.
  - intros (kv & Hkv & Hl). exists (locs kv.2). split; [done|].
    apply list_elem_of_fmap. eauto.
Qed.

(** The locations of the merged tree are those of the target and of the
    properties of the source. *)
Lemma locs_mergeDeepL S : ∀ tps l,
  l ∈ childLocs (mergeDeepL tps S) → l ∈ childLocs tps ∨ l ∈ locs S.
Proof.
  induction S as [| | | |ls elems IH|ls sps IH] using LJson_ind;
    try (by left).
  induction IH as [|[key sv] rest Hsv _ IHrest]; intros tps l; [by left|].
  rewrite mergeDeepL_cons. intros Hl. apply IHrest in Hl.
  assert (∀ x, x ∈ locs sv → x ∈ locs (LObject ls ((key, sv) :: rest)))
    as Hsvin.
  { intros x Hx. simpl. right. apply elem_of_app. by left. }
  destruct Hl as [Hl|Hl].
  2:{ right. simpl in *. apply elem_of_cons in Hl as [->|Hl]; [by left|].
      right. apply elem_of_app. by right. }
  destruct (GeneratePackage.isPollutionKey key); [by left|].
  assert (∀ c, l ∈ childLocs (set tps key c) → l ∈ childLocs tps ∨ l ∈ locs c)
    as Hset.
  { intros c (kv & [->|Hkv]%elem_of_set & Hkvl)%elem_of_childLocs.
    - by right.
    - left. apply elem_of_childLocs. eauto. }
  simpl in Hsv. destruct sv as [| | | |ls' es|ls' svp];
    try (apply Hset in Hl as [?|?]; [by left|right; by apply Hsvin]).
  destruct (get tps key) as [[| | | |lt' es|lt' tv]|] eqn:Hget;
    try (apply Hset in Hl as [?|?]; [by left|right; by apply Hsvin]).
  apply Hset in Hl as [?|Hl]; [by left|].
  apply get_Some_elem in Hget.
  simpl in Hl. apply elem_of_cons in Hl as [->|Hl].
  - left. apply elem_of_childLocs. exists (key, LObject lt' tv).
    split; [done|]. simpl. by left.
  - apply Hsv in Hl as [Hl|Hl].
    + left. apply elem_of_childLocs. exists (key, LObject lt' tv).
      split; [done|]. simpl. by right.
    + right. by apply Hsvin.
Qed.

Lemma isPlainObject_stored h t :
  stored h t →
  isPlainObject (valueOf t) h
  = Some (match t with LObject _ _ => true | _ => false end, h).
Proof.
  inversion 1 as [| | | |? ? Hl|? ? Hl]; subst; simpl; try done;
    by rewrite Hl.
Qed.

Lemma keys_valuesOf props : Object_keys (valuesOf props) = Object_keys props.
Proof.
  unfold Object_keys, valuesOf. induction props as [|[] ? IH]; csimpl; [done|].
  by f_equal.
Qed.

Lemma NoDup_child props kv :
  NoDup (childLocs props) → kv ∈ props → NoDup (locs kv.2).
Proof.
  unfold childLocs. induction props as [|p props IH]; simpl.
  { by intros _ ?%elem_of_nil. }
  intros (Hp & _ & Hnd)%NoDup_app [->|Hin]%elem_of_cons; auto.
Qed.

(** In a tree two children of an object have no location in common. *)
Lemma children_disjoint props k1 k2 c1 c2 l :
  NoDup (childLocs props) →
  get props k1 = Some c1 → get props k2 = Some c2 → k1 ≠ k2 →
  l ∈ locs c1 → l ∉ locs c2.
Proof.
  unfold childLocs. induction props as [|[k c] props IH]; simpl; [done|].
  intros (Hc & Hdisj & Hnd)%NoDup_app H1 H2 Hne Hl1 Hl2.
  assert (∀ k' c', get props k' = Some c' → ∀ x, x ∈ locs c' →
            x ∈ concat (map (λ kv, locs kv.2) props)) as Hin.
  { intros k' c' Hget%get_Some_elem x Hx. apply elem_of_concat.
    exists (locs c'). split; [done|]. apply list_elem_of_fmap.
    by exists (k', c'). }
  destruct (String.eqb_spec k k1) as [Hk1|Hk1];
    destruct (String.eqb_spec k k2) as [Hk2|Hk2].
  - congruence.
  - injection H1 as ->. by eapply Hdisj, Hin.
  - injection H2 as ->. by eapply Hdisj, Hin.
  - by eapply IH.
Qed.

(** The three ways a turn of the loop of [mergeDeep] goes. *)
Lemma mergeDeep_body_skip rec target source key h :
  GeneratePackage.isPollutionKey key = true →
  mergeDeep_body rec target source key h = Some (tt, h).
Proof. intros Hkey. unfold mergeDeep_body. by rewrite Hkey. Qed.

Lemma mergeDeep_body_assign rec target source key h (sprops tprops : Obj value) b1 b2 :
  GeneratePackage.isPollutionKey key = false →
  h !! source = Some (CObject sprops) → h !! target = Some (CObject tprops) →
  isPlainObject (default VUndefined (get sprops key)) h = Some (b1, h) →
  isPlainObject (default VUndefined (get tprops key)) h = Some (b2, h) →
  b1 && b2 = false →
  mergeDeep_body rec target source key h
  = Some (tt, <[target := CObject (set tprops key
                                     (default VUndefined (get sprops key)))]> h).
Proof.
  intros Hkey Hs Ht H1 H2 Hb.
  unfold mergeDeep_body, getProp, readObject, bind, ret.
  rewrite Hkey, Hs. simpl. rewrite Ht. simpl. rewrite H1.
  assert (setProp target key (default VUndefined (get sprops key)) h
          = Some ((), <[target:=CObject (set tprops key
                          (default VUndefined (get sprops key)))]> h))
    as Hset by (unfold setProp; by rewrite Ht).
  destruct b1; simpl in *; [|done].
  rewrite H2. subst b2. by destruct (default VUndefined (get tprops key)).
Qed.

Lemma mergeDeep_body_recurse rec target source key h (sprops tprops : Obj value) lt ls :
  GeneratePackage.isPollutionKey key = false →
  h !! source = Some (CObject sprops) → h !! target = Some (CObject tprops) →
  get sprops key = Some (VRef ls) → get tprops key = Some (VRef lt) →
  isPlainObject (VRef ls) h = Some (true, h) →
  isPlainObject (VRef lt) h = Some (true, h) →
  mergeDeep_body rec target source key h
  = bind (rec lt ls) (λ _, ret tt) h.
Proof.
  intros Hkey Hs Ht Hgs Hgt H1 H2.
  unfold mergeDeep_body, getProp, readObject, bind at 1 2 3 4 5 6, ret.
  rewrite Hkey, Hs. simpl. rewrite Ht, Hgs, Hgt. simpl in *.
  rewrite H1. simpl. by rewrite H2.
Qed.

Lemma stored_object_inv h l props :
  stored h (LObject l props) →
  h !! l = Some (CObject (valuesOf props))
  ∧ ∀ kv, kv ∈ props → stored h kv.2.
Proof.
  inversion 1 as [| | | | |? ? Hl Hps]; subst. split; [done|].
  by apply Forall_forall.
Qed.

Lemma wfL_object_inv l props :
  wfL (LObject l props) = true →
  NoDup (Object_keys props) ∧ ∀ kv, kv ∈ props → wfL kv.2 = true.
Proof.
  simpl. intros [Hnd Hall]%andb_true_iff. split.
  - by apply bool_decide_eq_true in Hnd.
  - apply forallb_Forall in Hall. by apply Forall_forall.
Qed.

Lemma locs_child l props kv x :
  kv ∈ props → x ∈ locs kv.2 → x ∈ locs (LObject l props).
Proof.
  intros Hkv Hx. simpl. right. apply elem_of_childLocs. eauto.
Qed.

Section mergeDeep_loop.
Variables (rec : loc → loc → M loc) (h : heap) (lt ls : loc) (tps sps : LObj).
Hypothesis HT : stored h (LObject lt tps).
Hypothesis HS : stored h (LObject ls sps).
Hypothesis HwfT : wfL (LObject lt tps) = true.
Hypothesis HndS : NoDup (Object_keys sps).
Hypothesis HndT : NoDup (locs (LObject lt tps)).
Hypothesis Hdisj : ∀ l, l ∈ locs (LObject lt tps) → l ∉ locs (LObject ls sps).

Lemma loop_inv_start : loop_inv h lt ls tps sps sps tps h.
Proof.
  destruct (stored_object_inv _ _ _ HT) as [Hlt Hch].
  destruct (wfL_object_inv _ _ HwfT) as [Hnd _].
  split_and!; try done.
  intros [k c] Hkv. split; [by apply (Hch _ Hkv)|].
  intros l Hl. right. exists c. split; [|done].
  by apply get_elem_NoDup.
Qed.

Lemma loop_root_fresh c k l :
  get tps k = Some c → l ∈ locs c → l ≠ lt ∧ l ∈ locs (LObject lt tps).
Proof.
  intros Hget%get_Some_elem Hl. simpl in HndT.
  apply NoDup_cons in HndT as [Hlt _]. split.
  - intros ->. apply Hlt. apply elem_of_childLocs. eauto.
  - by eapply locs_child.
Qed.

Lemma loop_source key sv hj :
  (key, sv) ∈ sps →
  (∀ l, l ∉ locs (LObject lt tps) → hj !! l = h !! l) →
  hj !! ls = Some (CObject (valuesOf sps))
  ∧ get (valuesOf sps) key = Some (valueOf sv)
  ∧ stored hj sv
  ∧ ∀ l, l ∈ locs sv → l ∈ locs (LObject ls sps).
Proof.
  intros Hin Hframe. destruct (stored_object_inv _ _ _ HS) as [Hls HchS].
  assert (∀ l, l ∈ locs sv → l ∈ locs (LObject ls sps)) as Hsub.
  { intros l Hl. by eapply (locs_child _ _ (key, sv)). }
  split_and!; [| | |done].
  - rewrite Hframe; [done|]. intros Hx. apply (Hdisj _ Hx). simpl. by left.
  - unfold valuesOf. rewrite (get_fmap valueOf).
    by rewrite (get_elem_NoDup _ _ _ HndS Hin).
  - eapply stored_frame; [apply (HchS _ Hin)|]. intros l Hl.
    apply Hframe. intros Hx. apply (Hdisj _ Hx). by apply Hsub.
Qed.

(** A turn that assigns. *)
Lemma loop_assign key sv rest tpsj hj b1 b2 :
  (key, sv) ∈ sps → key ∉ Object_keys rest →
  GeneratePackage.isPollutionKey key = false →
  loop_inv h lt ls tps sps ((key, sv) :: rest) tpsj hj →
  isPlainObject (valueOf sv) hj = Some (b1, hj) →
  isPlainObject (default VUndefined (get (valuesOf tpsj) key)) hj
  = Some (b2, hj) →
  b1 && b2 = false →
  ∃ hj', mergeDeep_body rec lt ls key hj = Some (tt, hj')
       ∧ loop_inv h lt ls tps sps rest (set tpsj key sv) hj'.
Proof.
  intros Hin Hkey Hpk (Hnd & Hframe & Hcell & Hsame & Hch) H1 H2 Hb.
  destruct (loop_source _ _ _ Hin Hframe) as (Hls & Hgs & Hsv & Hsub).
  assert (lt ∈ locs (LObject lt tps)) as Hroot by (simpl; by left).
  eexists. split.
  { eapply mergeDeep_body_assign; try done. by rewrite Hgs. }
  rewrite Hgs. simpl. split_and!.
  - by apply NoDup_keys_set.
  - intros l Hl. rewrite lookup_insert_ne; [by apply Hframe|].
    intros <-. by apply Hl.
  - rewrite lookup_insert_eq. unfold valuesOf.
    by rewrite (set_fmap valueOf).
  - intros k Hk. rewrite get_set_ne; [|by intros <-].
    apply Hsame. unfold Object_keys. csimpl. by right.
  - intros kv [->|Hkv]%elem_of_set; simpl.
    + split; [|by left; apply Hsub].
      eapply stored_frame; [done|]. intros l Hl.
      rewrite lookup_insert_ne; [done|]. intros <-.
      by apply (Hdisj _ Hroot), Hsub.
    + destruct (Hch _ Hkv) as [Hst Hlocs]. split; [|done].
      eapply stored_frame; [done|]. intros l Hl.
      rewrite lookup_insert_ne; [done|]. intros <-.
      destruct (Hlocs _ Hl) as [Hx|(c0 & Hget & Hx)].
      * by apply (Hdisj _ Hroot).
      * by destruct (loop_root_fresh _ _ _ Hget Hx).
Qed.

(** A turn that goes into the two objects. *)
Lemma loop_recurse key lsv svp ltv tvp rest tpsj hj :
  (key, LObject lsv svp) ∈ sps → key ∉ Object_keys rest →
  GeneratePackage.isPollutionKey key = false →
  merges rec (LObject lsv svp) →
  loop_inv h lt ls tps sps ((key, LObject lsv svp) :: rest) tpsj hj →
  get tpsj key = Some (LObject ltv tvp) →
  ∃ hj', mergeDeep_body rec lt ls key hj = Some (tt, hj')
       ∧ loop_inv h lt ls tps sps rest
           (set tpsj key (LObject ltv (mergeDeepL tvp (LObject lsv svp)))) hj'.
Proof.
  intros Hin Hkey Hpk Hrec (Hnd & Hframe & Hcell & Hsame & Hch) Hgt.
  destruct (loop_source _ _ _ Hin Hframe) as (Hls & Hgs & Hsv & Hsub).
  assert (get tps key = Some (LObject ltv tvp)) as Hgt0.
  { rewrite <-Hgt. symmetry. apply Hsame. unfold Object_keys. csimpl.
    by left. }
  assert (∀ l, l ∈ locs (LObject ltv tvp) →
            l ≠ lt ∧ l ∈ locs (LObject lt tps)) as Horig.
  { intros l. by apply loop_root_fresh with key. }
  destruct (Hch _ (get_Some_elem _ _ _ Hgt)) as [Htv _]. simpl in Htv.
  destruct (wfL_object_inv _ _ HwfT) as [HndK HwfC].
  assert (NoDup (childLocs tps)) as HndC.
  { simpl in HndT. by apply NoDup_cons in HndT as [_ ?]. }
  destruct (Hrec lsv svp eq_refl hj ltv tvp) as (h' & Hrun & Hst' & Hfr');
    try done.
  { apply (HwfC _ (get_Some_elem _ _ _ Hgt0)). }
  { apply (NoDup_child _ _ HndC (get_Some_elem _ _ _ Hgt0)). }
  { intros l [_ Hl]%Horig Hx. by apply (Hdisj _ Hl), Hsub. }
  assert (get (valuesOf tpsj) key = Some (VRef ltv)) as Hgv.
  { unfold valuesOf. by rewrite (get_fmap valueOf), Hgt. }
  exists h'. split.
  { erewrite mergeDeep_body_recurse; try done.
    - unfold bind. by rewrite Hrun.
    - apply (isPlainObject_stored _ _ Hsv).
    - apply (isPlainObject_stored _ _ Htv). }
  split_and!.
  - by apply NoDup_keys_set.
  - intros l Hl. rewrite Hfr'; [by apply Hframe|].
    intros [_ ?]%Horig. by apply Hl.
  - rewrite Hfr'; [|intros [? _]%Horig; done]. rewrite Hcell.
    unfold valuesOf. rewrite (set_fmap valueOf). simpl.
    by rewrite set_same.
  - intros k Hk. rewrite get_set_ne; [|by intros <-].
    apply Hsame. unfold Object_keys. csimpl. by right.
  - intros kv Hkv.
    destruct (elem_of_set_NoDup _ _ _ _ Hnd Hkv) as [->|[Hkv' Hne]];
      cbn [fst snd].
    + split; [done|]. cbn [locs]. intros l [->|Hl]%elem_of_cons.
      * right. exists (LObject ltv tvp). split; [done|]. simpl. by left.
      * apply (locs_mergeDeepL (LObject lsv svp)) in Hl as [Hl|Hl];
          [right|left; by apply Hsub].
        exists (LObject ltv tvp). split; [done|]. simpl. by right.
    + destruct (Hch _ Hkv') as [Hst Hlocs]. split; [|done].
      eapply stored_frame; [done|]. intros l Hl. apply Hfr'.
      intros Hx. destruct (Hlocs _ Hl) as [Hy|(c0 & Hget & Hy)].
      * apply Horig in Hx as [_ Hx]. by apply (Hdisj _ Hx).
      * by apply (children_disjoint _ _ _ _ _ _ HndC Hget Hgt0 Hne Hy).
Qed.

(** Every turn of the loop keeps the invariant. *)
Lemma loop_turn key sv rest tpsj hj :
  (key, sv) ∈ sps → key ∉ Object_keys rest →
  merges rec sv →
  loop_inv h lt ls tps sps ((key, sv) :: rest) tpsj hj →
  ∃ hj', mergeDeep_body rec lt ls key hj = Some (tt, hj')
       ∧ loop_inv h lt ls tps sps rest
           (if GeneratePackage.isPollutionKey key then tpsj
            else match sv, get tpsj key with
                 | LObject _ _, Some (LObject ltv tvp) =>
                     set tpsj key (LObject ltv (mergeDeepL tvp sv))
                 | _, _ => set tpsj key sv
                 end) hj'.
Proof.
  intros Hin Hkey Hrec Hinv.
  destruct (GeneratePackage.isPollutionKey key) eqn:Hpk.
  { exists hj. split; [by apply mergeDeep_body_skip|].
    destruct Hinv as (Hnd & Hframe & Hcell & Hsame & Hch).
    split_and!; try done. intros k Hk. apply Hsame.
    unfold Object_keys. csimpl. by right. }
  pose proof Hinv as (Hnd & Hframe & Hcell & Hsame & Hch).
  destruct (loop_source _ _ _ Hin Hframe) as (Hls & Hgs & Hsv & Hsub).
  pose proof (isPlainObject_stored _ _ Hsv) as H1.
  assert (∃ b2, isPlainObject
                  (default VUndefined (get (valuesOf tpsj) key)) hj
                = Some (b2, hj)
              ∧ b2 = match get tpsj key with
                     | Some (LObject _ _) => true
                     | _ => false
                     end) as (b2 & H2 & Hb2).
  { unfold valuesOf. rewrite (get_fmap valueOf).
    destruct (get tpsj key) as [tv|] eqn:Hgt; simpl; [|by eexists].
    destruct (Hch _ (get_Some_elem _ _ _ Hgt)) as [Htv _].
    eexists. split; [apply (isPlainObject_stored _ _ Htv)|done]. }
  destruct sv as [| | | |lsv es|lsv svp];
    try (eapply loop_assign; by eauto).
  destruct (get tpsj key) as [[| | | |ltv es|ltv tvp]|] eqn:Hgt;
    try (eapply loop_assign; eauto; by subst b2).
  by eapply loop_recurse.
Qed.

(** The loop, from any turn on. *)
Lemma loop_run rest : ∀ tpsj hj,
  rest ⊆ sps → NoDup (Object_keys rest) →
  Forall (λ kv, merges rec kv.2) rest →
  loop_inv h lt ls tps sps rest tpsj hj →
  ∃ hf, forEach (Object_keys rest) (mergeDeep_body rec lt ls) hj
        = Some (tt, hf)
      ∧ (∀ l, l ∉ locs (LObject lt tps) → hf !! l = h !! l)
      ∧ stored hf (LObject lt (mergeDeepL tpsj (LObject ls rest))).
Proof.
  unfold Object_keys.
  induction rest as [|[key sv] rest IH]; intros tpsj hj Hsub Hnd Hrec Hinv.
  - exists hj. destruct Hinv as (_ & Hframe & Hcell & _ & Hch).
    split_and!; [done|done|]. simpl. constructor; [done|].
    apply Forall_forall. intros kv Hkv. by apply Hch.
  - csimpl in Hnd. apply NoDup_cons in Hnd as [Hkey Hnd].
    apply Forall_cons in Hrec as [Hsv Hrec].
    destruct (loop_turn key sv rest tpsj hj) as (hj' & Hturn & Hinv');
      [apply Hsub; by left|done|done|done|].
    destruct (IH _ _ (λ x Hx, Hsub x (list_elem_of_further _ _ _ Hx))
                Hnd Hrec Hinv') as (hf & Hrun & Hframe & Hst).
    exists hf. split_and!; [|done|by rewrite mergeDeepL_cons].
    csimpl. unfold bind. by rewrite Hturn.
Qed.
End mergeDeep_loop.

(** With enough fuel [mergeDeep] on the store does to a tree what
    [mergeDeepL] says. *)
Lemma mergeDeep_merges S : ∀ fuel,
  depth (erase S) ≤ fuel → wfL S = true → merges (mergeDeep fuel) S.
Proof.
  induction S as [| | | |l elems IH|l props IH] using LJson_ind;
    intros fuel Hfuel Hwf ls sps Heq; try done.
  injection Heq as -> ->. intros h lt tps HwfT HT HS HndT Hdisj.
  destruct fuel as [|fuel]; [simpl in Hfuel; lia|].
  destruct (wfL_object_inv _ _ Hwf) as [HndS HwfC].
  destruct (stored_object_inv _ _ _ HS) as [Hls _].
  destruct (loop_run (mergeDeep fuel) h lt ls tps sps HS HwfT HndS HndT
              Hdisj sps tps h) as (hf & Hrun & Hframe & Hst);
    [done|done| |by apply loop_inv_start|].
  { rewrite Forall_forall in IH. apply Forall_forall. intros [k c] Hin.
    apply (IH _ Hin); [|by apply (HwfC _ Hin)].
    cbn [snd].
    assert (depth (erase c) < depth (erase (LObject ls sps))); [|lia].
    apply (depth_entry k). cbn [erase]. apply list_elem_of_fmap.
    by exists (k, c). }
  exists hf. split_and!; [|done|done].
  cbn [mergeDeep]. unfold bind, readObject. rewrite Hls.
  by rewrite keys_valuesOf, Hrun.
Qed.

(** X30: the in-place [mergeDeep] refines the merge of trees: on a target
    and a source that are trees of the store with no cell in common, and
    with enough fuel for the depth of the source, it returns the target,
    which then holds the merged tree; it leaves the source as it was and
    writes no cell outside the target. *)
Theorem mergeDeep_refines h lt tps ls sps fuel :
  stored h (LObject lt tps) → stored h (LObject ls sps) →
  wfL (LObject lt tps) = true → wfL (LObject ls sps) = true →
  NoDup (locs (LObject lt tps)) →
  (∀ l, l ∈ locs (LObject lt tps) → l ∉ locs (LObject ls sps)) →
  depth (erase (LObject ls sps)) ≤ fuel →
  ∃ h', mergeDeep fuel lt ls h = Some (lt, h')
      ∧ repr h' (VRef lt)
          (JObject (GeneratePackage.mergeDeep (eraseProps tps)
                                              (eraseProps sps)))
      ∧ repr h' (VRef ls) (JObject (eraseProps sps))
      ∧ ∀ l, l ∉ locs (LObject lt tps) → h' !! l = h !! l.
Proof.
  intros HT HS HwfT HwfS HndT Hdisj Hfuel.
  destruct (mergeDeep_merges _ _ Hfuel HwfS ls sps eq_refl h lt tps)
    as (h' & Hrun & Hst & Hframe); try done.
  exists h'. split_and!; [done| | |done].
  - apply stored_repr in Hst. cbn [valueOf erase] in Hst.
    fold (eraseProps (mergeDeepL tps (LObject ls sps))) in Hst.
    by rewrite erase_mergeDeepL in Hst.
  - apply (stored_repr h' (LObject ls sps)).
    eapply stored_frame; [done|]. intros l Hl. apply Hframe.
    intros Hx. by apply (Hdisj _ Hx).
Qed.

(** The manifest and the fragment of [mergeDeep_on_store] are such trees. *)
Lemma mergeDeep_refines_on_store :
  let h : heap :=
    {[ 0 := CObject [("name", VString "x"); ("engines", VRef 1)];
       1 := CObject [("node", VString ">=18")];
       2 := CObject [("name", VString "y"); ("engines", VRef 3);
                     ("constructor", VRef 4); ("files", VRef 5)];
       3 := CObject [("npm", VString ">=9")];
       4 := CObject [];
       5 := CArray [VString "dist"] ]} in
  ∃ h', mergeDeep 2 0 2 h = Some (0, h')
      ∧ repr h' (VRef 0)
          (JObject [("name", JString "y");
                    ("engines", JObject [("node", JString ">=18");
                                         ("npm", JString ">=9")]);
                    ("files", JArray [JString "dist"])])
      ∧ h' !! 2 = h !! 2.
Proof.
  intros h.
  destruct (mergeDeep_refines h
              0 [("name", LString "x");
                 ("engines", LObject 1 [("node", LString ">=18")])]
              2 [("name", LString "y");
                 ("engines", LObject 3 [("npm", LString ">=9")]);
                 ("constructor", LObject 4 []);
                 ("files", LArray 5 [LString "dist"])] 2)
    as (h' & Hrun & Hrepr & _ & Hframe).
  - repeat (constructor; try reflexivity).
  - repeat (constructor; try reflexivity).
  - reflexivity.
  - reflexivity.
  - simpl. apply NoDup_ListNoDup. repeat constructor; simpl; intuition lia.
  - simpl. intros l Hl Hx. repeat (apply elem_of_cons in Hl as [->|Hl]);
      try (by apply elem_of_nil in Hl);
      repeat (apply elem_of_cons in Hx as [?|Hx]); try lia;
      by apply elem_of_nil in Hx.
  - simpl. lia.
  - exists h'. split_and!; [done|done|]. apply Hframe. simpl.
    intros Hx. repeat (apply elem_of_cons in Hx as [?|Hx]); try lia.
    by apply elem_of_nil in Hx.
Defined.
End located_facts.

(** * Further properties of the code *)

(** ** The arguments of the command line *)

Section args_facts.
Import Args.

Lemma isGlobalFlag_false a :
  isGlobalFlag a = false ↔
  a ≠ "--cwd" ∧ a ≠ "--verbose" ∧ a ≠ "--help" ∧ a ≠ "-h".
Proof.
  unfold isGlobalFlag. rewrite !orb_false_iff, !String.eqb_neq. tauto.
Qed.

Lemma stripGlobalFlags_cons a rest :
  isGlobalFlag a = false →
  stripGlobalFlags (a :: rest) = a :: stripGlobalFlags rest.
Proof.
  intros (H1 & H2 & H3 & H4)%isGlobalFlag_false. simpl.
  apply String.eqb_neq in H1, H2, H3, H4. by rewrite H1, H2, H3, H4.
Qed.

(** Induction on a list, two elements at a time where needed. *)
Lemma list_pair_ind {A} (P : list A → Prop) :
  P [] → (∀ a, P [a]) →
  (∀ a b l, P l → P (b :: l) → P (a :: b :: l)) →
  ∀ l, P l.
Proof.
  intros Hnil Hone Hstep l.
  assert (P l ∧ ∀ a, P (a :: l)) as [? _]; [|done].
  induction l as [|b l [IH1 IH2]]; [by split|].
  split; [apply IH2|]. intros a. by apply Hstep.
Qed.

Lemma stripGlobalFlags_sublist argv : stripGlobalFlags argv `sublist_of` argv.
Proof.
  induction argv as [|a|a b l IH1 IH2] using list_pair_ind; [done| |].
  - simpl. repeat case_match; by repeat constructor.
  - cbn -[String.eqb]. cbn -[String.eqb] in IH2.
    destruct (String.eqb a "--cwd"); [by do 2 apply sublist_cons|].
    destruct (String.eqb a "--verbose"); [by apply sublist_cons|].
    destruct (String.eqb a "--help" || String.eqb a "-h");
      [by apply sublist_cons|by apply sublist_skip].
Qed.

Lemma stripGlobalFlags_clean argv :
  Forall (λ a, isGlobalFlag a = false) (stripGlobalFlags argv).
Proof.
  induction argv as [|a|a b l IH1 IH2] using list_pair_ind; [done| |].
  - unfold stripGlobalFlags, isGlobalFlag.
    destruct (String.eqb a "--cwd") eqn:E1; [done|].
    destruct (String.eqb a "--verbose") eqn:E2; [done|].
    destruct (String.eqb a "--help") eqn:E3; [done|].
    destruct (String.eqb a "-h") eqn:E4; [done|].
    constructor; [|done]. by rewrite E1, E2, E3, E4.
  - change (stripGlobalFlags (a :: b :: l)) with
      (if String.eqb a "--cwd" then stripGlobalFlags l
       else if String.eqb a "--verbose" then stripGlobalFlags (b :: l)
       else if String.eqb a "--help" || String.eqb a "-h"
            then stripGlobalFlags (b :: l)
       else a :: stripGlobalFlags (b :: l)).
    destruct (String.eqb a "--cwd") eqn:E1; [done|].
    destruct (String.eqb a "--verbose") eqn:E2; [done|].
    destruct (String.eqb a "--help") eqn:E3; [done|].
    destruct (String.eqb a "-h") eqn:E4; [done|].
    constructor; [|done]. unfold isGlobalFlag. by rewrite E1, E2, E3, E4.
Qed.

Lemma stripGlobalFlags_id argv :
  Forall (λ a, isGlobalFlag a = false) argv → stripGlobalFlags argv = argv.
Proof.
  induction 1 as [|a l Ha _ IH]; [done|].
  by rewrite stripGlobalFlags_cons, IH.
Qed.

(** What [main] hands to a command. *)
Lemma route_RunCommand argv c cwd v rest :
  Cli.route argv = Cli.RunCommand c cwd v rest →
  ∃ cmd args,
    argv = cmd :: args ∧ isGlobalFlag cmd = false
    ∧ cmd = match c with
            | Cli.generate_package => "generate-package"
            | Cli.update_package => "update-package"
            | Cli.merge_vscode_config => "merge-vscode-config"
            end
    ∧ cwd = getFlagValue args "--cwd"
    ∧ v = hasFlag args "--verbose"
    ∧ rest = stripGlobalFlags args.
Proof.
  unfold Cli.route. destruct argv as [|cmd args]; [done|].
  cbn [head from_option id].
  destruct (String.eqb cmd "--help" || String.eqb cmd "-h"); [done|].
  intros Hroute. exists cmd, args.
  assert (cmd = "generate-package" ∨ cmd = "update-package"
          ∨ cmd = "merge-vscode-config") as Hcmd.
  { revert Hroute.
    destruct (String.eqb_spec cmd "generate-package"); [by left|].
    destruct (String.eqb_spec cmd "update-package"); [by right; left|].
    destruct (String.eqb_spec cmd "merge-vscode-config"); [by right; right|].
    done. }
  assert (isGlobalFlag cmd = false) as Hflag
    by (by destruct Hcmd as [-> | [-> | ->]]).
  rewrite stripGlobalFlags_cons in Hroute by done.
  assert (getFlagValue (cmd :: args) "--cwd" = getFlagValue args "--cwd")
    as Hcwd by (by destruct Hcmd as [-> | [-> | ->]]).
  assert (hasFlag (cmd :: args) "--verbose" = hasFlag args "--verbose")
    as Hverbose by (by destruct Hcmd as [-> | [-> | ->]]).
  rewrite Hcwd, Hverbose in Hroute. cbn [drop] in Hroute.
  destruct Hcmd as [-> | [-> | ->]]; cbn in Hroute;
    injection Hroute as <- <- <- <-; by split_and!.
Qed.

(** The loop of [parseArgs], one turn at a time: a flag that takes a value
    takes the next argument and the loop goes on after it. *)
Lemma parseArgsFrom_step o a rest :
  MergeVscodeArgs.parseArgsFrom o (a :: rest)
  = let next set flag :=
      match MergeVscodeArgs.requireValue (head rest) flag with
      | inl e => inl e
      | inr v => MergeVscodeArgs.parseArgsFrom (set o v) (tail rest)
      end in
    if String.eqb a "--help" then
      MergeVscodeArgs.parseArgsFrom
        (MergeVscodeConfig.mkCliOptions (MergeVscodeConfig.base o)
           (MergeVscodeConfig.local o) (MergeVscodeConfig.out o)
           (MergeVscodeConfig.verbose o) (MergeVscodeConfig.dryRun o)
           (MergeVscodeConfig.check o) true) rest
    else if String.eqb a "--verbose" then
      MergeVscodeArgs.parseArgsFrom
        (MergeVscodeConfig.mkCliOptions (MergeVscodeConfig.base o)
           (MergeVscodeConfig.local o) (MergeVscodeConfig.out o) true
           (MergeVscodeConfig.dryRun o) (MergeVscodeConfig.check o)
           (MergeVscodeConfig.help o)) rest
    else if String.eqb a "--dry-run" then
      MergeVscodeArgs.parseArgsFrom
        (MergeVscodeConfig.mkCliOptions (MergeVscodeConfig.base o)
           (MergeVscodeConfig.local o) (MergeVscodeConfig.out o)
           (MergeVscodeConfig.verbose o) true (MergeVscodeConfig.check o)
           (MergeVscodeConfig.help o)) rest
    else if String.eqb a "--check" then
      MergeVscodeArgs.parseArgsFrom
        (MergeVscodeConfig.mkCliOptions (MergeVscodeConfig.base o)
           (MergeVscodeConfig.local o) (MergeVscodeConfig.out o)
           (MergeVscodeConfig.verbose o) (MergeVscodeConfig.dryRun o) true
           (MergeVscodeConfig.help o)) rest
    else if String.eqb a "--base" then next MergeVscodeArgs.withBase "--base"
    else if String.eqb a "--local" then
      next MergeVscodeArgs.withLocal "--local"
    else if String.eqb a "--out" then next MergeVscodeArgs.withOut "--out"
    else inl (MergeVscodeConfig.mkNannyError ("Unknown argument: " +:+ a) 1).
Proof. by destruct rest. Qed.

(** A property of the options that every turn of the loop keeps holds of
    the options [parseArgs] returns. *)
Lemma parseArgsFrom_keeps (P : MergeVscodeConfig.CliOptions → Prop)
    (Q : string → Prop) argv :
  Forall Q argv →
  (Q "--help" → ∀ o, P o →
     P (MergeVscodeConfig.mkCliOptions (MergeVscodeConfig.base o)
          (MergeVscodeConfig.local o) (MergeVscodeConfig.out o)
          (MergeVscodeConfig.verbose o) (MergeVscodeConfig.dryRun o)
          (MergeVscodeConfig.check o) true)) →
  (Q "--verbose" → ∀ o, P o →
     P (MergeVscodeConfig.mkCliOptions (MergeVscodeConfig.base o)
          (MergeVscodeConfig.local o) (MergeVscodeConfig.out o) true
          (MergeVscodeConfig.dryRun o) (MergeVscodeConfig.check o)
          (MergeVscodeConfig.help o))) →
  (∀ o b, P o →
     P (MergeVscodeConfig.mkCliOptions (MergeVscodeConfig.base o)
          (MergeVscodeConfig.local o) (MergeVscodeConfig.out o)
          (MergeVscodeConfig.verbose o) b (MergeVscodeConfig.check o)
          (MergeVscodeConfig.help o))) →
  (∀ o b, P o →
     P (MergeVscodeConfig.mkCliOptions (MergeVscodeConfig.base o)
          (MergeVscodeConfig.local o) (MergeVscodeConfig.out o)
          (MergeVscodeConfig.verbose o) (MergeVscodeConfig.dryRun o) b
          (MergeVscodeConfig.help o))) →
  (∀ o v, P o → v ≠ "" → String.prefix "--" v = false →
     P (MergeVscodeArgs.withBase o v) ∧ P (MergeVscodeArgs.withLocal o v)
     ∧ P (MergeVscodeArgs.withOut o v)) →
  ∀ o o', P o → MergeVscodeArgs.parseArgsFrom o argv = inr o' → P o'.
Proof.
  intros HQ Hhelp Hverbose Hdry Hcheck Hpath.
  assert (∀ v flag w, MergeVscodeArgs.requireValue v flag = inr w →
            w ≠ "" ∧ String.prefix "--" w = false) as Hreq.
  { intros [v|] flag w; [|done]. unfold MergeVscodeArgs.requireValue.
    destruct (String.eqb_spec v ""); [done|].
    destruct (String.prefix "--" v) eqn:E; [done|]. by intros [= <-]. }
  induction argv as [|a|a b l IH1 IH2] using list_pair_ind; intros o o' Ho.
  - by intros [= <-].
  - apply Forall_cons in HQ as [Ha _].
    rewrite parseArgsFrom_step. cbv zeta. cbn [head tail].
    destruct (String.eqb_spec a "--help") as [->|_];
      [intros [= <-]; by apply Hhelp|].
    destruct (String.eqb_spec a "--verbose") as [->|_];
      [intros [= <-]; by apply Hverbose|].
    destruct (String.eqb a "--dry-run"); [intros [= <-]; by apply Hdry|].
    destruct (String.eqb a "--check"); [intros [= <-]; by apply Hcheck|].
    by repeat case_match.
  - pose proof HQ as [Ha Hbl]%Forall_cons.
    pose proof Hbl as [_ Hl]%Forall_cons.
    rewrite parseArgsFrom_step. cbv zeta. cbn [head tail].
    destruct (String.eqb_spec a "--help") as [->|_];
      [apply IH2; [done|]; by apply Hhelp|].
    destruct (String.eqb_spec a "--verbose") as [->|_];
      [apply IH2; [done|]; by apply Hverbose|].
    destruct (String.eqb a "--dry-run"); [apply IH2; [done|]; by apply Hdry|].
    destruct (String.eqb a "--check"); [apply IH2; [done|]; by apply Hcheck|].
    destruct (String.eqb a "--base").
    { destruct (MergeVscodeArgs.requireValue (Some b) _) as [|w] eqn:E;
        [done|]. apply Hreq in E as [? ?]. apply IH1; [done|].
      by apply Hpath. }
    destruct (String.eqb a "--local").
    { destruct (MergeVscodeArgs.requireValue (Some b) _) as [|w] eqn:E;
        [done|]. apply Hreq in E as [? ?]. apply IH1; [done|].
      by apply Hpath. }
    destruct (String.eqb a "--out"); [|done].
    destruct (MergeVscodeArgs.requireValue (Some b) _) as [|w] eqn:E;
      [done|]. apply Hreq in E as [? ?]. apply IH1; [done|].
    by apply Hpath.
Qed.

(** Every error of [parseArgs] has the exit code 1. *)
Lemma parseArgsFrom_error argv : ∀ o e,
  MergeVscodeArgs.parseArgsFrom o argv = inl e →
  MergeVscodeConfig.exitCode e = 1%Z.
Proof.
  assert (∀ v flag e, MergeVscodeArgs.requireValue v flag = inl e →
            MergeVscodeConfig.exitCode e = 1%Z) as Hreq.
  { intros [v|] flag e; unfold MergeVscodeArgs.requireValue;
      repeat case_match; try done; by intros [= <-]. }
  induction argv as [|a|a b l IH1 IH2] using list_pair_ind; intros o e.
  - done.
  - rewrite parseArgsFrom_step. cbv zeta. cbn [head tail].
    repeat case_match; try done; intros [= <-]; by eauto.
  - rewrite parseArgsFrom_step. cbv zeta. cbn [head tail].
    destruct (String.eqb a "--help"); [apply IH2|].
    destruct (String.eqb a "--verbose"); [apply IH2|].
    destruct (String.eqb a "--dry-run"); [apply IH2|].
    destruct (String.eqb a "--check"); [apply IH2|].
    destruct (String.eqb a "--base").
    { destruct (MergeVscodeArgs.requireValue (Some b) _) as [e'|w] eqn:E;
        [intros [= <-]; by eapply Hreq|apply IH1]. }
    destruct (String.eqb a "--local").
    { destruct (MergeVscodeArgs.requireValue (Some b) _) as [e'|w] eqn:E;
        [intros [= <-]; by eapply Hreq|apply IH1]. }
    destruct (String.eqb a "--out"); [|by intros [= <-]].
    destruct (MergeVscodeArgs.requireValue (Some b) _) as [e'|w] eqn:E;
      [intros [= <-]; by eapply Hreq|apply IH1].
Qed.
End args_facts.

Section args_properties.
Import Args.

(** X1: [stripGlobalFlags] keeps the arguments it keeps in their order,
    leaves none of [--cwd], [--verbose], [--help] and [-h] in its result,
    and applied to its own result it changes nothing. *)
Theorem stripGlobalFlags_strips (argv : list string) :
  stripGlobalFlags argv `sublist_of` argv
  ∧ Forall (λ a, isGlobalFlag a = false) (stripGlobalFlags argv)
  ∧ stripGlobalFlags (stripGlobalFlags argv) = stripGlobalFlags argv.
Proof.
  split_and!.
  - apply stripGlobalFlags_sublist.
  - apply stripGlobalFlags_clean.
  - apply stripGlobalFlags_id, stripGlobalFlags_clean.
Qed.

(** X2: [getFlagValue] returns a value exactly when the first occurrence of
    the flag is followed by an argument that is not empty and does not start
    with a dash, and the value is that argument; a later occurrence of the
    flag is never looked at. *)
Theorem getFlagValue_first (argv : list string) (name v : string) :
  getFlagValue argv name = Some v ↔
  ∃ pre post : list string,
    argv = (pre ++ name :: v :: post)%list ∧ (name ∉ pre)
    ∧ v ≠ "" ∧ String.prefix "-" v = false.
Proof.
  split.
  - induction argv as [|a rest IH]; [done|]. simpl.
    destruct (String.eqb_spec a name) as [->|Hne].
    + destruct rest as [|value post]; [done|].
      destruct (String.eqb_spec value ""); [done|].
      destruct (String.prefix "-" value) eqn:E; [done|].
      intros [= ->]. exists [], post. split_and!; try done.
      apply not_elem_of_nil.
    + intros (pre & post & -> & Hpre & Hv)%IH.
      exists (a :: pre), post. split_and!; try done; [|apply Hv|apply Hv].
      apply not_elem_of_cons. by split.
  - intros (pre & post & -> & Hpre & Hv & Hdash).
    induction pre as [|a pre IH]; simpl.
    + rewrite String.eqb_refl. apply String.eqb_neq in Hv.
      by rewrite Hv, Hdash.
    + apply not_elem_of_cons in Hpre as [Hne Hpre].
      apply not_eq_sym, String.eqb_neq in Hne. rewrite Hne. by apply IH.
Qed.

(** X3: when [main] calls a command, the first argument is the name of the
    command and the command gets the arguments after its name with the
    global flags taken out: the value of [--cwd] and the verbosity are read
    from them, and none of [--cwd], [--verbose], [--help] and [-h] is left
    in what the command is given. *)
Theorem route_hands_over (argv : list string) (c : Cli.Command)
    (cwd : option string) (v : bool) (rest : list string) :
  Cli.route argv = Cli.RunCommand c cwd v rest →
  head argv = Some (match c with
                    | Cli.generate_package => "generate-package"
                    | Cli.update_package => "update-package"
                    | Cli.merge_vscode_config => "merge-vscode-config"
                    end)
  ∧ cwd = getFlagValue (tail argv) "--cwd"
  ∧ v = hasFlag (tail argv) "--verbose"
  ∧ rest = stripGlobalFlags (tail argv)
  ∧ Forall (λ a, isGlobalFlag a = false) rest.
Proof.
  intros (cmd & args & -> & _ & -> & -> & -> & ->)%route_RunCommand.
  split_and!; try done. apply stripGlobalFlags_clean.
Qed.

Lemma route_hands_over_witness :
  Cli.route ["merge-vscode-config"; "--cwd"; "/repo"; "--verbose"; "--check"]
  = Cli.RunCommand Cli.merge_vscode_config (Some "/repo") true ["--check"]
  ∧ Forall (λ a, isGlobalFlag a = false) ["--check"].
Proof.
  split; [reflexivity|].
  apply (route_hands_over
           ["merge-vscode-config"; "--cwd"; "/repo"; "--verbose"; "--check"]
           Cli.merge_vscode_config (Some "/repo") true ["--check"]).
  reflexivity.
Defined.

(** X4: the options of merge-vscode-config that come from a call through
    [main] never ask for the help of the command, and they are verbose
    exactly when [--verbose] is among the arguments of the command line:
    [--help] and [--verbose] are taken out before the command reads its
    arguments. *)
Theorem merge_vscode_help_unreachable (argv : list string)
    (cwd : option string) (v : bool) (rest : list string)
    (o : MergeVscodeConfig.CliOptions) :
  Cli.route argv = Cli.RunCommand Cli.merge_vscode_config cwd v rest →
  MergeVscodeArgs.parseArgs rest v = inr o →
  MergeVscodeConfig.help o = false
  ∧ MergeVscodeConfig.verbose o = hasFlag (tail argv) "--verbose".
Proof.
  intros (cmd & args & -> & _ & _ & _ & -> & ->)%route_RunCommand Hparse.
  cbn [tail].
  apply (parseArgsFrom_keeps
           (λ o, MergeVscodeConfig.help o = false
                 ∧ MergeVscodeConfig.verbose o = hasFlag args "--verbose")
           (λ a, isGlobalFlag a = false) (stripGlobalFlags args))
    with (o := MergeVscodeArgs.defaults (hasFlag args "--verbose"));
    try done.
  apply stripGlobalFlags_clean.
Qed.

Lemma merge_vscode_help_unreachable_witness :
  let argv := ["merge-vscode-config"; "--help"; "--out"; "x.json"] in
  MergeVscodeArgs.parseArgs ["--out"; "x.json"] false
  = inr (MergeVscodeConfig.mkCliOptions ".vscode/settings.base.jsonc"
           ".vscode/settings.local.jsonc" "x.json" false false false false)
  ∧ MergeVscodeConfig.help
      (MergeVscodeConfig.mkCliOptions ".vscode/settings.base.jsonc"
         ".vscode/settings.local.jsonc" "x.json" false false false false)
    = false.
Proof.
  intros argv. split; [reflexivity|].
  apply (merge_vscode_help_unreachable argv None false ["--out"; "x.json"]);
    reflexivity.
Defined.

(** X5: update-package called through [main] reads no argument of its own:
    with nothing left after the global flags it runs with the verbosity of
    the command line and without help, and anything left is rejected as an
    unknown argument with the exit code 1. *)
Theorem update_package_takes_no_argument (argv : list string)
    (cwd : option string) (v : bool) (rest : list string) :
  Cli.route argv = Cli.RunCommand Cli.update_package cwd v rest →
  UpdatePackageArgs.parseArgs rest v
  = match rest with
    | [] => inr (UpdatePackageArgs.mkOptions v false)
    | a :: _ =>
        inl (MergeVscodeConfig.mkNannyError ("Unknown argument: " +:+ a) 1)
    end.
Proof.
  intros (cmd & args & -> & _ & _ & _ & -> & ->)%route_RunCommand.
  pose proof (stripGlobalFlags_clean args) as Hclean.
  destruct (stripGlobalFlags args) as [|a rest]; [done|].
  apply Forall_cons in Hclean as [(_ & H2 & H3 & _)%isGlobalFlag_false _].
  apply String.eqb_neq in H2, H3.
  unfold UpdatePackageArgs.parseArgs. simpl. by rewrite H2, H3.
Qed.

Lemma update_package_takes_no_argument_witness :
  UpdatePackageArgs.parseArgs ["--dry-run"] true
  = inl (MergeVscodeConfig.mkNannyError "Unknown argument: --dry-run" 1).
Proof.
  apply (update_package_takes_no_argument
           ["update-package"; "--verbose"; "--dry-run"] None true
           ["--dry-run"]).
  reflexivity.
Defined.

(** X6: [parseArgs] of merge-vscode-config fails with the exit code 1 only,
    and the three paths of the options it returns are never empty and never
    start with two dashes: a flag is never taken for the value of [--base],
    [--local] or [--out]. *)
Theorem parseArgs_paths (argv : list string) (globalVerbose : bool) :
  match MergeVscodeArgs.parseArgs argv globalVerbose with
  | inl e => MergeVscodeConfig.exitCode e = 1%Z
  | inr o =>
      ∀ p, p ∈ [MergeVscodeConfig.base o; MergeVscodeConfig.local o;
                MergeVscodeConfig.out o] →
           p ≠ "" ∧ String.prefix "--" p = false
  end.
Proof.
  destruct (MergeVscodeArgs.parseArgs argv globalVerbose) as [e|o] eqn:E.
  - by apply parseArgsFrom_error in E.
  - revert E. unfold MergeVscodeArgs.parseArgs.
    apply (parseArgsFrom_keeps
             (λ o, ∀ p, p ∈ [MergeVscodeConfig.base o;
                             MergeVscodeConfig.local o;
                             MergeVscodeConfig.out o] →
                        p ≠ "" ∧ String.prefix "--" p = false)
             (λ _, True) argv); try done.
    + by apply Forall_true.
    + intros o0 w Ho0 Hw Hpre. split_and!; intros p Hp;
        repeat (apply elem_of_cons in Hp as [->|Hp]); try done;
        try (by apply elem_of_nil in Hp); apply Ho0; simpl; set_solver.
    + intros p Hp. repeat (apply elem_of_cons in Hp as [->|Hp]); try done.
      by apply elem_of_nil in Hp.
Qed.
End args_properties.

(** ** The run of merge-vscode-config *)

Section run_facts.
Import JS MergeVscodeConfig.
Variable parseJsonc : string → string + option Json.

(** Reading a file depends on the text of that file only. *)
Lemma readJsoncObject_insert fs path other text :
  other ≠ path →
  readJsoncObject parseJsonc (<[other := text]> fs) path
  = readJsoncObject parseJsonc fs path.
Proof.
  intros Hne. unfold readJsoncObject. by rewrite lookup_insert_ne.
Qed.

(** The run, once the two inputs are read. *)
Lemma run_read options fs baseJson localJson :
  help options = false →
  is_Some (fs !! base options) →
  readJsoncObject parseJsonc fs (base options) = inr baseJson →
  match fs !! local options with
  | Some _ => readJsoncObject parseJsonc fs (local options)
  | None => inr []
  end = inr localJson →
  runMergeVscodeConfig parseJsonc options fs
  = let formatted :=
      JSON.stringify (JObject (deepMerge baseJson localJson)) None
      +:+ JSON.nl in
    if check options then
      match fs !! out options with
      | None =>
          mkRun (Some (mkNannyError
                         ("CHECK FAILED: Output file does not exist: "
                          +:+ out options) 1)) fs []
      | Some current =>
          if negb (String.eqb current formatted) then
            mkRun (Some (mkNannyError
                           ("CHECK FAILED: " +:+ out options
                            +:+ " is out of date. Run nanny merge-vscode-config.")
                           1)) fs []
          else mkRun None fs []
      end
    else if dryRun options then mkRun None fs [formatted]
    else mkRun None (<[out options := formatted]> fs) [].
Proof.
  intros Hhelp [raw Hbase] HbaseJson HlocalJson.
  unfold runMergeVscodeConfig. by rewrite Hhelp, Hbase, HbaseJson, HlocalJson.
Qed.

(** A run that does not throw has read its two inputs. *)
Lemma run_returns options fs :
  thrown (runMergeVscodeConfig parseJsonc options fs) = None →
  help options = false ∧ is_Some (fs !! base options)
  ∧ ∃ baseJson localJson,
      readJsoncObject parseJsonc fs (base options) = inr baseJson
      ∧ match fs !! local options with
        | Some _ => readJsoncObject parseJsonc fs (local options)
        | None => inr []
        end = inr localJson.
Proof.
  unfold runMergeVscodeConfig. destruct (help options); [done|].
  destruct (fs !! base options) as [raw|]; [|done].
  destruct (readJsoncObject parseJsonc fs (base options)) as [|baseJson];
    [done|].
  destruct (match fs !! local options with
            | Some _ => readJsoncObject parseJsonc fs (local options)
            | None => inr []
            end) as [|localJson]; [done|].
  intros _. split_and!; [done|by eexists|by eexists _, _].
Qed.
End run_facts.

Section run_properties.
Import JS MergeVscodeConfig.
Variable parseJsonc : string → string + option Json.

(** X7: after a run of merge-vscode-config that wrote the output file, the
    output path being neither the base nor the local path, a run in check
    mode on the files as they are then succeeds and changes nothing, and a
    second writing run leaves the files as the first one left them. *)
Theorem write_then_check (options : CliOptions) (fs : gmap string string) :
  check options = false → dryRun options = false →
  out options ≠ base options → out options ≠ local options →
  let r := runMergeVscodeConfig parseJsonc options fs in
  thrown r = None →
  let checking := mkCliOptions (base options) (local options) (out options)
                    (verbose options) false true (help options) in
  let r' := runMergeVscodeConfig parseJsonc checking (files r) in
  thrown r' = None ∧ files r' = files r
  ∧ files (runMergeVscodeConfig parseJsonc options (files r)) = files r.
Proof.
  intros Hcheck Hdry Hbase Hlocal r Hr checking r'.
  destruct (run_returns parseJsonc options fs Hr)
    as (Hhelp & Hb & baseJson & localJson & HbaseJson & HlocalJson).
  subst r r'.
  rewrite (run_read parseJsonc options fs baseJson localJson) in * by done.
  cbv zeta in *. rewrite Hcheck, Hdry in *. cbn [files thrown] in *.
  set (formatted := JSON.stringify (JObject (deepMerge baseJson localJson))
                      None +:+ JSON.nl).
  set (fs' := <[out options := formatted]> fs).
  assert (is_Some (fs' !! base options)) as Hb'.
  { subst fs'. by rewrite lookup_insert_ne. }
  assert (readJsoncObject parseJsonc fs' (base options) = inr baseJson)
    as HbaseJson' by (subst fs'; by rewrite readJsoncObject_insert).
  assert (match fs' !! local options with
          | Some _ => readJsoncObject parseJsonc fs' (local options)
          | None => inr []
          end = inr localJson) as HlocalJson'.
  { subst fs'. by rewrite lookup_insert_ne, readJsoncObject_insert. }
  rewrite (run_read parseJsonc checking fs' baseJson localJson) by done.
  rewrite (run_read parseJsonc options fs' baseJson localJson) by done.
  cbv zeta. cbn [check dryRun out checking]. rewrite Hcheck, Hdry.
  fold formatted. subst fs'. rewrite lookup_insert_eq, String.eqb_refl.
  cbn [negb files thrown]. split_and!; [done|done|].
  by rewrite insert_insert_eq.
Qed.


(** X9: a run that throws has written no file and has not printed the
    merged settings; its exit code is 0 when help was asked for, 2 when the
    base file is missing and 1 in every other case. *)
Theorem run_failure_changes_nothing (options : CliOptions)
    (fs : gmap string string) (e : NannyError) :
  thrown (runMergeVscodeConfig parseJsonc options fs) = Some e →
  files (runMergeVscodeConfig parseJsonc options fs) = fs
  ∧ stdout (runMergeVscodeConfig parseJsonc options fs) = []
  ∧ exitCode e
    = (if help options then 0
       else if bool_decide (fs !! base options = None) then 2 else 1)%Z.
Proof.
  unfold runMergeVscodeConfig, readJsoncObject.
  destruct (help options); [by intros [= <-]|].
  destruct (fs !! base options) as [raw|] eqn:Hbase; [|by intros [= <-]].
  cbn [default from_option id bool_decide].
  destruct (parseJsonc raw) as [?|[[]|]]; try (by intros [= <-]).
  destruct (fs !! local options) as [rawl|] eqn:Hlocal.
  - cbn [default from_option id].
    destruct (parseJsonc rawl) as [?|[[]|]]; try (by intros [= <-]).
    destruct (check options).
    + destruct (fs !! out options); [|by intros [= <-]].
      by destruct (negb _); [intros [= <-]|].
    + by destruct (dryRun options).
  - destruct (check options).
    + destruct (fs !! out options); [|by intros [= <-]].
      by destruct (negb _); [intros [= <-]|].
    + by destruct (dryRun options).
Qed.

(** X10: the local file is optional: when it does not exist, the writing run
    puts the base, as [JSON.stringify] formats it with two spaces and a final
    line feed, in the output file, and changes no other file. *)
Theorem run_without_local (options : CliOptions) (fs : gmap string string)
    (baseJson : JsonObject) :
  help options = false → check options = false → dryRun options = false →
  is_Some (fs !! base options) →
  readJsoncObject parseJsonc fs (base options) = inr baseJson →
  fs !! local options = None →
  runMergeVscodeConfig parseJsonc options fs
  = mkRun None
      (<[out options := JSON.stringify (JObject baseJson) None +:+ JSON.nl]> fs)
      [].
Proof.
  intros Hhelp Hcheck Hdry Hbase HbaseJson Hlocal.
  rewrite (run_read parseJsonc options fs baseJson []); try done.
  - cbv zeta. by rewrite Hcheck, Hdry.
  - by rewrite Hlocal.
Qed.
End run_properties.

Section run_witnesses.
Import JS MergeVscodeConfig Samples.

Lemma write_then_check_witness :
  let options := mkCliOptions "settings.base.jsonc" "settings.local.jsonc"
                   "settings.json" false false false false in
  let fs : gmap string string := {[ "settings.base.jsonc" := "{}" ]} in
  let r := runMergeVscodeConfig toyParser options fs in
  thrown
    (runMergeVscodeConfig toyParser
       (mkCliOptions "settings.base.jsonc" "settings.local.jsonc"
          "settings.json" false false true false) (files r)) = None.
Proof.
  intros options fs r.
  apply (write_then_check toyParser options fs); done.
Defined.

Lemma run_failure_changes_nothing_witness :
  let options := mkCliOptions "settings.base.jsonc" "settings.local.jsonc"
                   "settings.json" false false false false in
  let fs : gmap string string := {[ "settings.base.jsonc" := "[]" ]} in
  files (runMergeVscodeConfig toyParser options fs) = fs.
Proof.
  intros options fs.
  apply (run_failure_changes_nothing toyParser options fs
           (mkNannyError
              "Invalid JSONC in settings.base.jsonc: InvalidSymbol at offset 0"
              1)).
  reflexivity.
Defined.

Lemma run_without_local_witness :
  let options := mkCliOptions "settings.base.jsonc" "settings.local.jsonc"
                   "settings.json" false false false false in
  let fs : gmap string string := {[ "settings.base.jsonc" := "{}" ]} in
  files (runMergeVscodeConfig toyParser options fs) !! "settings.json"
  = Some ("{}" +:+ JSON.nl).
Proof.
  intros options fs.
  rewrite (run_without_local toyParser options fs []); try done.
Defined.
End run_witnesses.

(** ** The algebra of the two merges *)

Section merge_algebra_facts.
Import JS MergeShape.

(** A merge whose every turn finds the target as the turn would leave it
    changes nothing. *)
Lemma mergeBy_fixed skip (m s : JsonObject) :
  (∀ key sv, (key, sv) ∈ s → skip key = false →
     get m key = Some (merged skip (get m key) sv)) →
  mergeBy skip m s = m.
Proof.
  induction s as [|[key sv] rest IH]; intros Hfix; [done|].
  rewrite mergeBy_cons.
  assert (step skip m key sv = m) as ->.
  { unfold step. destruct (skip key) eqn:Hskip; [done|].
    apply set_same, Hfix; [by left|done]. }
  apply IH. intros k v Hin. apply Hfix. by right.
Qed.

(** Merging an object into itself changes nothing. *)
Lemma mergeBy_self skip x :
  wf x = true → ∀ o, x = JObject o → mergeBy skip o o = o.
Proof.
  induction x as [| | | | |o IH] using Json_ind; intros Hwf o' Heq;
    try done.
  injection Heq as <-. apply wf_object in Hwf as [Hnd Hwf].
  rewrite Forall_forall in IH, Hwf.
  apply mergeBy_fixed. intros key sv Hin _.
  rewrite (get_elem_NoDup _ _ _ Hnd Hin). f_equal.
  destruct sv as [| | | | |so]; try done. simpl.
  by rewrite (IH _ Hin (Hwf _ Hin) so).
Qed.

Lemma mergeBy_idem skip x :
  wf x = true → ∀ src, x = JObject src → ∀ t,
  mergeBy skip (mergeBy skip t src) src = mergeBy skip t src.
Proof.
  induction x as [| | | | |o IH] using Json_ind; intros Hwf src Heq t;
    try done.
  injection Heq as <-. apply wf_object in Hwf as [Hnd Hwf].
  rewrite Forall_forall in IH, Hwf.
  apply mergeBy_fixed. intros key sv Hin Hskip.
  rewrite (get_mergeBy_source _ _ _ _ sv) by (by try apply get_elem_NoDup).
  f_equal. specialize (IH _ Hin (Hwf _ Hin)). specialize (Hwf _ Hin).
  destruct sv as [| | | | |so]; try done. simpl in *.
  destruct (get t key) as [[| | | | |to]|]; simpl;
    try (by rewrite (mergeBy_self skip (JObject so))).
  by rewrite (IH so).
Qed.


Lemma wf_set (o : JsonObject) k v :
  wf (JObject o) = true → wf v = true → wf (JObject (set o k v)) = true.
Proof.
  rewrite !wf_object. intros [Hnd Hall] Hv. split.
  - by apply NoDup_keys_set.
  - rewrite Forall_forall in Hall. apply Forall_forall.
    intros kv [->|Hin]%elem_of_set; [done|by apply Hall].
Qed.

Lemma wf_mergeBy skip x :
  wf x = true → ∀ src, x = JObject src → ∀ t,
  wf (JObject t) = true → wf (JObject (mergeBy skip t src)) = true.
Proof.
  induction x as [| | | | |o IH] using Json_ind; intros Hwf src Heq;
    try done.
  injection Heq as <-. apply wf_object in Hwf as [_ Hwf].
  induction IH as [|[key sv] rest Hsv _ IHrest]; intros t Ht; [done|].
  apply Forall_cons in Hwf as [Hwsv Hwf]. simpl in Hsv, Hwsv.
  rewrite mergeBy_cons. apply IHrest; [done|]. unfold step.
  destruct (skip key); [done|]. apply wf_set; [done|].
  destruct sv as [| | | | |so]; try done. simpl.
  destruct (get t key) as [[| | | | |to]|] eqn:Hget; try done.
  apply (Hsv Hwsv so eq_refl).
  apply wf_object in Ht as [_ Ht]. rewrite Forall_forall in Ht.
  apply (Ht _ (get_Some_elem _ _ _ Hget)).
Qed.

(** Without a guarded name in the source, the guard of [mergeDeep] never
    fires. *)
Lemma mergeByJ_guardFree x :
  Guarded.guardFree x = true → ∀ t,
  mergeByJ GeneratePackage.isPollutionKey t x = mergeByJ noSkip t x.
Proof.
  induction x as [| | | | |o IH] using Json_ind; intros Hfree; try done.
  simpl in Hfree. apply forallb_Forall in Hfree.
  induction IH as [|[key sv] rest Hsv _ IHrest]; intros t; [done|].
  apply Forall_cons in Hfree as [[Hkey Hfsv]%andb_true_iff Hfree].
  simpl in Hkey, Hfsv, Hsv. apply negb_true_iff in Hkey.
  rewrite !mergeByJ_cons, IHrest by done. rewrite Hkey. unfold noSkip.
  destruct sv as [| | | | |so]; try done.
  destruct (get t key) as [[| | | | |to]|]; try done.
  by rewrite Hsv.
Qed.
End merge_algebra_facts.

Section merge_algebra.
Import JS MergeShape GeneratePackage MergeVscodeConfig.

(** X11: both merges are idempotent in their source: merging the same
    source a second time into the result of the first merge changes
    nothing. *)
Theorem merge_idempotent (target source : JsonObject) :
  wf (JObject source) = true →
  mergeDeep (mergeDeep target source) source = mergeDeep target source
  ∧ deepMerge (deepMerge target source) source = deepMerge target source.
Proof.
  intros Hwf. rewrite !mergeDeep_mergeBy, !deepMerge_mergeBy.
  split; by apply (mergeBy_idem _ (JObject source)).
Qed.

Lemma merge_idempotent_witness :
  let target := [("name", JString "x");
                 ("engines", JObject [("node", JString ">=18")])] in
  let source := [("engines", JObject [("npm", JString ">=9")]);
                 ("files", JArray [JString "dist"])] in
  mergeDeep (mergeDeep target source) source = mergeDeep target source
  ∧ deepMerge (deepMerge target source) source = deepMerge target source.
Proof.
  intros target source. apply (merge_idempotent target source). reflexivity.
Defined.


(** X13: a merge leaves the properties of the target that the source does
    not name as they were, for both merges. *)
Theorem merge_frame (target source : JsonObject) (key : string) :
  key ∉ Object_keys source →
  get (mergeDeep target source) key = get target key
  ∧ get (deepMerge target source) key = get target key.
Proof.
  intros Hkey. rewrite mergeDeep_mergeBy, deepMerge_mergeBy.
  split; apply get_mergeBy_other; by left.
Qed.

Lemma merge_frame_witness :
  let target := [("name", JString "x"); ("version", JString "1.0.0")] in
  let source := [("version", JString "2.0.0")] in
  get (mergeDeep target source) "name" = Some (JString "x")
  ∧ get (deepMerge target source) "name" = Some (JString "x").
Proof.
  intros target source. apply (merge_frame target source "name").
  simpl. by intros ?%list_elem_of_singleton.
Defined.

(** X14: the two merges differ in the guard only: on a source that has none
    of the three guarded names, at any depth of nested objects, [mergeDeep]
    and [deepMerge] give the same object. *)
Theorem merges_agree (target source : JsonObject) :
  Guarded.guardFree (JObject source) = true →
  mergeDeep target source = deepMerge target source.
Proof.
  intros Hfree. rewrite mergeDeep_mergeBy, deepMerge_mergeBy.
  by apply mergeByJ_guardFree.
Qed.

Lemma merges_agree_witness :
  let target := [("editor", JObject [("tabSize", JNumber "2")])] in
  let source := [("editor", JObject [("fontSize", JNumber "14")]);
                 ("files", JArray [JObject [("constructor", JNull)]])] in
  mergeDeep target source = deepMerge target source.
Proof.
  intros target source. apply (merges_agree target source). reflexivity.
Defined.

(** X15: the merges keep objects well formed: when no object of the target
    or of the source has a name twice, at any depth, no object of the
    result has. *)
Theorem merge_well_formed (target source : JsonObject) :
  wf (JObject target) = true → wf (JObject source) = true →
  wf (JObject (mergeDeep target source)) = true
  ∧ wf (JObject (deepMerge target source)) = true.
Proof.
  intros Ht Hs. rewrite mergeDeep_mergeBy, deepMerge_mergeBy.
  split; by apply (wf_mergeBy _ (JObject source)).
Qed.

Lemma merge_well_formed_witness :
  let target := [("editor", JObject [("tabSize", JNumber "2")])] in
  let source := [("editor", JObject [("fontSize", JNumber "14")])] in
  wf (JObject (mergeDeep target source)) = true
  ∧ wf (JObject (deepMerge target source)) = true.
Proof.
  intros target source. apply (merge_well_formed target source); reflexivity.
Defined.

(** X16: [mergeDeep] keeps a guarded name out: whatever the source holds at
    [__proto__], [constructor] or [prototype], the result has such a name
    exactly when the target had it, with the value the target had. *)
Theorem mergeDeep_guard (target source : JsonObject) (key : string) :
  isPollutionKey key = true →
  get (mergeDeep target source) key = get target key
  ∧ (key ∈ Object_keys (mergeDeep target source) ↔ key ∈ Object_keys target).
Proof.
  intros Hkey. rewrite !mergeDeep_mergeBy. split.
  - apply get_mergeBy_other. by right.
  - rewrite elem_of_keys_mergeBy. split; [|by left].
    intros [?|[_ ?]]; [done|congruence].
Qed.

Lemma mergeDeep_guard_witness :
  get (mergeDeep [("name", JString "x")]
                 [("constructor", JObject [("polluted", JBool true)])])
      "constructor" = None.
Proof.
  apply (mergeDeep_guard [("name", JString "x")]
           [("constructor", JObject [("polluted", JBool true)])]
           "constructor").
  reflexivity.
Defined.
End merge_algebra.

(** ** The assembly of the manifest by generate-package *)

Section assemble_facts.
Import JS MergeShape GeneratePackage.

Lemma get_remove_ne {T} (o : Obj T) k k' :
  k ≠ k' → get (remove o k) k' = get o k'.
Proof.
  intros Hne. induction o as [|[k0 v0] o IH]; simpl; [done|].
  destruct (String.eqb_spec k0 k) as [->|Hk0]; simpl.
  - by apply String.eqb_neq in Hne as ->.
  - by rewrite IH.
Qed.

Lemma remove_absent {T} (o : Obj T) k :
  NoDup (Object_keys o) → k ∉ Object_keys (remove o k).
Proof.
  unfold Object_keys. induction o as [|[k0 v0] o IH]; csimpl.
  { intros _. apply not_elem_of_nil. }
  intros [Hk0 Hnd]%NoDup_cons.
  destruct (String.eqb_spec k0 k) as [->|Hne]; csimpl; [done|].
  apply not_elem_of_cons. split; [done|by apply IH].
Qed.

Lemma filterPackageJson_NoDup pkg keys :
  NoDup (Object_keys (filterPackageJson pkg keys)).
Proof.
  unfold filterPackageJson.
  destruct (filterPackageJson_fold pkg keys []) as [-> _]. simpl.
  apply NoDup_filter, firsts_NoDup.
Qed.

Lemma get_filterPackageJson pkg keys k :
  get (filterPackageJson pkg keys) k
  = if bool_decide (k ∈ keys) then get pkg k else None.
Proof.
  unfold filterPackageJson.
  destruct (filterPackageJson_fold pkg keys []) as [_ ->]. simpl.
  repeat case_bool_decide; try done; try naive_solver.
  symmetry. apply get_None. naive_solver.
Qed.

Lemma merges_NoDup configs : ∀ t : JsonObject,
  NoDup (Object_keys t) → NoDup (Object_keys (foldl mergeDeep t configs)).
Proof.
  induction configs as [|c configs IH]; intros t Hnd; [done|].
  simpl. apply IH. rewrite mergeDeep_mergeBy. by apply NoDup_keys_mergeBy.
Qed.

(** A name that every fragment lacks, or that is guarded, keeps through the
    merges what the target had. *)
Lemma get_merges_other configs key : ∀ t : JsonObject,
  isPollutionKey key = true
  ∨ Forall (λ c : JsonObject, key ∉ Object_keys c) configs →
  get (foldl mergeDeep t configs) key = get t key.
Proof.
  induction configs as [|c configs IH]; intros t Hkey; [done|].
  simpl. rewrite IH.
  - rewrite mergeDeep_mergeBy. apply get_mergeBy_other.
    destruct Hkey as [?|[? _]%Forall_cons]; [by right|by left].
  - destruct Hkey as [?|[_ ?]%Forall_cons]; [by left|by right].
Qed.

(** What [assemble] holds at a name other than ["notes"]. *)
Lemma get_assemble pkg keys configs key :
  key ≠ "notes" →
  get (assemble pkg keys configs) key
  = get (foldl mergeDeep (filterPackageJson pkg keys) configs) key.
Proof.
  intros Hne. unfold assemble. cbv zeta.
  destruct (has _ "notes"); [|done]. by apply get_remove_ne.
Qed.
End assemble_facts.

Section assemble_properties.
Import JS MergeShape GeneratePackage.

(** X17: the manifest that generate-package puts together never has a
    property [notes], whether [notes] came from package.json or from a
    fragment. *)
Theorem assemble_drops_notes (pkg : JsonObject) (keys : list string)
    (configs : list JsonObject) :
  ("notes" ∉ Object_keys (assemble pkg keys configs))
  ∧ get (assemble pkg keys configs) "notes" = None.
Proof.
  assert ("notes" ∉ Object_keys (assemble pkg keys configs)) as Hnotes.
  { unfold assemble. cbv zeta.
    destruct (has _ "notes") eqn:Hhas.
    - apply remove_absent, merges_NoDup, filterPackageJson_NoDup.
    - intros Hin%has_true. congruence. }
  split; [done|]. by apply get_None.
Qed.

(** X18: no fragment can give the manifest one of the three guarded names:
    when such a name is not among the keys to preserve, the assembled
    manifest does not have it, whatever the fragments hold there. *)
Theorem assemble_guarded_names (pkg : JsonObject) (keys : list string)
    (configs : list JsonObject) (key : string) :
  isPollutionKey key = true → key ∉ keys →
  get (assemble pkg keys configs) key = None
  ∧ key ∉ Object_keys (assemble pkg keys configs).
Proof.
  intros Hkey Hkeys.
  assert (get (assemble pkg keys configs) key = None) as Hget.
  { rewrite get_assemble by (by intros ->).
    rewrite get_merges_other by (by left). rewrite get_filterPackageJson.
    by rewrite bool_decide_eq_false_2. }
  split; [done|]. by apply get_None.
Qed.

Lemma assemble_guarded_names_witness :
  get (assemble [("name", JString "x")] ["name"]
         [[("constructor", JObject [("polluted", JBool true)])];
          [("prototype", JString "y")]])
      "constructor" = None.
Proof.
  apply (assemble_guarded_names [("name", JString "x")] ["name"]
           [[("constructor", JObject [("polluted", JBool true)])];
            [("prototype", JString "y")]] "constructor").
  - reflexivity.
  - by intros ?%list_elem_of_singleton.
Defined.

(** X19: the last fragment that names a property decides it: when a
    fragment holds a value that is not a plain object at a name that is
    neither guarded nor [notes], and no later fragment has that name, the
    assembled manifest holds that value there, whatever package.json and
    the earlier fragments hold. *)
Theorem assemble_last_fragment_wins (pkg : JsonObject) (keys : list string)
    (before after : list JsonObject) (c : JsonObject) (key : string)
    (v : Json) :
  NoDup (Object_keys c) → get c key = Some v →
  isPlainObject (Some v) = false →
  isPollutionKey key = false → key ≠ "notes" →
  Forall (λ c' : JsonObject, key ∉ Object_keys c') after →
  get (assemble pkg keys (before ++ c :: after)) key = Some v.
Proof.
  intros Hnd Hget Hplain Hkey Hnotes Hafter.
  rewrite get_assemble by done. rewrite foldl_app. simpl.
  rewrite get_merges_other by (by right).
  rewrite mergeDeep_mergeBy, (get_mergeBy_source _ _ _ _ v) by done.
  f_equal. unfold merged. by destruct v.
Qed.

Lemma assemble_last_fragment_wins_witness :
  get (assemble [("version", JString "1.0.0")] ["version"]
         [[("version", JString "2.0.0")];
          [("version", JString "3.0.0"); ("license", JString "MIT")];
          [("license", JString "ISC")]])
      "version" = Some (JString "3.0.0").
Proof.
  apply (assemble_last_fragment_wins [("version", JString "1.0.0")]
           ["version"] [[("version", JString "2.0.0")]]
           [[("license", JString "ISC")]]
           [("version", JString "3.0.0"); ("license", JString "MIT")]
           "version" (JString "3.0.0")); try done.
  - compute_done.
  - repeat constructor. simpl. by intros ?%list_elem_of_singleton.
Defined.
End assemble_properties.

(** ** update-package *)

Section proto_facts.
Import JS UpdatePackage.

Lemma set_absent {T} (o : Obj T) k v :
  get o k = None → set o k v = (o ++ [(k, v)])%list.
Proof.
  induction o as [|[k' v'] o IH]; simpl; [done|].
  destruct (String.eqb k' k); [done|]. intros Hget. by rewrite IH.
Qed.

Lemma set_set {T} (o : Obj T) k v w : set (set o k v) k w = set o k w.
Proof.
  induction o as [|[k' v'] o IH]; simpl.
  - by rewrite String.eqb_refl.
  - destruct (String.eqb k' k) eqn:E; simpl; rewrite E; [done|].
    by rewrite IH.
Qed.

Lemma put_set {T} (o : Obj T) k v :
  Proto.arrayIndex k = None → Proto.put o k v = set o k v.
Proof. intros Hk. unfold Proto.put. rewrite Hk. by destruct (has o k). Qed.

Lemma keys_own {T} (o : Obj T) : Object_keys (Proto.own o) = Object_keys o.
Proof.
  unfold Object_keys, Proto.own. induction o as [|[] ? IH]; csimpl; [done|].
  by f_equal.
Qed.

Lemma get_own {T} (o : Obj T) k :
  get (Proto.own o) k = Proto.Own <$> get o k.
Proof. apply (get_fmap Proto.Own). Qed.

Lemma set_own {T} (o : Obj T) k v :
  Proto.own (set o k v) = set (Proto.own o) k (Proto.Own v).
Proof. apply (set_fmap Proto.Own). Qed.

(** Reading a name that the object owns, or that no object inherits, is
    reading a property of the object. *)
Lemma read_own {T} (o : Obj T) k :
  (Proto.inherited k = true → k ∈ Object_keys o) →
  Proto.read o k = Proto.Own <$> get o k
  ∧ Proto.has_in o k = has o k.
Proof.
  intros Hk. unfold Proto.read, Proto.has_in, has.
  destruct (get o k) as [v|] eqn:Hget; [done|].
  apply get_None in Hget.
  destruct (Proto.inherited k); [|by split].
  destruct Hget. by apply Hk.
Qed.


(** The loop of [replaceVersions] on names that the source owns or that no
    object inherits. *)
Lemma syncVersions_own (s : Obj string) ks : ∀ (t : Obj string) u,
  (∀ d, d ∈ ks → Proto.inherited d = true → d ∈ Object_keys s) →
  foldl (Proto.syncVersions_step s) (Proto.own t, u) ks
  = (Proto.own (foldl (syncVersions_step s) (t, u) ks).1,
     (foldl (syncVersions_step s) (t, u) ks).2).
Proof.
  induction ks as [|d ks IH]; intros t u Hks; [done|]. cbn [foldl].
  assert (Proto.syncVersions_step s (Proto.own t, u) d
          = (Proto.own (syncVersions_step s (t, u) d).1,
             (syncVersions_step s (t, u) d).2)) as ->.
  { unfold Proto.syncVersions_step, syncVersions_step.
    destruct (read_own s d) as [-> _]; [apply Hks; by left|].
    destruct (get s d) as [new|]; [|done]. simpl.
    rewrite get_own.
    rewrite (bool_decide_ext (Proto.Own <$> get t d = Some (Proto.Own new))
                             (get t d = Some new)).
    - destruct (_ && _); [|done]. simpl. by rewrite set_own.
    - destruct (get t d); simpl; split; congruence. }
  destruct (syncVersions_step s (t, u) d) as [t' u']. simpl.
  apply IH. intros d' Hd'. apply Hks. by right.
Qed.

Lemma noteKey_own file (seen : Obj (list string)) key :
  Proto.inherited key = false → Proto.arrayIndex key = None →
  Proto.noteKey file seen key = inr (noteKey file seen key).
Proof.
  intros Hinh Hindex. unfold Proto.noteKey, noteKey.
  destruct (get seen key) as [files|] eqn:Hget.
  - by rewrite Hget.
  - rewrite Hinh, put_set by done. f_equal.
    by rewrite get_set_eq, set_set.
Qed.

Lemma noteKeys_own file ks : ∀ seen : Obj (list string),
  Forall (λ k, Proto.inherited k = false ∧ Proto.arrayIndex k = None) ks →
  Proto.foldE (Proto.noteKey file) seen ks
  = inr (foldl (noteKey file) seen ks).
Proof.
  unfold Proto.foldE.
  induction ks as [|k ks IH]; intros seen Hks; [done|].
  apply Forall_cons in Hks as [[? ?] Hks]. cbn [foldl].
  rewrite noteKey_own by done. by apply IH.
Qed.

(** Only the empty object differs from the empty object in the order of
    properties alone. *)
Lemma same_empty_object cfg :
  sameUpToKeyOrder (JObject []) cfg ↔ cfg = JObject [].
Proof.
  split.
  - inversion 1 as [| | | | |o o' o'' Hall Hperm]; subst.
    apply Forall2_nil_inv_l in Hall as ->.
    by apply Permutation_nil_l in Hperm as ->.
  - intros ->. by apply (same_object [] [] []).
Qed.
End proto_facts.

Section update_facts.
Import JS UpdatePackage Audit.

Lemma differs_synced (t s : Obj string) u dep :
  dep ∈ Object_keys t → differs (syncVersions t s u).1 s dep = false.
Proof.
  intros [old Hold]%get_is_Some. unfold differs.
  destruct (get s dep) as [new|] eqn:Hnew; [|done].
  destruct (syncVersions_spec t s u) as (_ & -> & _). rewrite Hold, Hnew.
  destruct (truthy new); [|done]. by rewrite bool_decide_eq_true_2.
Qed.

Lemma syncVersions_idem (t s : Obj string) u u' :
  syncVersions (syncVersions t s u).1 s u' = ((syncVersions t s u).1, u').
Proof.
  unfold syncVersions at 1. apply syncVersions_unchanged.
  destruct (syncVersions_spec t s u) as (-> & _ & _).
  apply not_true_iff_false. intros (dep & Hin & Hd)%existsb_exists.
  apply list_elem_of_In in Hin. by rewrite differs_synced in Hd.
Qed.

Lemma elem_of_Set_add set k x : x ∈ Set_add set k ↔ x ∈ set ∨ x = k.
Proof.
  unfold Set_add. case_bool_decide.
  - split; [by left|]. by intros [?| ->].
  - rewrite elem_of_app, list_elem_of_singleton. done.
Qed.

Lemma elem_of_Set_adds ks : ∀ set x,
  x ∈ foldl Set_add set ks ↔ x ∈ set ∨ x ∈ ks.
Proof.
  induction ks as [|k ks IH]; intros set x; simpl.
  - rewrite elem_of_nil. tauto.
  - rewrite IH, elem_of_Set_add, elem_of_cons. tauto.
Qed.

(** The set [present] of [findMissingFromPackages]. *)
Lemma elem_of_present {T} (perFile : list (string * Obj T)) : ∀ set x,
  x ∈ foldl (λ present '(_, map), foldl Set_add present (Object_keys map))
            set perFile
  ↔ x ∈ set ∨ ∃ e, e ∈ perFile ∧ x ∈ Object_keys e.2.
Proof.
  induction perFile as [|[file map] perFile IH]; intros set x; simpl.
  - split; [by left|]. intros [?|(e & ?%elem_of_nil & _)]; done.
  - rewrite IH, elem_of_Set_adds. split.
    + intros [[?|?]|(e & He & Hx)]; [by left| |].
      * right. exists (file, map). split; [by left|done].
      * right. exists e. split; [by right|done].
    + intros [?|(e & [->|He]%elem_of_cons & Hx)]; [by left; left| |].
      * left. by right.
      * right. by exists e.
Qed.

(** The set that [collectUsedDeps] returns. *)
Lemma elem_of_collectUsedDeps files x :
  x ∈ collectUsedDeps files ↔
  ∃ json section deps,
    json ∈ files ∧ getSection json section = Some deps
    ∧ x ∈ Object_keys deps.
Proof.
  unfold collectUsedDeps.
  assert (∀ used,
    x ∈ foldl (λ used json,
                 foldl (λ used section,
                          match getSection json section with
                          | Some deps => foldl Set_add used (Object_keys deps)
                          | None => used
                          end)
                       used [dependencies; devDependencies])
              used files
    ↔ x ∈ used ∨ ∃ json section deps,
        json ∈ files ∧ getSection json section = Some deps
        ∧ x ∈ Object_keys deps) as Hgen.
  { induction files as [|json files IH]; intros used.
    - simpl. split; [by left|]. by intros [?|(? & ? & ? & ?%elem_of_nil & _)].
    - cbn [foldl]. rewrite IH. split.
      + intros [Hx|(j & sec & deps & Hj & Hsec & Hx)].
        * destruct (getSection json dependencies) as [d1|] eqn:H1,
            (getSection json devDependencies) as [d2|] eqn:H2;
            rewrite ?elem_of_Set_adds in Hx.
          -- destruct Hx as [[?|?]|?]; [by left|right..].
             ++ exists json, dependencies, d1. split; [by left|done].
             ++ exists json, devDependencies, d2. split; [by left|done].
          -- destruct Hx as [?|?]; [by left|right].
             exists json, dependencies, d1. split; [by left|done].
          -- destruct Hx as [?|?]; [by left|right].
             exists json, devDependencies, d2. split; [by left|done].
          -- by left.
        * right. exists j, sec, deps. split; [by right|done].
      + intros [Hx|(j & sec & deps & [->|Hj]%elem_of_cons & Hsec & Hx)].
        * left. destruct (getSection json dependencies),
            (getSection json devDependencies);
            rewrite ?elem_of_Set_adds; tauto.
        * left. destruct sec; rewrite Hsec.
          -- destruct (getSection json devDependencies);
               rewrite ?elem_of_Set_adds; tauto.
          -- rewrite elem_of_Set_adds. by right.
        * right. by exists j, sec, deps. }
  rewrite Hgen, elem_of_nil. tauto.
Qed.

(** The entries that the loop of [unusedDependencies] adds for a section. *)
Lemma elem_of_unused_section (usedDeps : list string) (deps : Obj string) :
  ∀ (unused : list (string * string)) x,
  x ∈ foldl (λ unused '(name, version),
               if bool_decide (name ∈ usedDeps) then unused
               else (unused ++ [(name, version)])%list)
            unused deps
  ↔ x ∈ unused ∨ (x ∈ deps ∧ x.1 ∉ usedDeps).
Proof.
  induction deps as [|[name version] deps IH]; intros unused x; cbn [foldl].
  - rewrite elem_of_nil. tauto.
  - rewrite IH, elem_of_cons. case_bool_decide as Hused.
    + split; [tauto|]. intros [?|[[-> |?] ?]]; [tauto|done|tauto].
    + rewrite elem_of_app, list_elem_of_singleton.
      split; [intros [[?| ->]|?]; tauto|].
      intros [?|[[-> |?] ?]]; tauto.
Qed.

Lemma members_ext K (o o' : JsonObject) :
  (∀ P, P ∈ K → get o P = get o' P) →
  Decode.members K o = Decode.members K o'.
Proof.
  induction K as [|P K IH]; intros Hext; [done|].
  rewrite !members_cons, Hext by (by left).
  rewrite IH; [done|]. intros Q HQ. apply Hext. by right.
Qed.

(** Without a property list the members of an object are its properties. *)
Lemma members_own (o : JsonObject) :
  NoDup (Object_keys o) → Decode.members (Object_keys o) o = o.
Proof.
  induction o as [|[k v] o IH]; [done|].
  change (Object_keys ((k, v) :: o)) with (k :: Object_keys o).
  intros [Hk Hnd]%NoDup_cons. rewrite members_cons. cbn [get].
  rewrite String.eqb_refl. f_equal.
  transitivity (Decode.members (Object_keys o) o); [|by apply IH].
  apply members_ext. intros P HP. cbn [get].
  destruct (String.eqb_spec k P) as [->|]; done.
Qed.

(** The text of [JSON.stringify] without a replacer determines the value. *)
Lemma serialize_None_inj a : ∀ y indent r1 r2,
  wf a = true → wf y = true →
  Decode.endsValue r1 = true → Decode.endsValue r2 = true →
  JSON.serialize None indent a +:+ r1 = JSON.serialize None indent y +:+ r2 →
  a = y ∧ r1 = r2.
Proof.
  induction a as [|b|n|s|l IH|o IH] using Json_ind;
    intros y indent r1 r2 Hwa Hwy Hr1 Hr2 Heq;
    pose proof (f_equal Decode.kindOfHead Heq) as Hkind;
    rewrite !serialize_head in Hkind by done;
    try destruct b; destruct y as [|[]|n'|s'|l'|o']; try discriminate Hkind;
    clear Hkind.
  - by apply (inj (String.append "null")) in Heq.
  - by apply (inj (String.append "true")) in Heq.
  - by apply (inj (String.append "false")) in Heq.
  - simpl in Heq, Hwa, Hwy.
    apply number_inj in Heq as [-> ->];
      [done|by apply isNumberText_chars..|done|done].
  - simpl in Heq. by apply Quote_inj in Heq as [-> ->].
  - simpl in Heq. apply wf_array in Hwa, Hwy.
    rewrite Forall_forall in IH, Hwa, Hwy.
    apply (wrap_inj _ _ eq) in Heq as [Hl ->]; [|done|].
    + split; [|done]. f_equal. by apply list_eq_Forall2.
    + intros x y rest rest' Hx Hy Hrest Hrest'.
      apply IH; try done; [by apply Hwa|by apply Hwy].
  - rewrite !serialize_object, !members_serialize in Heq.
    apply wf_object in Hwa as [Hnd Hwa], Hwy as [Hnd' Hwy].
    rewrite !members_own in Heq by done.
    rewrite Forall_forall in IH, Hwa, Hwy.
    apply (wrap_inj _ _ eq) in Heq as [Hm ->]; [|done|].
    + split; [|done]. f_equal. by apply list_eq_Forall2.
    + intros [k v] [k' v'] rest rest' Hx Hy Hrest Hrest'. simpl.
      rewrite !app_assoc. intros [-> Hrest12]%Quote_inj.
      apply (inj (String.append ": ")) in Hrest12.
      destruct (IH (k', v) Hx v' (indent +:+ JSON.gap) rest rest')
        as [Hv ->]; try done;
        [by apply (Hwa (k', v))|by apply (Hwy (k', v'))|].
      simpl in Hv. by subst.
Qed.
End update_facts.

Section update_properties.
Import JS UpdatePackage Audit.

(** X20: [replaceVersions] is idempotent: called a second time with the same
    source on the manifest it has just brought up to date, it changes
    nothing and returns [false], so that a second run of update-package
    rewrites no fragment. *)
Theorem replaceVersions_idempotent (target source : PackageJson) :
  replaceVersions (replaceVersions target source).1 source
  = ((replaceVersions target source).1, false).
Proof.
  rewrite (replaceVersions_unfold target source). cbn [fst].
  destruct target as [td tv tsc tw], source as [sd sv ssc sw].
  cbn [pkg_dependencies pkg_devDependencies pkg_scripts pkg_wireit].
  unfold replaceVersions.
  destruct td as [td|], sd as [sd|], tv as [tv|], sv as [sv|];
    cbn [foldl getSection setSection pkg_dependencies pkg_devDependencies
         pkg_scripts pkg_wireit];
    rewrite ?syncVersions_idem;
    cbn [foldl getSection setSection pkg_dependencies pkg_devDependencies
         pkg_scripts pkg_wireit];
    rewrite ?syncVersions_idem; done.
Qed.

(** X21: [findMissingFromPackages] returns nothing without a root map;
    otherwise it returns the names of the root map that no map of the files
    has, in ascending order, and none twice when the root map has none
    twice. *)
Theorem findMissingFromPackages_spec {T} (rootMap : option (Obj T))
    (perFile : list (string * Obj T)) :
  let missing := findMissingFromPackages rootMap perFile in
  (∀ k, k ∈ missing ↔
        ∃ root, rootMap = Some root ∧ k ∈ Object_keys root
                ∧ ∀ e, e ∈ perFile → k ∉ Object_keys e.2)
  ∧ Sorted String.le missing
  ∧ (∀ root, rootMap = Some root → NoDup (Object_keys root) → NoDup missing).
Proof.
  intros missing. subst missing. unfold findMissingFromPackages.
  destruct rootMap as [root|].
  - split_and!.
    + intros k. rewrite elem_of_sort, list_elem_of_filter, elem_of_present.
      rewrite elem_of_nil. split.
      * intros [Hnot Hk]. exists root. split_and!; [done|done|].
        intros e He Hin. apply Hnot. right. by exists e.
      * intros (? & [= <-] & Hk & Hnone). split; [|done].
        intros [[]|(e & He & Hin)]. by apply (Hnone e).
    + apply Sorted_merge_sort, _.
    + intros ? [= <-] Hnd. by apply sort_NoDup, NoDup_filter.
  - split_and!; [|constructor|done].
    intros k. rewrite elem_of_nil. split; [done|]. by intros (? & ? & _).
Qed.

(** X22: the list of unused dependencies has an entry for a name and a
    version exactly when a dependency section of the root manifest has that
    entry and no dependency section of any fragment has the name. *)
Theorem unusedDependencies_spec (rootPkg : PackageJson)
    (files : list PackageJson) (entry : string * string) :
  entry ∈ unusedDependencies rootPkg (collectUsedDeps files) ↔
  (∃ section deps, getSection rootPkg section = Some deps ∧ entry ∈ deps)
  ∧ ∀ json section deps,
      json ∈ files → getSection json section = Some deps →
      entry.1 ∉ Object_keys deps.
Proof.
  assert (entry.1 ∉ collectUsedDeps files ↔
          ∀ json section deps,
            json ∈ files → getSection json section = Some deps →
            entry.1 ∉ Object_keys deps) as Hused.
  { rewrite elem_of_collectUsedDeps. split.
    - intros Hnot json section deps ? ? ?. apply Hnot. by exists json, section, deps.
    - intros Hnone (json & section & deps & ? & ? & ?).
      by apply (Hnone json section deps). }
  rewrite <-Hused. unfold unusedDependencies, Object_entries. cbn [foldl].
  destruct (getSection rootPkg dependencies) as [d1|] eqn:H1,
    (getSection rootPkg devDependencies) as [d2|] eqn:H2;
    rewrite ?elem_of_unused_section, ?elem_of_nil.
  - split.
    + intros [[[]|[? ?]]|[? ?]]; (split; [|done]).
      * by exists dependencies, d1.
      * by exists devDependencies, d2.
    + intros [(section & deps & Hsec & Hin) ?].
      destruct section; rewrite ?H1, ?H2 in Hsec; simplify_eq; tauto.
  - split.
    + intros [[]|[? ?]]. split; [|done]. by exists dependencies, d1.
    + intros [(section & deps & Hsec & Hin) ?].
      destruct section; rewrite ?H1, ?H2 in Hsec; simplify_eq; tauto.
  - split.
    + intros [[]|[? ?]]. split; [|done]. by exists devDependencies, d2.
    + intros [(section & deps & Hsec & Hin) ?].
      destruct section; rewrite ?H1, ?H2 in Hsec; simplify_eq; tauto.
  - split; [done|]. intros [(section & deps & Hsec & Hin) ?].
    destruct section; rewrite ?H1, ?H2 in Hsec; simplify_eq.
Qed.

(** X23: [findChangedWireit] reports a name for a file exactly when the
    wireit map of the file has the name with a configuration and either the
    root map has the name too, with a configuration that differs from that
    one in more than the order of the properties of their objects, or the
    root map lacks the name and it is a name of [Object.prototype]; for
    [__proto__], where the lookup gives [Object.prototype] itself, which
    prints as the empty object, the name is reported unless the
    configuration of the file is the empty object. *)
Theorem findChangedWireit_reports (rootWireit : option JsonObject)
    (perFileWireit : list (string * JsonObject)) (file name : string) :
  (∀ n r, get (default [] rootWireit) n = Some r → wf r = true) →
  (∀ f wireit n cfg,
     (f, wireit) ∈ perFileWireit → (n, cfg) ∈ wireit → wf cfg = true) →
  (file, name) ∈ Proto.findChangedWireit_unsorted rootWireit perFileWireit ↔
  ∃ wireit cfg,
    (file, wireit) ∈ perFileWireit ∧ (name, cfg) ∈ wireit
    ∧ match get (default [] rootWireit) name with
      | Some r => ¬ sameUpToKeyOrder r cfg
      | None => Proto.inherited name = true
                ∧ (name = "__proto__" → cfg ≠ JObject [])
      end.
Proof.
  intros Hroot Hfiles.
  unfold Proto.findChangedWireit_unsorted, Object_entries.
  set (rw := default [] rootWireit) in *.
  assert (∀ n cfg, wf cfg = true →
            Proto.has_in rw n
            && negb (bool_decide
                       (Proto.stableStringify
                          (default (Proto.Builtin n) (Proto.read rw n))
                        = Some (stableStringify cfg))) = true
            ↔ match get rw n with
              | Some r => ¬ sameUpToKeyOrder r cfg
              | None => Proto.inherited n = true
                        ∧ (n = "__proto__" → cfg ≠ JObject [])
              end) as Hdiff.
  { intros n cfg Hcfg. unfold Proto.has_in, Proto.read, has.
    destruct (get rw n) as [r|] eqn:Hr; simpl.
    - rewrite negb_true_iff, bool_decide_eq_false. split.
      + intros Hne Hsame. apply Hne. f_equal.
        apply stableStringify_same; [by eapply Hroot|done].
      + intros Hnot [= Heq].
        apply Hnot, stableStringify_inj; [by eapply Hroot|done|done].
    - destruct (Proto.inherited n) eqn:Hinh; simpl; [|naive_solver].
      destruct (String.eqb_spec n "__proto__") as [->|Hn].
      + rewrite negb_true_iff, bool_decide_eq_false. split.
        * intros Hne. split; [done|]. intros _ ->. by apply Hne.
        * intros [_ Hne] [= Heq]. apply Hne; [done|].
          by apply same_empty_object, stableStringify_inj.
      + split; [by intros _|]. intros _.
        by rewrite bool_decide_eq_false_2. }
  rewrite elem_of_concat. split.
  - intros (l & Hin & ([f wireit] & -> & Hf)%list_elem_of_fmap).
    apply list_elem_of_omap in Hin as ([n cfg] & Hcfg & Hsome).
    destruct (Proto.has_in rw n && _) eqn:Hd; [|done].
    injection Hsome as <- <-. exists wireit, cfg. split_and!; try done.
    apply Hdiff; [by eapply Hfiles|done].
  - intros (wireit & cfg & Hf & Hcfg & Hnot).
    eexists. split; [|apply list_elem_of_fmap; by exists (file, wireit)].
    apply list_elem_of_omap. exists (name, cfg). split; [done|].
    apply Hdiff in Hnot as ->; [done|by eapply Hfiles].
Qed.

(** X24: [jsonOut], the text that update-package writes in a fragment, and
    the text of merge-vscode-config determine the value: two values with
    the same text are equal, the order of the properties included. *)
Theorem jsonOut_injective (a y : Json) :
  wf a = true → wf y = true → jsonOut a = jsonOut y → a = y.
Proof.
  intros Hwa Hwy Heq. unfold jsonOut, JSON.stringify in Heq. simpl in Heq.
  rewrite <-(app_empty_r (JSON.serialize None "" a)) in Heq.
  rewrite <-(app_empty_r (JSON.serialize None "" y)) in Heq.
  by apply serialize_None_inj in Heq as [-> _].
Qed.
End update_properties.

Section update_witnesses.
Import JS UpdatePackage Audit.

Lemma findChangedWireit_reports_witness :
  let root := Some [("build", JObject [("command", JString "tsc");
                                       ("files", JArray [JString "src"])])] in
  let perFile :=
    [("a.jsonc", [("build", JObject [("files", JArray [JString "src"]);
                                     ("command", JString "tsc")])]);
     ("b.jsonc", [("build", JObject [("command", JString "tsc -b")]);
                  ("toString", JObject [("command", JString "tsc")])])] in
  ("b.jsonc", "build") ∈ Proto.findChangedWireit_unsorted root perFile
  ∧ ("b.jsonc", "toString") ∈ Proto.findChangedWireit_unsorted root perFile.
Proof.
  intros root perFile.
  assert (∀ n r, get (default [] root) n = Some r → wf r = true) as Hroot.
  { intros n r. subst root. cbn [from_option id get].
    destruct (String.eqb "build" n); [|done]. by intros [= <-]. }
  assert (∀ f wireit n cfg,
            (f, wireit) ∈ perFile → (n, cfg) ∈ wireit → wf cfg = true)
    as Hfiles.
  { intros f wireit n cfg Hf Hcfg. subst perFile.
    repeat (apply elem_of_cons in Hf as [[= -> ->]|Hf]);
      try (by apply elem_of_nil in Hf);
      repeat (apply elem_of_cons in Hcfg as [[= -> ->]|Hcfg]);
      try (by apply elem_of_nil in Hcfg); reflexivity. }
  split.
  - apply (findChangedWireit_reports root perFile "b.jsonc" "build"
             Hroot Hfiles).
    eexists _, _. split_and!.
    + right. left.
    + left.
    + change (¬ sameUpToKeyOrder
                  (JObject [("command", JString "tsc");
                            ("files", JArray [JString "src"])])
                  (JObject [("command", JString "tsc -b")])).
      inversion 1 as [| | | | |o o' o'' Hall Hperm]; subst.
      apply Forall2_length in Hall. apply Permutation_length in Hperm.
      simpl in *. lia.
  - apply (findChangedWireit_reports root perFile "b.jsonc" "toString"
             Hroot Hfiles).
    eexists _, _. split_and!.
    + right. left.
    + right. left.
    + change (Proto.inherited "toString" = true
              ∧ ("toString" = "__proto__" →
                 JObject [("command", JString "tsc")] ≠ JObject [])).
      split; [reflexivity|discriminate].
Defined.

Lemma jsonOut_injective_witness :
  String.eqb (jsonOut (JObject [("a", JNumber "1"); ("b", JNull)]))
             (jsonOut (JObject [("b", JNull); ("a", JNumber "1")])) = false.
Proof.
  destruct (String.eqb_spec
              (jsonOut (JObject [("a", JNumber "1"); ("b", JNull)]))
              (jsonOut (JObject [("b", JNull); ("a", JNumber "1")])))
    as [Heq|]; [|reflexivity].
  apply (jsonOut_injective (JObject [("a", JNumber "1"); ("b", JNull)])
           (JObject [("b", JNull); ("a", JNumber "1")])) in Heq;
    [discriminate Heq|reflexivity|reflexivity].
Defined.
End update_witnesses.

(** ** Trimming, and the lines of a [.env] file *)

Section trim_facts.
Import Text.

Lemma trimEnd_cons c s :
  trimEnd (String c s) = "" ∨ ∃ r, trimEnd (String c s) = String c r.
Proof. simpl. destruct (trimEnd s), (isWhiteSpace c); eauto. Qed.

Lemma trimEnd_idem s : trimEnd (trimEnd s) = trimEnd s.
Proof.
  induction s as [|c s IH]; [done|]. simpl.
  destruct (trimEnd s) as [|c' r] eqn:E.
  - destruct (isWhiteSpace c) eqn:Hc; [done|]. simpl. by rewrite Hc.
  - simpl. simpl in IH. by rewrite IH.
Qed.

Lemma trimStart_head c s :
  isWhiteSpace c = false → trimStart (String c s) = String c s.
Proof. intros Hc. simpl. by rewrite Hc. Qed.

(** What [trimStart] returns is empty or starts with a character that is
    not white space. *)
Lemma trimStart_result s :
  trimStart s = "" ∨ ∃ c r, trimStart s = String c r ∧ isWhiteSpace c = false.
Proof.
  induction s as [|c s IH]; [by left|]. simpl.
  destruct (isWhiteSpace c) eqn:Hc; [done|]. right. by exists c, s.
Qed.

Lemma trim_idem s : trim (trim s) = trim s.
Proof.
  unfold trim. destruct (trimStart_result s) as [->|(c & r & -> & Hc)];
    [done|].
  destruct (trimEnd_cons c r) as [->|[r' Hr']]; [done|].
  rewrite Hr', trimStart_head by done. rewrite <-Hr'. apply trimEnd_idem.
Qed.

Lemma trimStart_length s : String.length (trimStart s) ≤ String.length s.
Proof.
  induction s as [|c s IH]; [done|]. simpl.
  destruct (isWhiteSpace c); simpl; lia.
Qed.

Lemma trimEnd_length s : String.length (trimEnd s) ≤ String.length s.
Proof.
  induction s as [|c s IH]; [done|]. simpl.
  destruct (trimEnd s), (isWhiteSpace c); simpl in *; lia.
Qed.

(** A text that [trim] leaves as it is: neither end is trimmed. *)
Lemma trim_fixed s :
  trim s = s → trimStart s = s ∧ trimEnd s = s.
Proof.
  intros Htrim.
  assert (trimStart s = s) as Hstart.
  { pose proof (trimEnd_length (trimStart s)) as Hlen.
    fold (trim s) in Hlen. rewrite Htrim in Hlen.
    destruct s as [|c s]; [done|]. simpl in *.
    destruct (isWhiteSpace c); [|done].
    pose proof (trimStart_length s). lia. }
  split; [done|]. unfold trim in Htrim. by rewrite Hstart in Htrim.
Qed.

Lemma trim_fixed_head c s :
  trim (String c s) = String c s → isWhiteSpace c = false.
Proof.
  intros [Hstart _]%trim_fixed. simpl in Hstart.
  destruct (isWhiteSpace c); [|done].
  pose proof (trimStart_length s) as Hlen. rewrite Hstart in Hlen.
  simpl in Hlen. lia.
Qed.

Lemma trimEnd_app a r :
  trimEnd r = r → r ≠ "" → trimEnd (a +:+ r) = a +:+ r.
Proof.
  intros Hr Hne. induction a as [|c a IH]; [by rewrite app_empty_l|].
  rewrite app_cons. simpl. rewrite IH.
  destruct (a +:+ r) eqn:E; [|done].
  destruct a; [by rewrite app_empty_l in E|by rewrite app_cons in E].
Qed.

Lemma cut_app c key rest :
  cut c key = None → cut c (key +:+ String c rest) = Some (key, rest).
Proof.
  induction key as [|x key IH].
  - intros _. rewrite app_empty_l. simpl. by rewrite Ascii.eqb_refl.
  - rewrite app_cons. simpl. destruct (Ascii.eqb x c); [done|].
    destruct (cut c key) as [[]|]; [done|]. intros _. by rewrite IH.
Qed.
End trim_facts.

Section dotenv_facts.
Import Text DotEnv.

Lemma loadLine_keeps env line k v :
  env !! k = Some v → loadLine env line !! k = Some v.
Proof.
  intros Hk. unfold loadLine. destruct (parseLine line) as [[key val]|]; [|done].
  destruct (env !! key) eqn:Hkey; [done|].
  rewrite lookup_insert_ne; [done|]. intros ->. congruence.
Qed.

Lemma loadLines_keeps lines : ∀ env k v,
  env !! k = Some v → foldl loadLine env lines !! k = Some v.
Proof.
  induction lines as [|line lines IH]; intros env k v Hk; [done|].
  simpl. by apply IH, loadLine_keeps.
Qed.

Lemma loadDotEnv_keeps fs candidates : ∀ env k v,
  env !! k = Some v → loadDotEnvIfPresent fs candidates env !! k = Some v.
Proof.
  unfold loadDotEnvIfPresent.
  induction candidates as [|file candidates IH]; intros env k v Hk; [done|].
  simpl. apply IH. destruct (fs !! file); [|done]. by apply loadLines_keeps.
Qed.

(** Where a variable of the environment comes from, line by line. *)
Lemma loadLines_origin lines : ∀ env k v,
  foldl loadLine env lines !! k = Some v →
  env !! k = Some v
  ∨ (env !! k = None ∧ ∃ line, line ∈ lines ∧ parseLine line = Some (k, v)).
Proof.
  induction lines as [|line lines IH]; intros env k v; [by left|].
  simpl. intros [Hk|[Hk (l & Hl & Hparse)]]%IH.
  - unfold loadLine in Hk.
    destruct (parseLine line) as [[key val]|] eqn:Hline; [|by left].
    destruct (env !! key) eqn:Hkey; [by left|].
    destruct (decide (key = k)) as [->|Hne].
    + rewrite lookup_insert_eq in Hk. injection Hk as ->. right.
      split; [done|]. exists line. split; [by left|done].
    + rewrite lookup_insert_ne in Hk by done. by left.
  - right. split.
    + destruct (env !! k) eqn:Hek; [|done].
      by rewrite (loadLine_keeps _ _ _ _ Hek) in Hk.
    + exists l. split; [by right|done].
Qed.

Lemma loadDotEnv_origin_from fs candidates : ∀ env k v,
  loadDotEnvIfPresent fs candidates env !! k = Some v →
  env !! k = Some v
  ∨ (env !! k = None
     ∧ ∃ file content line,
         file ∈ candidates ∧ fs !! file = Some content
         ∧ line ∈ splitLines content ∧ parseLine line = Some (k, v)).
Proof.
  unfold loadDotEnvIfPresent.
  induction candidates as [|file candidates IH]; intros env k v; [by left|].
  simpl. intros [Hk|[Hk (f & content & line & Hf & Hc & Hl & Hp)]]%IH.
  - destruct (fs !! file) as [content|] eqn:Hfile; [|by left].
    apply loadLines_origin in Hk as [?|[? (line & ? & ?)]]; [by left|].
    right. split; [done|]. exists file, content, line.
    split_and!; try done. by left.
  - right. split.
    + destruct (env !! k) eqn:Hek; [|done].
      destruct (fs !! file); [|congruence].
      by rewrite (loadLines_keeps _ _ _ _ Hek) in Hk.
    + exists f, content, line. split_and!; try done. by right.
Qed.

Lemma parseLine_key line k v :
  parseLine line = Some (k, v) → k ≠ "" ∧ trim k = k.
Proof.
  unfold parseLine. destruct (_ || _); [done|].
  destruct (cut "=" (trim line)) as [[before after]|]; [|done].
  destruct (String.eqb_spec (trim before) "") as [|Hne]; [done|].
  intros [= <- _]. split; [done|apply trim_idem].
Qed.
End dotenv_facts.

Section dotenv_properties.
Import Text DotEnv.

(** X25: [loadDotEnvIfPresent] never changes a variable that is set: what
    the environment holds after the first files of the list, it holds after
    all of them, so that a variable of the process wins over the files, the
    [.env] of the working directory over that of the home directory, and an
    earlier line over a later one. *)
Theorem loadDotEnv_first_wins (fs : gmap string string)
    (before after : list string) (env : gmap string string) (k v : string) :
  loadDotEnvIfPresent fs before env !! k = Some v →
  loadDotEnvIfPresent fs (before ++ after) env !! k = Some v.
Proof.
  intros Hk. unfold loadDotEnvIfPresent. rewrite foldl_app.
  by apply loadDotEnv_keeps.
Qed.

Lemma loadDotEnv_first_wins_witness :
  let fs : gmap string string :=
    {[ "/repo/.env" := "TOKEN=abc"; "/home/me/.env" := "TOKEN=xyz" ]} in
  loadDotEnvIfPresent fs ["/repo/.env"; "/home/me/.env"] ∅ !! "TOKEN"
  = Some "abc".
Proof.
  intros fs.
  apply (loadDotEnv_first_wins fs ["/repo/.env"] ["/home/me/.env"] ∅
           "TOKEN" "abc").
  reflexivity.
Defined.

(** X26: a variable that the environment holds after [loadDotEnvIfPresent]
    was set before with the same value, or it was not set and a line of one
    of the files that exist defines it with that value; its name is then
    not empty and has no white space at either end. *)
Theorem loadDotEnv_origin (fs : gmap string string) (candidates : list string)
    (env : gmap string string) (k v : string) :
  loadDotEnvIfPresent fs candidates env !! k = Some v →
  env !! k = Some v
  ∨ (env !! k = None ∧ k ≠ "" ∧ trim k = k
     ∧ ∃ file content line,
         file ∈ candidates ∧ fs !! file = Some content
         ∧ line ∈ splitLines content ∧ parseLine line = Some (k, v)).
Proof.
  intros [?|[Hnone (file & content & line & Hf & Hc & Hl & Hp)]]%
    loadDotEnv_origin_from; [by left|right].
  destruct (parseLine_key _ _ _ Hp) as [? ?].
  split_and!; try done. by exists file, content, line.
Qed.

Lemma loadDotEnv_origin_witness :
  let fs : gmap string string :=
    {[ "/repo/.env" := "# token" +:+ JSON.nl +:+ "TOKEN = 'a b'" +:+ JSON.nl ]}
  in
  loadDotEnvIfPresent fs ["/repo/.env"; "/home/me/.env"] ∅ !! "TOKEN"
  = Some "a b"
  ∧ "TOKEN" ≠ "".
Proof.
  intros fs. split; [reflexivity|].
  destruct (loadDotEnv_origin fs ["/repo/.env"; "/home/me/.env"] ∅
              "TOKEN" "a b") as [?|(_ & Hne & _)]; [reflexivity|done|done].
Defined.

(** X27: a line [KEY=VALUE] of a [.env] file, [KEY] being not empty, without
    an equals sign, without white space at either end and not starting with
    a hash, [VALUE] without white space at either end, defines [KEY] as
    [VALUE], without its quotes when [VALUE] is between two double or two
    single quotes. *)
Theorem parseLine_assignment (key val : string) :
  key ≠ "" → trim key = key → cut "=" key = None →
  startsWith "#" key = false → trim val = val →
  parseLine (key +:+ "=" +:+ val)
  = Some (key,
          if startsWith "034" val && endsWith "034" val
             || startsWith "'" val && endsWith "'" val
          then inner val else val).
Proof.
  intros Hne Hkey Hcut Hhash Hval.
  destruct key as [|c key]; [done|].
  pose proof (trim_fixed_head _ _ Hkey) as Hc.
  pose proof (trim_fixed _ Hval) as [_ Hvend].
  assert (trimEnd ("=" +:+ val) = "=" +:+ val ∧ "=" +:+ val ≠ "")
    as [Hend Hnon].
  { split; [|done]. destruct val as [|x val]; [done|].
    by apply (trimEnd_app "="). }
  assert (trim (String c key +:+ "=" +:+ val) = String c key +:+ "=" +:+ val)
    as Htrim.
  { unfold trim. rewrite app_cons, trimStart_head by done.
    rewrite <-app_cons. by apply trimEnd_app. }
  unfold parseLine. rewrite Htrim.
  change ("=" +:+ val) with (String "=" val).
  rewrite (cut_app "=" (String c key) val Hcut). cbv zeta.
  rewrite Hkey, Hval. rewrite app_cons. cbn [String.eqb startsWith orb].
  simpl in Hhash. by rewrite Hhash.
Qed.

Lemma parseLine_assignment_witness :
  parseLine "TOKEN='a b'" = Some ("TOKEN", "a b").
Proof.
  apply (parseLine_assignment "TOKEN" "'a b'"); reflexivity || done.
Defined.
End dotenv_properties.

(** ** The arguments of generate-package *)

Section generate_args_facts.
Import Text Args GeneratePackageArgs.
Variable resolve : string → string → string.
Variable cwd : string.

Lemma parseKeys_clean v : Forall (λ k, k ≠ "" ∧ trim k = k) (parseKeys v).
Proof.
  unfold parseKeys. apply Forall_forall.
  intros k [Hne (piece & -> & _)%list_elem_of_fmap]%list_elem_of_filter.
  split; [done|apply trim_idem].
Qed.

(** The loop of [parseArgs], one turn at a time. *)
Lemma gp_parseArgsFrom_step o a rest :
  parseArgsFrom resolve cwd o (a :: rest)
  = if String.eqb a "--help" then
      inl (MergeVscodeConfig.mkNannyError "help" 0)
    else if String.eqb a "--package" then
      match head rest with
      | Some v =>
          if String.eqb v "" then
            inl (MergeVscodeConfig.mkNannyError "Missing value for --package" 1)
          else parseArgsFrom resolve cwd
                 (mkOptions (resolve cwd v) (verbose o) (dryRun o)
                    (keysToPreserve o)) (tail rest)
      | None =>
          inl (MergeVscodeConfig.mkNannyError "Missing value for --package" 1)
      end
    else if String.eqb a "--verbose" then
      parseArgsFrom resolve cwd
        (mkOptions (pkgPath o) true (dryRun o) (keysToPreserve o)) rest
    else if String.eqb a "--dry-run" then
      parseArgsFrom resolve cwd
        (mkOptions (pkgPath o) (verbose o) true (keysToPreserve o)) rest
    else if String.eqb a "--keys" then
      match head rest with
      | Some v =>
          if String.eqb v "" then
            inl (MergeVscodeConfig.mkNannyError "Missing value for --keys" 1)
          else parseArgsFrom resolve cwd
                 (mkOptions (pkgPath o) (verbose o) (dryRun o) (parseKeys v))
                 (tail rest)
      | None =>
          inl (MergeVscodeConfig.mkNannyError "Missing value for --keys" 1)
      end
    else inl (MergeVscodeConfig.mkNannyError ("Unknown argument: " +:+ a) 1).
Proof. by destruct rest. Qed.

(** A property of the options that every turn keeps holds of the options
    that [parseArgs] returns; [Q] holds of the arguments. *)
Lemma gp_parseArgsFrom_keeps (P : Options → Prop) (Q : string → Prop) argv :
  Forall Q argv →
  (∀ o v, P o →
     P (mkOptions (resolve cwd v) (verbose o) (dryRun o) (keysToPreserve o))) →
  (Q "--verbose" → ∀ o, P o →
     P (mkOptions (pkgPath o) true (dryRun o) (keysToPreserve o))) →
  (∀ o, P o → P (mkOptions (pkgPath o) (verbose o) true (keysToPreserve o))) →
  (∀ o v, P o →
     P (mkOptions (pkgPath o) (verbose o) (dryRun o) (parseKeys v))) →
  ∀ o, P o →
  match parseArgsFrom resolve cwd o argv with
  | inl e =>
      MergeVscodeConfig.exitCode e = 1%Z
      ∨ (MergeVscodeConfig.exitCode e = 0%Z ∧ Q "--help")
  | inr o' => P o'
  end.
Proof.
  intros HQ Hpkg Hverbose Hdry Hkeys.
  induction argv as [|a|a b l IH1 IH2] using list_pair_ind; intros o Ho.
  - done.
  - apply Forall_cons in HQ as [Ha _].
    rewrite gp_parseArgsFrom_step. cbn [head tail].
    destruct (String.eqb_spec a "--help") as [->|_]; [by right|].
    destruct (String.eqb a "--package"); [by left|].
    destruct (String.eqb_spec a "--verbose") as [->|_]; [by apply Hverbose|].
    destruct (String.eqb a "--dry-run"); [by apply Hdry|].
    destruct (String.eqb a "--keys"); by left.
  - pose proof HQ as [Ha Hbl]%Forall_cons.
    pose proof Hbl as [_ Hl]%Forall_cons.
    rewrite gp_parseArgsFrom_step. cbn [head tail].
    destruct (String.eqb_spec a "--help") as [->|_]; [by right|].
    destruct (String.eqb a "--package").
    { destruct (String.eqb b ""); [by left|]. apply IH1; [done|].
      by apply Hpkg. }
    destruct (String.eqb_spec a "--verbose") as [->|_];
      [apply IH2; [done|]; by apply Hverbose|].
    destruct (String.eqb a "--dry-run"); [apply IH2; [done|]; by apply Hdry|].
    destruct (String.eqb a "--keys"); [|by left].
    destruct (String.eqb b ""); [by left|]. apply IH1; [done|].
    by apply Hkeys.
Qed.
End generate_args_facts.

Section generate_args_properties.
Import Text Args GeneratePackageArgs.

(** X28: the keys to preserve that [parseArgs] of generate-package returns
    are never empty and have no white space at either end, whether they are
    the default keys or come from [--keys]; an error of [parseArgs] has the
    exit code 1, or 0 when [--help] is among the arguments. *)
Theorem generate_package_keys (resolve : string → string → string)
    (cwd : string) (argv : list string) (globalVerbose : bool) :
  match parseArgs resolve cwd argv globalVerbose with
  | inl e =>
      MergeVscodeConfig.exitCode e = 1%Z
      ∨ (MergeVscodeConfig.exitCode e = 0%Z ∧ "--help" ∈ argv)
  | inr o => Forall (λ k, k ≠ "" ∧ trim k = k) (keysToPreserve o)
  end.
Proof.
  unfold parseArgs.
  apply (gp_parseArgsFrom_keeps resolve cwd
           (λ o, Forall (λ k, k ≠ "" ∧ trim k = k) (keysToPreserve o))
           (λ a, a ∈ argv)); try done.
  - by apply Forall_forall.
  - intros o v _. apply parseKeys_clean.
  - cbn [keysToPreserve]. unfold GeneratePackage.defaultKeysToPreserve.
    repeat constructor; done.
Qed.

(** X29: generate-package called through [main] never shows its own help:
    the errors of its arguments all have the exit code 1, and the options
    are verbose exactly when [--verbose] is among the arguments of the
    command line. *)
Theorem generate_package_help_unreachable
    (resolve : string → string → string) (dir : string)
    (argv : list string) (cwd : option string) (v : bool)
    (rest : list string) :
  Cli.route argv = Cli.RunCommand Cli.generate_package cwd v rest →
  match parseArgs resolve dir rest v with
  | inl e => MergeVscodeConfig.exitCode e = 1%Z
  | inr o => verbose o = hasFlag (tail argv) "--verbose"
  end.
Proof.
  intros (cmd & args & -> & _ & _ & _ & -> & ->)%route_RunCommand.
  cbn [tail]. unfold parseArgs.
  pose proof (gp_parseArgsFrom_keeps resolve dir
                (λ o, verbose o = hasFlag args "--verbose")
                (λ a, isGlobalFlag a = false) (stripGlobalFlags args)
                (stripGlobalFlags_clean args)) as Hkeeps.
  specialize (Hkeeps (λ _ _ H, H)).
  specialize (Hkeeps (λ (H : isGlobalFlag "--verbose" = false), ltac:(done))).
  specialize (Hkeeps (λ _ H, H) (λ _ _ H, H)
                (mkOptions (resolve dir "package.json")
                   (hasFlag args "--verbose") false
                   GeneratePackage.defaultKeysToPreserve) eq_refl).
  destruct (parseArgsFrom _ _ _ _) as [e|o]; [|done].
  by destruct Hkeeps as [?|[_ ?]].
Qed.

Lemma generate_package_help_unreachable_witness :
  verbose (mkOptions "package.json" true true
             GeneratePackage.defaultKeysToPreserve) = true.
Proof.
  apply (generate_package_help_unreachable (λ _ p, p) "/repo"
           ["generate-package"; "--help"; "--verbose"; "--dry-run"]
           None true ["--dry-run"]).
  reflexivity.
Defined.
End generate_args_properties.

(** ** Names that objects inherit *)

Section inherited_names.
Import JS UpdatePackage.

(** [replaceVersions] on a target of which no dependency is named as a
    member of [Object.prototype] that the source lacks: the call does what
    it does on the properties that the maps own. *)
Lemma replaceVersions_own target source :
  (∀ section t s dep,
     getSection target section = Some t →
     getSection source section = Some s →
     dep ∈ Object_keys t → Proto.inherited dep = true →
     dep ∈ Object_keys s) →
  Proto.replaceVersions (Proto.manifest target) source
  = (Proto.manifest (replaceVersions target source).1,
     (replaceVersions target source).2).
Proof.
  intros Hnames.
  assert (∀ section t s u,
            getSection target section = Some t →
            getSection source section = Some s →
            Proto.syncVersions (Proto.own t) s u
            = (Proto.own (syncVersions t s u).1, (syncVersions t s u).2))
    as Hsync.
  { intros section t s u Ht Hs. unfold Proto.syncVersions, syncVersions.
    rewrite keys_own. apply syncVersions_own.
    intros d Hd Hinh. by eapply Hnames. }
  destruct target as [d dd sc w], source as [sd sdd ssc sw].
  unfold Proto.replaceVersions, replaceVersions, Proto.manifest.
  destruct d as [t1|], sd as [s1|], dd as [t2|], sdd as [s2|];
    cbn - [syncVersions Proto.syncVersions];
    repeat first
      [ rewrite (Hsync dependencies _ _ _ eq_refl eq_refl)
      | rewrite (Hsync devDependencies _ _ _ eq_refl eq_refl)
      | match goal with
        | |- context [syncVersions ?t ?s ?u] =>
            destruct (syncVersions t s u) as [? ?];
            cbn - [syncVersions Proto.syncVersions]
        end ];
    reflexivity.
Qed.

(** [findDuplicateKeys] on maps without a name of [Object.prototype] and
    without an array index: the call returns, with the report that the
    properties owned by the table give. *)
Lemma findDuplicateKeys_own {T} (entries : list (string * Obj T)) :
  Forall (λ e, Forall (λ k, Proto.inherited k = false
                            ∧ Proto.arrayIndex k = None)
                      (Object_keys e.2)) entries →
  Proto.findDuplicateKeys entries = inr (findDuplicateKeys entries).
Proof.
  intros Hnames.
  assert (∀ seen, Proto.foldE
                    (λ seen '(file, map),
                       Proto.foldE (Proto.noteKey file) seen (Object_keys map))
                    seen entries
                  = inr (seenFrom seen entries)) as Hseen.
  { unfold Proto.foldE at 1. unfold seenFrom.
    induction Hnames as [|[file map] entries Hmap _ IH]; intros seen;
      [done|].
    cbn [foldl]. rewrite noteKeys_own by done. apply IH. }
  unfold Proto.findDuplicateKeys, Proto.seenIn, findDuplicateKeys, seenIn.
  by rewrite Hseen.
Qed.

(** C6: for a target that depends on a package named [constructor] and a
    source that does not, [replaceVersions] puts the member [constructor]
    of [Object.prototype], which the lookup [s[dep]] finds in the source, in
    the place of the version and returns [true]: an entry has changed whose
    name is in the target only. *)
Theorem replaceVersions_writes_inherited_member :
  let target := mkPackageJson
                  (Some [("constructor", "1.0.0"); ("left-pad", "1.3.0")])
                  None None None in
  let source := mkPackageJson (Some [("left-pad", "1.3.0")]) None None None in
  get (default [] (pkg_dependencies source)) "constructor" = None
  ∧ Proto.replaceVersions (Proto.manifest target) source
    = (Proto.mkManifest
         (Some [("constructor", Proto.Builtin "constructor");
                ("left-pad", Proto.Own "1.3.0")])
         None,
       true).
Proof. split; reflexivity. Qed.

(** C8: for a map with the name [toString], [findDuplicateKeys] gives no
    report: the table [seen], which owns nothing yet, has the member
    [toString] of [Object.prototype], so no list is put there, and the call
    of [push] throws. *)
Theorem findDuplicateKeys_throws_on_inherited_name :
  Proto.findDuplicateKeys
    [("one.jsonc", [("build", "tsc"); ("toString", "node print.js")]);
     ("two.jsonc", [("build", "tsc -b")])]
  = inl (Proto.TypeError "seen[key].push is not a function").
Proof. reflexivity. Qed.



End inherited_names.
